(** * BLAKE3 in TypeScript (rotkonetworks/blake3-js): a shallow embedding

    The development follows [src/blake3.ts] (the scalar implementation) and
    the function [hashWasmSimd] of the batched backend.  JavaScript numbers
    are modelled by [Z]: every quantity the program manipulates is an
    integer far below 2^53, where double arithmetic is exact.  The 32-bit
    behaviour of the bit operators is written out through [ToInt32] and
    [ToUint32]. *)

From Stdlib Require Import ZArith List Lia Bool Sorted.
From Stdlib.Strings Require Import Byte Ascii.
Import ListNotations.
Local Open Scope Z_scope.

(** ** JavaScript integers and typed arrays *)

Module JS.

(** [ToUint32] and [ToInt32] of ECMAScript, on integral numbers. *)
Definition ToUint32 (x : Z) : Z := Z.land x 4294967295.

Definition ToInt32 (x : Z) : Z :=
let u := ToUint32 x in if u <? 2147483648 then u else u - 4294967296.

(** [a | b], [a ^ b], [a & b]: both operands go through [ToInt32]. *)
Definition or (a b : Z) : Z := Z.lor (ToInt32 a) (ToInt32 b).
Definition xor (a b : Z) : Z := Z.lxor (ToInt32 a) (ToInt32 b).
Definition and (a b : Z) : Z := Z.land (ToInt32 a) (ToInt32 b).

(** [a << n], [a >> n] (signed) and [a >>> n] (unsigned); the shift count
  is taken modulo 32. *)
Definition shl (a n : Z) : Z := ToInt32 (Z.shiftl (ToInt32 a) (Z.land n 31)).
Definition sar (a n : Z) : Z := Z.shiftr (ToInt32 a) (Z.land n 31).
Definition shr (a n : Z) : Z := Z.shiftr (ToUint32 a) (Z.land n 31).

(** [Math.ceil(a / b)] for a non-negative integer [a] and a positive [b]. *)
Definition ceil_div (a b : Z) : Z := (a + b - 1) / b.

(** [typed[i]] read: an index outside the array gives [undefined], which
  every use in the program feeds to a bit operator, where it counts as 0. *)
Definition get (l : list Z) (i : Z) : Z :=
if i <? 0 then 0 else nth (Z.to_nat i) l 0.

(** In-place element store of a typed array: an index outside the array is
  ignored. *)
Fixpoint upd (l : list Z) (n : nat) (v : Z) : list Z :=
match l, n with
| [], _ => []
| _ :: t, O => v :: t
| h :: t, S k => h :: upd t k v
end.

Definition set (l : list Z) (i v : Z) : list Z :=
if i <? 0 then l else upd l (Z.to_nat i) v.

(** Stores convert the value to the element type. *)
Definition set32 (l : list Z) (i v : Z) : list Z := set l i (ToUint32 v).
Definition set8 (l : list Z) (i v : Z) : list Z := set l i (Z.land v 255).

(** [dst.set(src, off)] of a typed array whose elements are 32-bit. *)
Fixpoint set_from (dst src : list Z) (off : Z) : list Z :=
match src with
| [] => dst
| v :: src' => set_from (set32 dst off v) src' (off + 1)
end.

(** [while (cond) body], run for at most [fuel] iterations. *)
Fixpoint while {S : Type} (fuel : nat) (cond : S -> bool) (body : S -> S)
  (s : S) : S :=
match fuel with
| O => s
| Datatypes.S fuel' =>
    if cond s then while fuel' cond body (body s) else s
end.

End JS.

(** ** Constants of [blake3.ts] *)

Definition IV : list Z :=
  [0x6a09e667; 0xbb67ae85; 0x3c6ef372; 0xa54ff53a;
   0x510e527f; 0x9b05688c; 0x1f83d9ab; 0x5be0cd19].

Definition BLOCK_LEN : Z := 64.
Definition CHUNK_LEN : Z := 1024.

Definition CHUNK_START : Z := 1.
Definition CHUNK_END : Z := 2.
Definition PARENT : Z := 4.
Definition ROOT : Z := 8.
Definition KEYED_HASH : Z := 16.
Definition DERIVE_KEY_CONTEXT : Z := 32.
Definition DERIVE_KEY_MATERIAL : Z := 64.

(** ** [compress] *)

(** Sixteen named locals: the state words [s_0 .. s_15], and likewise the
    message words [m_0 .. m_15]. *)
Inductive locals16 : Type :=
| L16 (w0 w1 w2 w3 w4 w5 w6 w7 w8 w9 w10 w11 w12 w13 w14 w15 : Z).

(** The column and diagonal mixing of one loop iteration, statement by
    statement; an assignment rebinds the name it assigns. *)
Definition mixing (s m : locals16) : locals16 :=
  let '(L16 s_0 s_1 s_2 s_3 s_4 s_5 s_6 s_7 s_8 s_9 s_10 s_11 s_12 s_13 s_14 s_15) := s in
  let '(L16 m_0 m_1 m_2 m_3 m_4 m_5 m_6 m_7 m_8 m_9 m_10 m_11 m_12 m_13 m_14 m_15) := m in
  let s_0 := JS.or (JS.or (s_0 + s_4) 0 + m_0) 0 in let s_12 := JS.xor s_12 s_0 in let s_12 := JS.or (JS.shr s_12 16) (JS.shl s_12 16) in
  let s_8 := JS.or (s_8 + s_12) 0 in let s_4 := JS.xor s_4 s_8 in let s_4 := JS.or (JS.shr s_4 12) (JS.shl s_4 20) in
  let s_0 := JS.or (JS.or (s_0 + s_4) 0 + m_1) 0 in let s_12 := JS.xor s_12 s_0 in let s_12 := JS.or (JS.shr s_12 8) (JS.shl s_12 24) in
  let s_8 := JS.or (s_8 + s_12) 0 in let s_4 := JS.xor s_4 s_8 in let s_4 := JS.or (JS.shr s_4 7) (JS.shl s_4 25) in
  let s_1 := JS.or (JS.or (s_1 + s_5) 0 + m_2) 0 in let s_13 := JS.xor s_13 s_1 in let s_13 := JS.or (JS.shr s_13 16) (JS.shl s_13 16) in
  let s_9 := JS.or (s_9 + s_13) 0 in let s_5 := JS.xor s_5 s_9 in let s_5 := JS.or (JS.shr s_5 12) (JS.shl s_5 20) in
  let s_1 := JS.or (JS.or (s_1 + s_5) 0 + m_3) 0 in let s_13 := JS.xor s_13 s_1 in let s_13 := JS.or (JS.shr s_13 8) (JS.shl s_13 24) in
  let s_9 := JS.or (s_9 + s_13) 0 in let s_5 := JS.xor s_5 s_9 in let s_5 := JS.or (JS.shr s_5 7) (JS.shl s_5 25) in
  let s_2 := JS.or (JS.or (s_2 + s_6) 0 + m_4) 0 in let s_14 := JS.xor s_14 s_2 in let s_14 := JS.or (JS.shr s_14 16) (JS.shl s_14 16) in
  let s_10 := JS.or (s_10 + s_14) 0 in let s_6 := JS.xor s_6 s_10 in let s_6 := JS.or (JS.shr s_6 12) (JS.shl s_6 20) in
  let s_2 := JS.or (JS.or (s_2 + s_6) 0 + m_5) 0 in let s_14 := JS.xor s_14 s_2 in let s_14 := JS.or (JS.shr s_14 8) (JS.shl s_14 24) in
  let s_10 := JS.or (s_10 + s_14) 0 in let s_6 := JS.xor s_6 s_10 in let s_6 := JS.or (JS.shr s_6 7) (JS.shl s_6 25) in
  let s_3 := JS.or (JS.or (s_3 + s_7) 0 + m_6) 0 in let s_15 := JS.xor s_15 s_3 in let s_15 := JS.or (JS.shr s_15 16) (JS.shl s_15 16) in
  let s_11 := JS.or (s_11 + s_15) 0 in let s_7 := JS.xor s_7 s_11 in let s_7 := JS.or (JS.shr s_7 12) (JS.shl s_7 20) in
  let s_3 := JS.or (JS.or (s_3 + s_7) 0 + m_7) 0 in let s_15 := JS.xor s_15 s_3 in let s_15 := JS.or (JS.shr s_15 8) (JS.shl s_15 24) in
  let s_11 := JS.or (s_11 + s_15) 0 in let s_7 := JS.xor s_7 s_11 in let s_7 := JS.or (JS.shr s_7 7) (JS.shl s_7 25) in
  (* Diagonal mixing *)
  let s_0 := JS.or (JS.or (s_0 + s_5) 0 + m_8) 0 in let s_15 := JS.xor s_15 s_0 in let s_15 := JS.or (JS.shr s_15 16) (JS.shl s_15 16) in
  let s_10 := JS.or (s_10 + s_15) 0 in let s_5 := JS.xor s_5 s_10 in let s_5 := JS.or (JS.shr s_5 12) (JS.shl s_5 20) in
  let s_0 := JS.or (JS.or (s_0 + s_5) 0 + m_9) 0 in let s_15 := JS.xor s_15 s_0 in let s_15 := JS.or (JS.shr s_15 8) (JS.shl s_15 24) in
  let s_10 := JS.or (s_10 + s_15) 0 in let s_5 := JS.xor s_5 s_10 in let s_5 := JS.or (JS.shr s_5 7) (JS.shl s_5 25) in
  let s_1 := JS.or (JS.or (s_1 + s_6) 0 + m_10) 0 in let s_12 := JS.xor s_12 s_1 in let s_12 := JS.or (JS.shr s_12 16) (JS.shl s_12 16) in
  let s_11 := JS.or (s_11 + s_12) 0 in let s_6 := JS.xor s_6 s_11 in let s_6 := JS.or (JS.shr s_6 12) (JS.shl s_6 20) in
  let s_1 := JS.or (JS.or (s_1 + s_6) 0 + m_11) 0 in let s_12 := JS.xor s_12 s_1 in let s_12 := JS.or (JS.shr s_12 8) (JS.shl s_12 24) in
  let s_11 := JS.or (s_11 + s_12) 0 in let s_6 := JS.xor s_6 s_11 in let s_6 := JS.or (JS.shr s_6 7) (JS.shl s_6 25) in
  let s_2 := JS.or (JS.or (s_2 + s_7) 0 + m_12) 0 in let s_13 := JS.xor s_13 s_2 in let s_13 := JS.or (JS.shr s_13 16) (JS.shl s_13 16) in
  let s_8 := JS.or (s_8 + s_13) 0 in let s_7 := JS.xor s_7 s_8 in let s_7 := JS.or (JS.shr s_7 12) (JS.shl s_7 20) in
  let s_2 := JS.or (JS.or (s_2 + s_7) 0 + m_13) 0 in let s_13 := JS.xor s_13 s_2 in let s_13 := JS.or (JS.shr s_13 8) (JS.shl s_13 24) in
  let s_8 := JS.or (s_8 + s_13) 0 in let s_7 := JS.xor s_7 s_8 in let s_7 := JS.or (JS.shr s_7 7) (JS.shl s_7 25) in
  let s_3 := JS.or (JS.or (s_3 + s_4) 0 + m_14) 0 in let s_14 := JS.xor s_14 s_3 in let s_14 := JS.or (JS.shr s_14 16) (JS.shl s_14 16) in
  let s_9 := JS.or (s_9 + s_14) 0 in let s_4 := JS.xor s_4 s_9 in let s_4 := JS.or (JS.shr s_4 12) (JS.shl s_4 20) in
  let s_3 := JS.or (JS.or (s_3 + s_4) 0 + m_15) 0 in let s_14 := JS.xor s_14 s_3 in let s_14 := JS.or (JS.shr s_14 8) (JS.shl s_14 24) in
  let s_9 := JS.or (s_9 + s_14) 0 in let s_4 := JS.xor s_4 s_9 in let s_4 := JS.or (JS.shr s_4 7) (JS.shl s_4 25) in
  L16 s_0 s_1 s_2 s_3 s_4 s_5 s_6 s_7 s_8 s_9 s_10 s_11 s_12 s_13 s_14 s_15.

(** "Permute message words": the two assignment chains of the loop body. *)
Definition permute (m : locals16) : locals16 :=
  let '(L16 m_0 m_1 m_2 m_3 m_4 m_5 m_6 m_7 m_8 m_9 m_10 m_11 m_12 m_13 m_14 m_15) := m in
  let t0 := m_0 in let t1 := m_1 in
  let m_0 := m_2 in let m_2 := m_3 in let m_3 := m_10 in let m_10 := m_12 in
  let m_12 := m_9 in let m_9 := m_11 in let m_11 := m_5 in let m_5 := t0 in
  let m_1 := m_6 in let m_6 := m_4 in let m_4 := m_7 in let m_7 := m_13 in
  let m_13 := m_14 in let m_14 := m_15 in let m_15 := m_8 in let m_8 := t1 in
  L16 m_0 m_1 m_2 m_3 m_4 m_5 m_6 m_7 m_8 m_9 m_10 m_11 m_12 m_13 m_14 m_15.

(** Loop state of [for (let i = 0; i < 7; ++i)]. *)
Definition round_cond (st : Z * locals16 * locals16) : bool :=
  let '(i, _, _) := st in i <? 7.

Definition round_body (st : Z * locals16 * locals16) : Z * locals16 * locals16 :=
  let '(i, s, m) := st in
  let s := mixing s m in
  let m := if i <? 6 then permute m else m in
  (i + 1, s, m).

Definition compress (cv m : list Z) (counter blockLen flags : Z) : list Z :=
  let s := L16 (JS.or (JS.get cv 0) 0) (JS.or (JS.get cv 1) 0)
               (JS.or (JS.get cv 2) 0) (JS.or (JS.get cv 3) 0)
               (JS.or (JS.get cv 4) 0) (JS.or (JS.get cv 5) 0)
               (JS.or (JS.get cv 6) 0) (JS.or (JS.get cv 7) 0)
               0x6a09e667 0xbb67ae85 0x3c6ef372 0xa54ff53a
               (JS.or counter 0) (JS.or (Z.quot counter 0x100000000) 0)
               (JS.or blockLen 0) (JS.or flags 0) in
  let m := L16 (JS.or (JS.get m 0) 0) (JS.or (JS.get m 1) 0)
               (JS.or (JS.get m 2) 0) (JS.or (JS.get m 3) 0)
               (JS.or (JS.get m 4) 0) (JS.or (JS.get m 5) 0)
               (JS.or (JS.get m 6) 0) (JS.or (JS.get m 7) 0)
               (JS.or (JS.get m 8) 0) (JS.or (JS.get m 9) 0)
               (JS.or (JS.get m 10) 0) (JS.or (JS.get m 11) 0)
               (JS.or (JS.get m 12) 0) (JS.or (JS.get m 13) 0)
               (JS.or (JS.get m 14) 0) (JS.or (JS.get m 15) 0) in
  let '(_, s, _) := JS.while 7 round_cond round_body (0, s, m) in
  let '(L16 s_0 s_1 s_2 s_3 s_4 s_5 s_6 s_7 s_8 s_9 s_10 s_11 s_12 s_13 s_14 s_15) := s in
  map JS.ToUint32
    [JS.xor s_0 s_8; JS.xor s_1 s_9; JS.xor s_2 s_10; JS.xor s_3 s_11;
     JS.xor s_4 s_12; JS.xor s_5 s_13; JS.xor s_6 s_14; JS.xor s_7 s_15].

(** ** Bytes, outcomes and the log of compressions *)

(** A [Uint8Array] is a list of bytes; reading one gives its number. *)
Definition byte_to_Z (b : byte) : Z := Z.of_N (Byte.to_N b).

(** Storing a number in a [Uint8Array] keeps its low eight bits. *)
Definition Z_to_byte (z : Z) : byte :=
  match Byte.of_N (Z.to_N (Z.land z 255)) with
  | Some b => b
  | None => Byte.x00
  end.

Definition get8 (input : list byte) (i : Z) : Z :=
  if i <? 0 then 0
  else match nth_error input (Z.to_nat i) with
       | Some b => byte_to_Z b
       | None => 0
       end.

Fixpoint upd8 (l : list byte) (n : nat) (v : byte) : list byte :=
  match l, n with
  | [], _ => []
  | _ :: t, O => v :: t
  | h :: t, S k => h :: upd8 t k v
  end.

Definition set8 (l : list byte) (i v : Z) : list byte :=
  if i <? 0 then l else upd8 l (Z.to_nat i) (Z_to_byte v).

Definition len8 (input : list byte) : Z := Z.of_nat (length input).

Inductive exn : Type :=
| RangeError            (* new Uint8Array of a negative length *)
| TypeError             (* indexing undefined *)
| KeyMustBe32Bytes.     (* Error('Key must be 32 bytes') *)

Inductive outcome (A : Type) : Type :=
| Returns (a : A)
| Throws (e : exn).
Arguments Returns {A} a.
Arguments Throws {A} e.

(** One executed call of [compress], with its five arguments.  The log of a
    run lists its calls in the order they are executed. *)
Record call : Type := Call {
  call_cv : list Z;
  call_m : list Z;
  call_counter : Z;
  call_blockLen : Z;
  call_flags : Z
}.

Definition has_flag (f : Z) (c : call) : bool :=
  negb (Z.land (call_flags c) f =? 0).

(** The last compression of a log. *)
Definition last_call (calls : list call) : option call :=
  match rev calls with
  | [] => None
  | c :: _ => Some c
  end.

(** What a logged compression returned. *)
Definition call_result (c : call) : list Z :=
  compress (call_cv c) (call_m c) (call_counter c) (call_blockLen c)
    (call_flags c).

(** ** Block reader and digest extractor *)

(** [readBlock]: the result is the content of [out] on return.  [out] is a
    16-word array and the function starts with [out.fill(0)], so what it
    held before is irrelevant. *)
Definition readBlock_words_cond (input : list byte) (end_ : Z)
    (st : list Z * Z * Z) : bool :=
  let '(out, wi, i) := st in i + 4 <=? end_.

Definition readBlock_words_body (input : list byte)
    (st : list Z * Z * Z) : list Z * Z * Z :=
  let '(out, wi, i) := st in
  let out :=
    JS.set32 out wi
      (JS.or (JS.or (JS.or (get8 input i) (JS.shl (get8 input (i + 1)) 8))
                    (JS.shl (get8 input (i + 2)) 16))
             (JS.shl (get8 input (i + 3)) 24)) in
  (out, wi + 1, i + 4).

Definition readBlock_tail_cond (end_ : Z) (st : Z * Z * Z) : bool :=
  let '(word, shift, i) := st in i <? end_.

Definition readBlock_tail_body (input : list byte)
    (st : Z * Z * Z) : Z * Z * Z :=
  let '(word, shift, i) := st in
  (JS.or word (JS.shl (get8 input i) shift), shift + 8, i + 1).

Definition readBlock (input : list byte) (offset length : Z) : list Z :=
  let out := repeat 0 16 in
  let end_ := Z.min (offset + length) (len8 input) in
  let '(out, wi, i) :=
    JS.while (Z.to_nat length) (readBlock_words_cond input end_)
      (readBlock_words_body input) (out, 0, offset) in
  if i <? end_ then
    let '(word, _, _) :=
      JS.while 4 (readBlock_tail_cond end_) (readBlock_tail_body input)
        (0, 0, i) in
    JS.set32 out wi word
  else out.

(** [cvToBytes]: the loop state is [(i, result)]. *)
Definition cvToBytes_cond (outputLen : Z) (st : Z * list byte) : bool :=
  let '(i, _) := st in i <? Z.min 8 (JS.ceil_div outputLen 4).

Definition cvToBytes_body (cv : list Z) (outputLen : Z)
    (st : Z * list byte) : Z * list byte :=
  let '(i, result) := st in
  let word := JS.get cv i in
  let base := i * 4 in
  let result :=
    if base <? outputLen then set8 result base (JS.and word 0xff)
    else result in
  let result :=
    if base + 1 <? outputLen
    then set8 result (base + 1) (JS.and (JS.sar word 8) 0xff)
    else result in
  let result :=
    if base + 2 <? outputLen
    then set8 result (base + 2) (JS.and (JS.sar word 16) 0xff)
    else result in
  let result :=
    if base + 3 <? outputLen
    then set8 result (base + 3) (JS.and (JS.sar word 24) 0xff)
    else result in
  (i + 1, result).

Definition cvToBytes (cv : list Z) (outputLen : Z) : outcome (list byte) :=
  if outputLen <? 0 then Throws RangeError
  else
    let result := repeat Byte.x00 (Z.to_nat outputLen) in
    let '(_, result) :=
      JS.while 8 (cvToBytes_cond outputLen) (cvToBytes_body cv outputLen)
        (0, result) in
    Returns result.

(** ** The block loop and the tree loops *)

(** The per-block loop.  The source repeats it, with small differences, in
    [processChunk], in the single-chunk path of [hash], in [keyedHash]
    (twice), in [deriveKey] (twice) and in [hashWasmSimd]; the differences
    are the parameters here:
    - [read offset blockLen]: what the copy leaves in its message buffer,
      through [readBlock] alone or with [readBlockFastLE] tried first;
    - [lastFlags]: what the last block adds, [CHUNK_END] or
      [CHUNK_END | ROOT];
    - the offset [chunkStart] and length [chunkLen] of the bytes to read,
      the [counter] and the mode [flags].
    The loop state is [(cv, pos, blocksRemaining, calls)], where [calls]
    collects the compressions made so far; [cv.set(result)] makes
    [result] the new content of [cv]. *)
Section BlockLoop.

Variable read : Z -> Z -> list Z.
Variable lastFlags : Z.
Variables chunkStart chunkLen counter flags : Z.

Definition block_cond (st : list Z * Z * Z * list call) : bool :=
let '(_, _, blocksRemaining, _) := st in 0 <? blocksRemaining.

Definition block_body (st : list Z * Z * Z * list call)
  : list Z * Z * Z * list call :=
let '(cv, pos, blocksRemaining, calls) := st in
let blockLen := Z.min BLOCK_LEN (chunkLen - pos) in
let isFirst := pos =? 0 in
let isLast := blocksRemaining =? 1 in
let blockFlags := flags in
let blockFlags :=
  if isFirst then JS.or blockFlags CHUNK_START else blockFlags in
let blockFlags :=
  if isLast then JS.or blockFlags lastFlags else blockFlags in
let blockWordsBuffer := read (chunkStart + pos) blockLen in
let result := compress cv blockWordsBuffer counter blockLen blockFlags in
(result, pos + BLOCK_LEN, blocksRemaining - 1,
 calls ++ [Call cv blockWordsBuffer counter blockLen blockFlags]).

(** [Math.ceil(chunkLen / BLOCK_LEN) || 1] *)
Definition block_count : Z :=
let n := JS.ceil_div chunkLen BLOCK_LEN in if n =? 0 then 1 else n.

Definition block_loop (cv0 : list Z) : list Z * list call :=
let '(cv, _, _, calls) :=
  JS.while (Z.to_nat block_count) block_cond block_body
    (cv0, 0, block_count, []) in
(cv, calls).

End BlockLoop.

(** The parent block: a fresh 16-word array receiving [left] at 0 and
    [right] at 8. *)
Definition parent_block (left right : list Z) : list Z :=
  JS.set_from (JS.set_from (repeat 0 16) left 0) right 8.

Definition mergeParents (left right : list Z) (flags : Z) (isRoot : bool)
    : list Z * list call :=
  let block := parent_block left right in
  let parentFlags := JS.or flags PARENT in
  let parentFlags := if isRoot then JS.or parentFlags ROOT else parentFlags in
  (compress IV block 0 BLOCK_LEN parentFlags,
   [Call IV block 0 BLOCK_LEN parentFlags]).

(** [cvStack[0]] of a stack kept top first ([None] for [undefined]). *)
Definition bottom (cvStack : list (list Z)) : option (list Z) :=
  match rev cvStack with
  | [] => None
  | cv :: _ => Some cv
  end.

(** [return cvToBytes(cv, outputLen)]; indexing [undefined] throws. *)
Definition finish (run : option (list Z) * list call) (outputLen : Z)
    : outcome (list byte) * list call :=
  let '(cv, calls) := run in
  match cv with
  | Some cv => (cvToBytes cv outputLen, calls)
  | None => (Throws TypeError, calls)
  end.

(** The tree loops.  The subtree stack [cvStack] is kept with its top
    first: [push] is a cons, [pop] removes the head, and [cvStack[0]], the
    bottom, is the last element.

    [hash], [keyedHash] and [hashWasmSimd] each carry a copy of these
    loops; the copies differ in
    - [chunk c]: how the CV of chunk [c] is computed;
    - [merge_eager left right]: the parent compression of the eager merge;
    - [merge_final left right isRoot]: the one of the final merge;
    - [guarded]: whether the eager merge stands inside
      [if (!isLastChunk)]. *)
Section Tree.

Variable chunk : Z -> list Z * list call.
Variable merge_eager : list Z -> list Z -> list Z * list call.
Variable merge_final : list Z -> list Z -> bool -> list Z * list call.
Variable guarded : bool.
Variable numChunks : Z.

(** [while ((totalChunks & 1) === 0 && cvStack.length >= 2)], on the
  state [(totalChunks, cvStack, calls)]. *)
Definition eager_cond (st : Z * list (list Z) * list call) : bool :=
let '(totalChunks, cvStack, _) := st in
(JS.and totalChunks 1 =? 0) && (2 <=? Z.of_nat (length cvStack)).

Definition eager_body (st : Z * list (list Z) * list call)
  : Z * list (list Z) * list call :=
let '(totalChunks, cvStack, calls) := st in
match cvStack with
| right_cv :: left_cv :: cvStack =>
    let '(cv, made) := merge_eager left_cv right_cv in
    (JS.sar totalChunks 1, cv :: cvStack, calls ++ made)
| _ => st
end.

(** Pushing the CV of chunk [currentChunk] and merging after it. *)
Definition push_chunk (currentChunk : Z) (cv : list Z)
  (cvStack : list (list Z)) (calls : list call)
  : list (list Z) * list call :=
let isLastChunk := currentChunk =? numChunks - 1 in
let cvStack := cv :: cvStack in
if guarded && isLastChunk then (cvStack, calls)
else
  let totalChunks := currentChunk + 1 in
  let '(_, cvStack, calls) :=
    JS.while (length cvStack) eager_cond eager_body
      (totalChunks, cvStack, calls) in
  (cvStack, calls).

(** [for (let c = 0; c < numChunks; c++)], on [(c, cvStack, calls)]. *)
Definition chunks_cond (st : Z * list (list Z) * list call) : bool :=
let '(c, _, _) := st in c <? numChunks.

Definition chunks_body (st : Z * list (list Z) * list call)
  : Z * list (list Z) * list call :=
let '(c, cvStack, calls) := st in
let '(cv, made) := chunk c in
let '(cvStack, calls) := push_chunk c cv cvStack (calls ++ made) in
(c + 1, cvStack, calls).

(** [while (cvStack.length > 1)], on the state [(cvStack, calls)]. *)
Definition final_cond (st : list (list Z) * list call) : bool :=
let '(cvStack, _) := st in 1 <? Z.of_nat (length cvStack).

Definition final_body (st : list (list Z) * list call)
  : list (list Z) * list call :=
let '(cvStack, calls) := st in
match cvStack with
| right_cv :: left_cv :: cvStack =>
    let isRoot := Z.of_nat (length cvStack) =? 0 in
    let '(cv, made) := merge_final left_cv right_cv isRoot in
    (cv :: cvStack, calls ++ made)
| _ => st
end.

Definition final_merges (st : list (list Z) * list call)
  : list (list Z) * list call :=
JS.while (length (fst st)) final_cond final_body st.

(** The state of the chunk loop after [n] iterations. *)
Definition chunks_loop (n : nat) : Z * list (list Z) * list call :=
JS.while n chunks_cond chunks_body (0, [], []).

(** The chunk loop followed by the final merges; the result is
  [cvStack[0]], or [None] for [undefined]. *)
Definition tree : option (list Z) * list call :=
let '(_, cvStack, calls) := chunks_loop (Z.to_nat numChunks) in
let '(cvStack, calls) := final_merges (cvStack, calls) in
(bottom cvStack, calls).

End Tree.

(** ** The scalar engine of [blake3.ts] *)

Section Host.

(** The two facts about the host that [readBlockFastLE] looks at: the
  module constant [IS_LITTLE_ENDIAN], and [input.byteOffset], the
  position of the input view in its underlying buffer. *)
Variable IS_LITTLE_ENDIAN : bool.
Variable byteOffset : Z.

(** Word [j] of [new Uint32Array(input.buffer, absoluteOffset, 16)] on a
  little-endian host: the four bytes of the input from [offset + 4 j]. *)
Definition view32 (input : list byte) (offset j : Z) : Z :=
get8 input (offset + 4 * j)
+ 2 ^ 8 * get8 input (offset + 4 * j + 1)
+ 2 ^ 16 * get8 input (offset + 4 * j + 2)
+ 2 ^ 24 * get8 input (offset + 4 * j + 3).

(** [readBlockFastLE]: [Some out] when it returns [true], having filled
  [out] from the view; [None] when it returns [false]. *)
Definition readBlockFastLE (input : list byte) (offset : Z)
  : option (list Z) :=
let absoluteOffset := byteOffset + offset in
if IS_LITTLE_ENDIAN && (JS.and absoluteOffset 3 =? 0)
   && (offset + 64 <=? len8 input)
then Some (map (fun j => view32 input offset (Z.of_nat j)) (seq 0 16))
else None.

(** [if (blockLen === BLOCK_LEN && readBlockFastLE(input, offset, out)) {}
  else readBlock(input, offset, blockLen, out)] *)
Definition read_fast (input : list byte) (offset blockLen : Z) : list Z :=
if blockLen =? BLOCK_LEN then
  match readBlockFastLE input offset with
  | Some out => out
  | None => readBlock input offset blockLen
  end
else readBlock input offset blockLen.

Definition processChunk (input : list byte)
  (chunkStart chunkLen chunkCounter flags : Z) : list Z * list call :=
block_loop (read_fast input) CHUNK_END chunkStart chunkLen chunkCounter
  flags IV.

(** *** [hash] *)

(** The chunk part of the body of the [for] loop of [hash]: the CV of
  chunk [c]. *)
Definition hash_chunk (flags : Z) (input : list byte) (c : Z)
  : list Z * list call :=
let chunkStart := c * CHUNK_LEN in
let chunkLen := Z.min CHUNK_LEN (len8 input - chunkStart) in
processChunk input chunkStart chunkLen c flags.

(** The body of [hash] up to the root CV, with its constant [flags] as a
  parameter; besides the CV it gives the log of the compressions of
  the run. *)
Definition hash_root (flags : Z) (input : list byte)
  : option (list Z) * list call :=
if len8 input <=? CHUNK_LEN then
  let '(cv, calls) :=
    block_loop (read_fast input) (JS.or CHUNK_END ROOT) 0 (len8 input) 0
      flags IV in
  (Some cv, calls)
else
  let numChunks := JS.ceil_div (len8 input) CHUNK_LEN in
  tree (hash_chunk flags input)
    (fun left right => mergeParents left right flags false)
    (fun left right isRoot => mergeParents left right flags isRoot)
    true numChunks.

Definition hash_run (input : list byte) (outputLen : Z)
  : outcome (list byte) * list call :=
let flags := 0 in
finish (hash_root flags input) outputLen.

Definition hash (input : list byte) (outputLen : Z) : outcome (list byte) :=
fst (hash_run input outputLen).

End Host.

(** *** [keyedHash] *)

(** [keyWords[i] = key[o] | (key[o+1] << 8) | (key[o+2] << 16) | (key[o+3] << 24)],
    stored in a [Uint32Array]. *)
Definition keyWords_of (key : list byte) : list Z :=
  map (fun i =>
         let o := Z.of_nat i * 4 in
         JS.ToUint32
           (JS.or (JS.or (JS.or (get8 key o) (JS.shl (get8 key (o + 1)) 8))
                         (JS.shl (get8 key (o + 2)) 16))
                  (JS.shl (get8 key (o + 3)) 24)))
      (seq 0 8).

(** The body of [keyedHash] after the key check, up to the root CV. *)
Definition keyedHash_root (keyWords : list Z) (input : list byte)
    : option (list Z) * list call :=
  let flags := KEYED_HASH in
  if len8 input <=? CHUNK_LEN then
    let '(cv, calls) :=
      block_loop (readBlock input) (JS.or CHUNK_END ROOT) 0 (len8 input) 0
        flags keyWords in
    (Some cv, calls)
  else
    let numChunks := JS.ceil_div (len8 input) CHUNK_LEN in
    tree
      (fun c =>
         let chunkStart := c * CHUNK_LEN in
         let chunkLen := Z.min CHUNK_LEN (len8 input - chunkStart) in
         block_loop (readBlock input) CHUNK_END chunkStart chunkLen c flags
           keyWords)
      (fun left right =>
         let block := parent_block left right in
         (compress keyWords block 0 BLOCK_LEN (JS.or flags PARENT),
          [Call keyWords block 0 BLOCK_LEN (JS.or flags PARENT)]))
      (fun left right (isRoot : bool) =>
         let block := parent_block left right in
         let f := JS.or (JS.or flags PARENT) (if isRoot then ROOT else 0) in
         (compress keyWords block 0 BLOCK_LEN f,
          [Call keyWords block 0 BLOCK_LEN f]))
      false numChunks.

Definition keyedHash_run (key input : list byte) (outputLen : Z)
    : outcome (list byte) * list call :=
  if negb (len8 key =? 32) then (Throws KeyMustBe32Bytes, [])
  else finish (keyedHash_root (keyWords_of key) input) outputLen.

Definition keyedHash (key input : list byte) (outputLen : Z)
    : outcome (list byte) :=
  fst (keyedHash_run key input outputLen).

(** *** [deriveKey] *)

(** [contextBytes] is the UTF-8 encoding of the context string, as
    [new TextEncoder().encode(context)] gives it. *)

(** Step 1: Hash context *)
Definition deriveKey_contextCv (contextBytes : list byte)
    : list Z * list call :=
  block_loop (readBlock contextBytes) (JS.or CHUNK_END ROOT) 0
    (len8 contextBytes) 0 DERIVE_KEY_CONTEXT IV.

Definition deriveKey_run (contextBytes keyMaterial : list byte)
    (outputLen : Z) : outcome (list byte) * list call :=
  let '(contextCv, calls1) := deriveKey_contextCv contextBytes in
  (* Step 2: Hash key material with context CV as key *)
  let '(materialCv, calls2) :=
    block_loop (readBlock keyMaterial) (JS.or CHUNK_END ROOT) 0
      (len8 keyMaterial) 0 DERIVE_KEY_MATERIAL contextCv in
  (cvToBytes materialCv outputLen, calls1 ++ calls2).

Definition deriveKey (contextBytes keyMaterial : list byte) (outputLen : Z)
    : outcome (list byte) :=
  fst (deriveKey_run contextBytes keyMaterial outputLen).

(** ** [hashWasmSimd], the batched path *)

(** [compressJS] repeats the text of [compress] statement for statement. *)
Definition compressJS : list Z -> list Z -> Z -> Z -> Z -> list Z := compress.

Definition IV_U32 : list Z := IV.

Section WasmSimd.

(** [compress4x !== null]: whether [initWasmSimd] has installed the WASM
  export. *)
Variable compress4x : bool.
Variable input : list byte.

Let flags : Z := 0.
Let numChunks : Z := JS.ceil_div (len8 input) CHUNK_LEN.

(** The chunk loops of this function read with [readBlock] and compress
  with [compressJS]. *)
Definition simd_chunk (chunkStart chunkCounter : Z) : list Z * list call :=
let chunkLen := Z.min CHUNK_LEN (len8 input - chunkStart) in
block_loop (readBlock input) CHUNK_END chunkStart chunkLen chunkCounter
  flags IV.

Definition simd_merge_eager (left right : list Z) : list Z * list call :=
let block := parent_block left right in
(compressJS IV_U32 block 0 BLOCK_LEN (JS.or flags PARENT),
 [Call IV_U32 block 0 BLOCK_LEN (JS.or flags PARENT)]).

Definition simd_merge_final (left right : list Z) (isRoot : bool)
  : list Z * list call :=
let block := parent_block left right in
let f := JS.or (JS.or flags PARENT) (if isRoot then ROOT else 0) in
(compressJS IV_U32 block 0 BLOCK_LEN f, [Call IV_U32 block 0 BLOCK_LEN f]).

(** [while (offset < input.length)], on the state
  [(offset, chunkCounter, cvStack, calls)]. *)
Definition simd_cond (st : Z * Z * list (list Z) * list call) : bool :=
let '(offset, _, _, _) := st in offset <? len8 input.

Definition simd_body (st : Z * Z * list (list Z) * list call)
  : Z * Z * list (list Z) * list call :=
let '(offset, chunkCounter, cvStack, calls) := st in
let chunksAvailable :=
  Z.min 4 (JS.ceil_div (len8 input - offset) CHUNK_LEN) in
if (4 <=? chunksAvailable) && compress4x then
  (* Process 4 chunks *)
  let '(cv0, made0) := simd_chunk (offset + 0 * CHUNK_LEN) (chunkCounter + 0) in
  let '(cv1, made1) := simd_chunk (offset + 1 * CHUNK_LEN) (chunkCounter + 1) in
  let '(cv2, made2) := simd_chunk (offset + 2 * CHUNK_LEN) (chunkCounter + 2) in
  let '(cv3, made3) := simd_chunk (offset + 3 * CHUNK_LEN) (chunkCounter + 3) in
  let calls := calls ++ made0 ++ made1 ++ made2 ++ made3 in
  (* Push CVs to stack *)
  let '(cvStack, calls) :=
    push_chunk simd_merge_eager true numChunks (chunkCounter + 0) cv0
      cvStack calls in
  let '(cvStack, calls) :=
    push_chunk simd_merge_eager true numChunks (chunkCounter + 1) cv1
      cvStack calls in
  let '(cvStack, calls) :=
    push_chunk simd_merge_eager true numChunks (chunkCounter + 2) cv2
      cvStack calls in
  let '(cvStack, calls) :=
    push_chunk simd_merge_eager true numChunks (chunkCounter + 3) cv3
      cvStack calls in
  (offset + 4 * CHUNK_LEN, chunkCounter + 4, cvStack, calls)
else
  (* Process remaining chunks one at a time *)
  let '(cv, made) := simd_chunk offset chunkCounter in
  let '(cvStack, calls) :=
    push_chunk simd_merge_eager true numChunks chunkCounter cv cvStack
      (calls ++ made) in
  (offset + CHUNK_LEN, chunkCounter + 1, cvStack, calls).

Definition hashWasmSimd_root : option (list Z) * list call :=
if (len8 input <=? CHUNK_LEN) || negb compress4x then
  let '(cv, calls) :=
    block_loop (readBlock input) (JS.or CHUNK_END ROOT) 0 (len8 input) 0
      flags IV in
  (Some cv, calls)
else
  let '(_, _, cvStack, calls) :=
    JS.while (Z.to_nat numChunks) simd_cond simd_body (0, 0, [], []) in
  let '(cvStack, calls) :=
    final_merges simd_merge_final (cvStack, calls) in
  (bottom cvStack, calls).

Definition hashWasmSimd_run (outputLen : Z)
  : outcome (list byte) * list call :=
finish hashWasmSimd_root outputLen.

Definition hashWasmSimd (outputLen : Z) : outcome (list byte) :=
fst (hashWasmSimd_run outputLen).

End WasmSimd.


(** * Properties *)

(** ** Loops *)

Section While.

Context {S : Type}.
Variable cond : S -> bool.
Variable body : S -> S.

Lemma while_ind (P : S -> Prop) :
(forall s, P s -> cond s = true -> P (body s)) ->
forall fuel s, P s -> P (JS.while fuel cond body s).
Proof.
intros Hstep fuel; induction fuel as [|fuel IH]; intros s Hs; simpl.
- exact Hs.
- destruct (cond s) eqn:Hc; [apply IH, Hstep; assumption | exact Hs].
Qed.

(** Enough fuel: with a measure that decreases along the loop (on the
  states of an invariant), the loop stops because its condition fails. *)
Lemma while_exit (P : S -> Prop) (mu : S -> nat) :
(forall s, P s -> cond s = true -> P (body s) /\ (mu (body s) < mu s)%nat) ->
forall fuel s, P s -> (mu s <= fuel)%nat ->
cond (JS.while fuel cond body s) = false.
Proof.
intros Hstep fuel; induction fuel as [|fuel IH]; intros s Hs Hmu; simpl.
- destruct (cond s) eqn:Hc; [|reflexivity].
  destruct (Hstep s Hs Hc) as [_ Hlt]. lia.
- destruct (cond s) eqn:Hc; [|exact Hc].
  destruct (Hstep s Hs Hc) as [Hb Hlt]. apply IH; [exact Hb | lia].
Qed.

Lemma while_false fuel s : cond s = false -> JS.while fuel cond body s = s.
Proof. intros H; destruct fuel; simpl; [|rewrite H]; reflexivity. Qed.

Lemma while_step fuel s :
cond s = true ->
JS.while (Datatypes.S fuel) cond body s = JS.while fuel cond body (body s).
Proof. simpl; intros ->; reflexivity. Qed.

(** Running [a + b] iterations is running [a], then [b]. *)
Lemma while_add a b s :
JS.while (a + b) cond body s = JS.while b cond body (JS.while a cond body s).
Proof.
revert s; induction a as [|a IH]; intros s; simpl; [reflexivity|].
destruct (cond s) eqn:Hc; [apply IH|].
symmetry; apply while_false; exact Hc.
Qed.

End While.

(** Two loops that agree on the states of an invariant of the first. *)
Lemma while_ext {S : Type} (P : S -> Prop) (cond cond' : S -> bool)
    (body body' : S -> S) :
  (forall s, P s -> cond s = cond' s) ->
  (forall s, P s -> cond s = true -> body s = body' s /\ P (body s)) ->
  forall fuel s, P s ->
  JS.while fuel cond body s = JS.while fuel cond' body' s.
Proof.
  intros Hc Hb fuel; induction fuel as [|fuel IH]; intros s Hs; simpl.
  - reflexivity.
  - pose proof (Hc s Hs) as Hcs. destruct (cond s) eqn:E; rewrite <- Hcs.
    + destruct (Hb s Hs E) as [Heq HP]. rewrite <- Heq. apply IH, HP.
    + reflexivity.
Qed.

(** ** Arithmetic of the 32-bit conversions *)

Lemma ToUint32_mod x : JS.ToUint32 x = x mod 2 ^ 32.
Proof. unfold JS.ToUint32. change 4294967295 with (Z.ones 32). apply Z.land_ones. lia. Qed.

Lemma ToUint32_range x : 0 <= JS.ToUint32 x < 2 ^ 32.
Proof. rewrite ToUint32_mod. apply Z.mod_pos_bound. lia. Qed.

Lemma ToUint32_small x : 0 <= x < 2 ^ 32 -> JS.ToUint32 x = x.
Proof. intros H. rewrite ToUint32_mod. apply Z.mod_small, H. Qed.

Lemma ToInt32_range x : - 2 ^ 31 <= JS.ToInt32 x < 2 ^ 31.
Proof.
  unfold JS.ToInt32. pose proof (ToUint32_range x) as H.
  destruct (JS.ToUint32 x <? 2147483648) eqn:E; [apply Z.ltb_lt in E | apply Z.ltb_ge in E]; lia.
Qed.

Lemma ToInt32_small x : - 2 ^ 31 <= x < 2 ^ 31 -> JS.ToInt32 x = x.
Proof.
  intros H. unfold JS.ToInt32. rewrite ToUint32_mod.
  destruct (Z_lt_le_dec x 0) as [Hn|Hp].
  - replace (x mod 2 ^ 32) with (x + 2 ^ 32).
    + destruct (x + 2 ^ 32 <? 2147483648) eqn:E; [apply Z.ltb_lt in E|]; lia.
    + apply Z.mod_unique with (q := -1); lia.
  - rewrite Z.mod_small by lia.
    destruct (x <? 2147483648) eqn:E; [|apply Z.ltb_ge in E]; lia.
Qed.

(** [ToInt32 x] and [x] have the same low 32 bits. *)
Lemma ToUint32_ToInt32 x : JS.ToUint32 (JS.ToInt32 x) = JS.ToUint32 x.
Proof.
  unfold JS.ToInt32.
  destruct (JS.ToUint32 x <? 2147483648).
  - apply ToUint32_small, ToUint32_range.
  - rewrite !ToUint32_mod.
    change 4294967296 with (1 * 2 ^ 32).
    rewrite <- (Z.add_opp_r _ (1 * 2 ^ 32)), <- Z.mul_opp_l, Z.mod_add by lia.
    apply Z.mod_mod. lia.
Qed.

Lemma ToInt32_idem x : JS.ToInt32 (JS.ToInt32 x) = JS.ToInt32 x.
Proof. apply ToInt32_small, ToInt32_range. Qed.

Lemma or_0 x : JS.or x 0 = JS.ToInt32 x.
Proof. unfold JS.or. change (JS.ToInt32 0) with 0. apply Z.lor_0_r. Qed.


(** ** The digest extractor *)

Lemma length_upd8 l n v : length (upd8 l n v) = length l.
Proof.
  revert n; induction l as [|h t IH]; intros [|n]; simpl; auto.
Qed.

Lemma nth_upd8 l n v j d :
  nth j (upd8 l n v) d =
  if (j =? n)%nat && (n <? length l)%nat then v else nth j l d.
Proof.
  revert n j; induction l as [|h t IH]; intros n j.
  - destruct n; simpl; rewrite andb_false_r; reflexivity.
  - destruct n as [|n], j as [|j]; simpl; try reflexivity.
    rewrite IH. reflexivity.
Qed.

(** Byte [k] of a CV word, as [cvToBytes] extracts it. *)
Definition word_byte (word k : Z) : byte :=
  Z_to_byte
    (match k with
     | 0 => JS.and word 0xff
     | 1 => JS.and (JS.sar word 8) 0xff
     | 2 => JS.and (JS.sar word 16) 0xff
     | _ => JS.and (JS.sar word 24) 0xff
     end).

(** Byte [j] of the output: a byte of the CV below 32, zero from there on. *)
Definition out_byte (cv : list Z) (j : Z) : byte :=
  if j <? 32 then word_byte (JS.get cv (j / 4)) (j mod 4) else Byte.x00.

Definition digest_bytes (cv : list Z) (n : nat) : list byte :=
  map (fun j => out_byte cv (Z.of_nat j)) (seq 0 n).

Lemma nth_cond_set8 result base bound v j :
  0 <= base -> length result = Z.to_nat bound ->
  nth j (if base <? bound then set8 result base v else result) Byte.x00 =
  if (Z.of_nat j =? base) && (base <? bound) then Z_to_byte v
  else nth j result Byte.x00.
Proof.
  intros Hb Hlen. destruct (base <? bound) eqn:E.
  - unfold set8. destruct (base <? 0) eqn:E0; [apply Z.ltb_lt in E0; lia|].
    rewrite nth_upd8. apply Z.ltb_lt in E.
    replace (Z.to_nat base <? length result)%nat with true
      by (symmetry; apply Nat.ltb_lt; lia).
    destruct (Z.of_nat j =? base) eqn:Ej.
    + apply Z.eqb_eq in Ej. replace (j =? Z.to_nat base)%nat with true
        by (symmetry; apply Nat.eqb_eq; lia). reflexivity.
    + apply Z.eqb_neq in Ej. replace (j =? Z.to_nat base)%nat with false
        by (symmetry; apply Nat.eqb_neq; lia). reflexivity.
  - rewrite andb_false_r. reflexivity.
Qed.

Lemma length_cond_set8 result base bound v :
  length (if base <? bound then set8 result base v else result) = length result.
Proof.
  destruct (base <? bound); [|reflexivity].
  unfold set8. destruct (base <? 0); [reflexivity | apply length_upd8].
Qed.

Lemma out_byte_at cv i k :
  0 <= i < 8 -> 0 <= k < 4 ->
  out_byte cv (4 * i + k) = word_byte (JS.get cv i) k.
Proof.
  intros Hi Hk. unfold out_byte.
  replace (4 * i + k <? 32) with true by (symmetry; apply Z.ltb_lt; lia).
  replace ((4 * i + k) / 4) with i by (Z.div_mod_to_equations; lia).
  replace ((4 * i + k) mod 4) with k by (Z.div_mod_to_equations; lia).
  reflexivity.
Qed.

Lemma ceil_div_4_bound i outputLen :
  0 <= i -> i < JS.ceil_div outputLen 4 -> 4 * i < outputLen.
Proof. unfold JS.ceil_div. intros Hi H. Z.div_mod_to_equations. lia. Qed.

(** Invariant of the loop of [cvToBytes]: the first [4 i] positions (as far
    as the buffer goes) hold their CV bytes, the others are still zero. *)
Definition cvToBytes_inv (cv : list Z) (outputLen : Z) (st : Z * list byte)
    : Prop :=
  let '(i, result) := st in
  0 <= i <= Z.min 8 (JS.ceil_div outputLen 4) /\
  length result = Z.to_nat outputLen /\
  forall j : nat,
    nth j result Byte.x00 =
    if Z.of_nat j <? Z.min (4 * i) outputLen then out_byte cv (Z.of_nat j)
    else Byte.x00.

Lemma cvToBytes_step cv outputLen st :
  cvToBytes_inv cv outputLen st -> cvToBytes_cond outputLen st = true ->
  cvToBytes_inv cv outputLen (cvToBytes_body cv outputLen st).
Proof.
  destruct st as [i result]. unfold cvToBytes_inv, cvToBytes_cond, cvToBytes_body.
  intros (Hi & Hlen & Hnth) Hc. apply Z.ltb_lt in Hc.
  assert (Hi8 : 0 <= i < 8) by lia.
  assert (HiL : 4 * i < outputLen) by (apply ceil_div_4_bound; lia).
  split; [lia|]. split; [rewrite !length_cond_set8; exact Hlen|].
  intros j.
  rewrite nth_cond_set8 by (rewrite ?length_cond_set8; lia).
  rewrite nth_cond_set8 by (rewrite ?length_cond_set8; lia).
  rewrite nth_cond_set8 by (rewrite ?length_cond_set8; lia).
  rewrite nth_cond_set8 by (rewrite ?length_cond_set8; lia).
  rewrite Hnth.
  pose proof (out_byte_at cv i 0 Hi8 ltac:(lia)) as B0.
  pose proof (out_byte_at cv i 1 Hi8 ltac:(lia)) as B1.
  pose proof (out_byte_at cv i 2 Hi8 ltac:(lia)) as B2.
  pose proof (out_byte_at cv i 3 Hi8 ltac:(lia)) as B3.
  rewrite Z.add_0_r in B0. unfold word_byte in B0, B1, B2, B3.
  replace (i * 4) with (4 * i) by lia.
  replace (4 * (i + 1)) with (4 * i + 4) by lia.
  remember (4 * i) as b eqn:Hb.
  repeat match goal with
         | |- context [?a =? ?c] => destruct (Z.eqb_spec a c); cbn [andb]
         | |- context [?a <? ?c] => destruct (Z.ltb_spec a c); cbn [andb]
         end;
    try lia; try reflexivity;
    match goal with
    | e : Z.of_nat j = _ |- _ => rewrite e; congruence
    end.
Qed.

(** What [cvToBytes] returns: [outputLen] bytes, those of the CV followed by
    zeros; a negative length makes [new Uint8Array] throw. *)
Lemma cvToBytes_spec cv outputLen :
  cvToBytes cv outputLen =
  if outputLen <? 0 then Throws RangeError
  else Returns (digest_bytes cv (Z.to_nat outputLen)).
Proof.
  unfold cvToBytes. destruct (outputLen <? 0) eqn:E0; [reflexivity|].
  apply Z.ltb_ge in E0.
  set (init := (0, repeat Byte.x00 (Z.to_nat outputLen))).
  assert (Hinit : cvToBytes_inv cv outputLen init).
  { unfold init, cvToBytes_inv. split; [unfold JS.ceil_div; Z.div_mod_to_equations; lia|].
    split; [apply repeat_length|]. intros j.
    replace (Z.of_nat j <? Z.min (4 * 0) outputLen) with false
      by (symmetry; apply Z.ltb_ge; lia).
    apply nth_repeat. }
  pose proof (while_ind (cvToBytes_cond outputLen) (cvToBytes_body cv outputLen)
                (cvToBytes_inv cv outputLen) (cvToBytes_step cv outputLen) 8 init Hinit)
    as Hfin.
  assert (Hexit : cvToBytes_cond outputLen
                    (JS.while 8 (cvToBytes_cond outputLen)
                       (cvToBytes_body cv outputLen) init) = false).
  { apply (while_exit _ _ (cvToBytes_inv cv outputLen)
             (fun st => Z.to_nat (Z.min 8 (JS.ceil_div outputLen 4) - fst st))).
    - intros [i r] Hinv Hc. split; [apply cvToBytes_step; assumption|].
      unfold cvToBytes_cond in Hc. apply Z.ltb_lt in Hc. simpl. lia.
    - exact Hinit.
    - unfold init; simpl. lia. }
  destruct (JS.while 8 _ _ init) as [i result].
  unfold cvToBytes_inv in Hfin. destruct Hfin as (Hi & Hlen & Hnth).
  unfold cvToBytes_cond in Hexit. apply Z.ltb_ge in Hexit.
  f_equal. unfold digest_bytes.
  apply nth_ext with (d := Byte.x00) (d' := Byte.x00).
  - rewrite length_map, length_seq. exact Hlen.
  - intros j Hj. rewrite Hnth.
    rewrite nth_indep with (d' := out_byte cv (Z.of_nat 0))
      by (rewrite length_map, length_seq; lia).
    rewrite (map_nth (fun j => out_byte cv (Z.of_nat j))).
    rewrite seq_nth by lia. simpl Nat.add.
    destruct (Z.ltb_spec (Z.of_nat j) (Z.min (4 * i) outputLen)); [reflexivity|].
    unfold out_byte.
    assert (i = Z.min 8 (JS.ceil_div outputLen 4)) by lia.
    replace (Z.of_nat j <? 32) with false; [reflexivity|].
    symmetry; apply Z.ltb_ge. unfold JS.ceil_div in *.
    Z.div_mod_to_equations. lia.
Qed.


(** ** The tree loops end with a root *)

Section TreeRoot.

Variable chunk : Z -> list Z * list call.
Variable merge_eager : list Z -> list Z -> list Z * list call.
Variable merge_final : list Z -> list Z -> bool -> list Z * list call.
Variable guarded : bool.
Variable numChunks : Z.

Lemma eager_body_nonempty st :
snd (fst st) <> [] -> snd (fst (eager_body merge_eager st)) <> [].
Proof.
destruct st as [[t stack] calls]; simpl.
destruct stack as [|r [|l rest]]; simpl; auto.
destruct (merge_eager l r); simpl. discriminate.
Qed.

Lemma push_chunk_nonempty c cv stack calls :
fst (push_chunk merge_eager guarded numChunks c cv stack calls) <> [].
Proof.
unfold push_chunk.
destruct (guarded && (c =? numChunks - 1)); [simpl; discriminate|].
pose proof (while_ind eager_cond (eager_body merge_eager)
              (fun st => snd (fst st) <> [])
              (fun st H _ => eager_body_nonempty st H)
              (length (cv :: stack)) (c + 1, cv :: stack, calls)) as H.
destruct (JS.while _ _ _ _) as [[t stack'] calls']. simpl in *.
apply H. discriminate.
Qed.

Definition chunks_inv (st : Z * list (list Z) * list call) : Prop :=
let '(c, stack, _) := st in 0 <= c /\ (1 <= c -> stack <> []).

Lemma chunks_body_inv st :
chunks_inv st ->
chunks_inv (chunks_body chunk merge_eager guarded numChunks st).
Proof.
destruct st as [[c stack] calls]. unfold chunks_inv, chunks_body.
intros [Hc _]. destruct (chunk c) as [cv made].
pose proof (push_chunk_nonempty c cv stack (calls ++ made)) as Hne.
destruct (push_chunk _ _ _ _ _ _ _) as [stack' calls'].
simpl in Hne. split; [lia | intros _; exact Hne].
Qed.

Lemma chunks_loop_exit :
0 <= numChunks ->
let '(c, stack, _) :=
  chunks_loop chunk merge_eager guarded numChunks (Z.to_nat numChunks) in
c = numChunks /\ (1 <= numChunks -> stack <> []).
Proof.
intros Hn. unfold chunks_loop.
set (P := fun st : Z * list (list Z) * list call =>
            chunks_inv st /\ fst (fst st) <= numChunks).
assert (Hstep : forall st, P st -> chunks_cond numChunks st = true ->
                  P (chunks_body chunk merge_eager guarded numChunks st)).
{ intros st [Hinv Hle] Hc. split; [apply chunks_body_inv, Hinv|].
  destruct st as [[c stack] calls]. unfold chunks_cond in Hc.
  apply Z.ltb_lt in Hc. unfold chunks_body.
  destruct (chunk c); destruct (push_chunk _ _ _ _ _ _ _). simpl. lia. }
assert (H0 : P (0, [], [])) by (unfold P, chunks_inv; simpl; lia).
pose proof (while_ind _ _ P Hstep (Z.to_nat numChunks) _ H0) as Hfin.
assert (Hexit : chunks_cond numChunks
                  (JS.while (Z.to_nat numChunks) (chunks_cond numChunks)
                     (chunks_body chunk merge_eager guarded numChunks)
                     (0, [], [])) = false).
{ apply (while_exit _ _ P (fun st => Z.to_nat (numChunks - fst (fst st)))).
  - intros st HP Hc. split; [apply Hstep; assumption|].
    destruct st as [[c stack] calls]. unfold chunks_cond in Hc.
    apply Z.ltb_lt in Hc. unfold chunks_body.
    destruct (chunk c); destruct (push_chunk _ _ _ _ _ _ _). simpl. lia.
  - exact H0.
  - simpl. lia. }
destruct (JS.while _ _ _ _) as [[c stack] calls].
destruct Hfin as [[Hc Hne] Hle]. simpl in Hle.
unfold chunks_cond in Hexit. apply Z.ltb_ge in Hexit.
split; [lia | intros H; apply Hne; lia].
Qed.

Lemma final_body_nonempty st :
fst st <> [] -> fst (final_body merge_final st) <> [].
Proof.
destruct st as [stack calls]; simpl.
destruct stack as [|r [|l rest]]; simpl; auto.
destruct (merge_final l r _); simpl. discriminate.
Qed.

Lemma final_merges_nonempty st :
fst st <> [] -> fst (final_merges merge_final st) <> [].
Proof.
intros H. unfold final_merges.
apply (while_ind final_cond (final_body merge_final)
         (fun st => fst st <> [])); [|exact H].
intros s Hs _. apply final_body_nonempty, Hs.
Qed.

(** The final merges stop with exactly one CV on the stack. *)
Lemma final_merges_single st :
fst st <> [] -> length (fst (final_merges merge_final st)) = 1%nat.
Proof.
intros H. pose proof (final_merges_nonempty st H) as Hne.
assert (Hexit : final_cond (final_merges merge_final st) = false).
{ unfold final_merges.
  apply (while_exit _ _ (fun _ => True) (fun st => length (fst st))); auto.
  intros [stack calls] _ Hc. split; [exact I|].
  unfold final_cond in Hc. apply Z.ltb_lt in Hc. simpl.
  destruct stack as [|r [|l rest]]; simpl in *; try lia.
  destruct (merge_final l r _); simpl. lia. }
destruct (final_merges merge_final st) as [stack calls].
unfold final_cond in Hexit. apply Z.ltb_ge in Hexit. simpl in *.
destruct stack as [|r [|l rest]]; simpl in *; try lia. congruence.
Qed.

Lemma bottom_nonempty stack : stack <> [] -> bottom stack <> None.
Proof.
intros H. unfold bottom. destruct (rev stack) eqn:E; [|discriminate].
apply (f_equal (@rev _)) in E. rewrite rev_involutive in E. contradiction.
Qed.

(** With at least one chunk, [cvStack[0]] is defined at the end. *)
Lemma tree_root_defined :
1 <= numChunks ->
fst (tree chunk merge_eager merge_final guarded numChunks) <> None.
Proof.
intros Hn. unfold tree.
pose proof (chunks_loop_exit ltac:(lia)) as Hloop.
destruct (chunks_loop _ _ _ _ _) as [[c stack] calls].
destruct Hloop as [_ Hne].
pose proof (final_merges_nonempty (stack, calls) (Hne Hn)) as Hfin.
destruct (final_merges _ _) as [stack' calls']. simpl in *.
apply bottom_nonempty, Hfin.
Qed.

End TreeRoot.

Lemma ceil_div_chunks n : CHUNK_LEN < n -> 2 <= JS.ceil_div n CHUNK_LEN.
Proof. unfold JS.ceil_div, CHUNK_LEN. intros H. Z.div_mod_to_equations. lia. Qed.

(** The root CV of a run of [hash], of [keyedHash] and of [deriveKey]. *)
Definition root_cv (run : option (list Z) * list call) : list Z :=
  match fst run with
  | Some cv => cv
  | None => []
  end.

Lemma finish_defined run outputLen :
  fst run <> None -> fst (finish run outputLen) = cvToBytes (root_cv run) outputLen.
Proof.
  destruct run as [[cv|] calls]; simpl; [reflexivity | congruence].
Qed.

Lemma hash_root_defined le bo flags input :
  fst (hash_root le bo flags input) <> None.
Proof.
  unfold hash_root. destruct (len8 input <=? CHUNK_LEN) eqn:E.
  - destruct (block_loop _ _ _ _ _ _ _); simpl. discriminate.
  - apply Z.leb_gt in E. apply tree_root_defined.
    pose proof (ceil_div_chunks _ E). lia.
Qed.

Lemma keyedHash_root_defined keyWords input :
  fst (keyedHash_root keyWords input) <> None.
Proof.
  unfold keyedHash_root. destruct (len8 input <=? CHUNK_LEN) eqn:E.
  - destruct (block_loop _ _ _ _ _ _ _); simpl. discriminate.
  - apply Z.leb_gt in E. apply tree_root_defined.
    pose proof (ceil_div_chunks _ E). lia.
Qed.

(** [hash] is [cvToBytes] of the root CV of the run. *)
Lemma hash_cvToBytes le bo input outputLen :
  hash le bo input outputLen =
  cvToBytes (root_cv (hash_root le bo 0 input)) outputLen.
Proof. apply finish_defined, hash_root_defined. Qed.

Lemma keyedHash_cvToBytes key input outputLen :
  len8 key = 32 ->
  keyedHash key input outputLen =
  cvToBytes (root_cv (keyedHash_root (keyWords_of key) input)) outputLen.
Proof.
  intros Hk. unfold keyedHash, keyedHash_run. rewrite Hk. simpl negb. cbv iota.
  apply finish_defined, keyedHash_root_defined.
Qed.

Definition deriveKey_cv (contextBytes keyMaterial : list byte) : list Z :=
  fst (block_loop (readBlock keyMaterial) (JS.or CHUNK_END ROOT) 0
         (len8 keyMaterial) 0 DERIVE_KEY_MATERIAL
         (fst (deriveKey_contextCv contextBytes))).

Lemma deriveKey_cvToBytes contextBytes keyMaterial outputLen :
  deriveKey contextBytes keyMaterial outputLen =
  cvToBytes (deriveKey_cv contextBytes keyMaterial) outputLen.
Proof.
  unfold deriveKey, deriveKey_run, deriveKey_cv.
  destruct (deriveKey_contextCv contextBytes) as [ccv calls1]. simpl fst.
  destruct (block_loop _ _ _ _ _ _ ccv) as [mcv calls2]. reflexivity.
Qed.

Lemma length_digest_bytes cv n : length (digest_bytes cv n) = n.
Proof. unfold digest_bytes. rewrite length_map, length_seq. reflexivity. Qed.

Lemma digest_bytes_firstn cv n m :
  (n <= m)%nat -> firstn n (digest_bytes cv m) = digest_bytes cv n.
Proof.
  intros H. unfold digest_bytes. rewrite firstn_map. f_equal.
  revert m H. generalize 0%nat as s. revert n.
  induction n as [|n IH]; intros s m H; [reflexivity|].
  destruct m as [|m]; [lia|]. simpl. f_equal. apply IH. lia.
Qed.

Lemma digest_bytes_split cv n :
  (32 <= n)%nat ->
  digest_bytes cv n = digest_bytes cv 32 ++ repeat Byte.x00 (n - 32).
Proof.
  intros H. unfold digest_bytes.
  replace n with (32 + (n - 32))%nat at 1 by lia.
  rewrite seq_app, map_app. f_equal.
  generalize (n - 32)%nat as k. simpl Nat.add.
  assert (G : forall k s, (32 <= s)%nat ->
            map (fun j => out_byte cv (Z.of_nat j)) (seq s k) = repeat Byte.x00 k).
  { induction k as [|k IH]; intros s Hs; simpl; [reflexivity|].
    rewrite IH by lia. f_equal. unfold out_byte.
    replace (Z.of_nat s <? 32) with false; [reflexivity|].
    symmetry; apply Z.ltb_ge; lia. }
  intros k. apply G. lia.
Qed.

Lemma nth_error_digest_bytes cv n j :
  (j < n)%nat -> nth_error (digest_bytes cv n) j = Some (out_byte cv (Z.of_nat j)).
Proof.
  intros H. unfold digest_bytes.
  rewrite nth_error_map, nth_error_seq.
  replace (j <? n)%nat with true by (symmetry; apply Nat.ltb_lt; exact H).
  reflexivity.
Qed.

(** For a length that is not negative, [cvToBytes] returns that many bytes. *)
Lemma cvToBytes_returns cv outputLen :
  0 <= outputLen ->
  cvToBytes cv outputLen = Returns (digest_bytes cv (Z.to_nat outputLen)).
Proof.
  intros H. rewrite cvToBytes_spec.
  replace (outputLen <? 0) with false by (symmetry; apply Z.ltb_ge; exact H).
  reflexivity.
Qed.

Lemma cvToBytes_padded cv outputLen :
  32 <= outputLen ->
  exists d, cvToBytes cv 32 = Returns d /\ length d = 32%nat /\
            cvToBytes cv outputLen =
            Returns (d ++ repeat Byte.x00 (Z.to_nat (outputLen - 32))).
Proof.
  intros H. exists (digest_bytes cv 32).
  rewrite !cvToBytes_returns by lia. split; [reflexivity|].
  split; [apply length_digest_bytes|]. f_equal.
  rewrite (digest_bytes_split cv (Z.to_nat outputLen)) by lia.
  f_equal. f_equal. lia.
Qed.


(** * The compression function against its specification (claim C2) *)

(** ** The reference compression, as the specification words it *)

Module Ref.

(** A word is an unsigned 32-bit integer; all arithmetic is modulo 2^32. *)
Definition word (x : Z) : Prop := 0 <= x < 2 ^ 32.

Definition add32 (a b : Z) : Z := (a + b) mod 2 ^ 32.

(** [rotr(x, n) = (x >>> n) | (x << (32 - n))], with unsigned shifts. *)
Definition rotr (x n : Z) : Z :=
Z.lor (Z.shiftr x n) (Z.shiftl x (32 - n)) mod 2 ^ 32.

(** The G function. *)
Definition G (a b c d mx my : Z) : Z * Z * Z * Z :=
let a := add32 (add32 a b) mx in
let d := rotr (Z.lxor d a) 16 in
let c := add32 c d in
let b := rotr (Z.lxor b c) 12 in
let a := add32 (add32 a b) my in
let d := rotr (Z.lxor d a) 8 in
let c := add32 c d in
let b := rotr (Z.lxor b c) 7 in
(a, b, c, d).

(** The block state [s0 .. s15] is a list of sixteen words; [G] applied to
  four of them replaces them. *)
Fixpoint put (s : list Z) (i : nat) (v : Z) : list Z :=
match s, i with
| [], _ => []
| _ :: t, O => v :: t
| h :: t, S k => h :: put t k v
end.

Definition G_at (s : list Z) (a b c d : nat) (mx my : Z) : list Z :=
let '(va, vb, vc, vd) :=
  G (nth a s 0) (nth b s 0) (nth c s 0) (nth d s 0) mx my in
put (put (put (put s a va) b vb) c vc) d vd.

(** The message permutation, and the permutation applied [r] times to the
  identity. *)
Definition sigma : list nat := [2; 6; 3; 10; 7; 0; 4; 13; 1; 11; 12; 5; 9; 14; 15; 8]%nat.

Fixpoint sigma_r (r : nat) : list nat :=
match r with
| O => seq 0 16
| S r' => let p := sigma_r r' in map (fun k => nth k p 0%nat) sigma
end.

(** [m[sigma_r(k)]] *)
Definition msg (m : list Z) (r k : nat) : Z := nth (nth k (sigma_r r) 0%nat) m 0.

(** Round [r]: the column round, then the diagonal round. *)
Definition round (s m : list Z) (r : nat) : list Z :=
let s := G_at s 0 4 8 12 (msg m r 0) (msg m r 1) in
let s := G_at s 1 5 9 13 (msg m r 2) (msg m r 3) in
let s := G_at s 2 6 10 14 (msg m r 4) (msg m r 5) in
let s := G_at s 3 7 11 15 (msg m r 6) (msg m r 7) in
let s := G_at s 0 5 10 15 (msg m r 8) (msg m r 9) in
let s := G_at s 1 6 11 12 (msg m r 10) (msg m r 11) in
let s := G_at s 2 7 8 13 (msg m r 12) (msg m r 13) in
let s := G_at s 3 4 9 14 (msg m r 14) (msg m r 15) in
s.

(** [n] rounds from round [r] on, each one a step of the state. *)
Fixpoint iterate (step : list Z -> nat -> list Z) (n r : nat) (s : list Z)
  : list Z :=
match n with
| O => s
| S n' => iterate step n' (S r) (step s r)
end.

Definition rounds (n r : nat) (s m : list Z) : list Z :=
iterate (fun s r => round s m r) n r s.

(** Initial state, seven rounds, and the eight words [s_i xor s_{i+8}]. *)
Definition compress (cv m : list Z) (counter block_len flags : Z) : list Z :=
let counter_lo := counter mod 2 ^ 32 in
let counter_hi := counter / 2 ^ 32 in
let s :=
  [nth 0 cv 0; nth 1 cv 0; nth 2 cv 0; nth 3 cv 0;
   nth 4 cv 0; nth 5 cv 0; nth 6 cv 0; nth 7 cv 0;
   nth 0 IV 0; nth 1 IV 0; nth 2 IV 0; nth 3 IV 0;
   counter_lo; counter_hi; block_len; flags] in
let s := rounds 7 0 s m in
map (fun i => Z.lxor (nth i s 0) (nth (i + 8) s 0)) (seq 0 8).

End Ref.

(** ** The statements of the source against the operations of the reference *)

Lemma ToUint32_land x : JS.ToUint32 x = Z.land x (Z.ones 32).
Proof. reflexivity. Qed.

Lemma ToInt32_mod x : JS.ToInt32 x mod 2 ^ 32 = x mod 2 ^ 32.
Proof. rewrite <- !ToUint32_mod. apply ToUint32_ToInt32. Qed.

Lemma js_add2 a b :
  JS.ToUint32 (JS.or (a + b) 0) = Ref.add32 (JS.ToUint32 a) (JS.ToUint32 b).
Proof.
  rewrite or_0, ToUint32_ToInt32. unfold Ref.add32. rewrite !ToUint32_mod.
  apply Z.add_mod. lia.
Qed.

Lemma js_add3 a b c :
  JS.ToUint32 (JS.or (JS.or (a + b) 0 + c) 0) =
  Ref.add32 (Ref.add32 (JS.ToUint32 a) (JS.ToUint32 b)) (JS.ToUint32 c).
Proof.
  rewrite <- js_add2. rewrite or_0 at 1. rewrite ToUint32_ToInt32.
  unfold Ref.add32. rewrite !ToUint32_mod.
  rewrite Z.add_mod_idemp_l, Z.add_mod_idemp_r by lia. reflexivity.
Qed.

Lemma land_lxor_distr a b c :
  Z.land (Z.lxor a b) c = Z.lxor (Z.land a c) (Z.land b c).
Proof.
  apply Z.bits_inj'. intros n _.
  rewrite Z.lxor_spec, !Z.land_spec, Z.lxor_spec.
  destruct (Z.testbit a n), (Z.testbit b n), (Z.testbit c n); reflexivity.
Qed.

Lemma js_xor a b :
  JS.ToUint32 (JS.xor a b) = Z.lxor (JS.ToUint32 a) (JS.ToUint32 b).
Proof.
  unfold JS.xor. rewrite ToUint32_land, land_lxor_distr.
  rewrite <- !ToUint32_land, !ToUint32_ToInt32. reflexivity.
Qed.

Lemma ToUint32_shiftl x k :
  0 <= k -> JS.ToUint32 (Z.shiftl (JS.ToInt32 x) k) = JS.ToUint32 (Z.shiftl (JS.ToUint32 x) k).
Proof.
  intros Hk. rewrite !ToUint32_mod, !Z.shiftl_mul_pow2 by exact Hk.
  transitivity ((x * 2 ^ k) mod 2 ^ 32).
  - rewrite <- (Z.mul_mod_idemp_l (JS.ToInt32 x)) by lia.
    rewrite ToInt32_mod. apply Z.mul_mod_idemp_l. lia.
  - symmetry. apply Z.mul_mod_idemp_l. lia.
Qed.

Lemma js_rot x n k :
  0 < n < 32 -> k = 32 - n ->
  JS.ToUint32 (JS.or (JS.shr x n) (JS.shl x k)) = Ref.rotr (JS.ToUint32 x) n.
Proof.
  intros Hn ->. unfold JS.or, JS.shr, JS.shl, Ref.rotr.
  assert (Hn31 : Z.land n 31 = n).
  { change 31 with (Z.ones 5). rewrite Z.land_ones by lia.
    apply Z.mod_small. change (2 ^ 5) with 32. lia. }
  assert (Hk31 : Z.land (32 - n) 31 = 32 - n).
  { change 31 with (Z.ones 5). rewrite Z.land_ones by lia.
    apply Z.mod_small. change (2 ^ 5) with 32. lia. }
  rewrite Hn31, Hk31, ToInt32_idem.
  rewrite <- ToUint32_mod.
  rewrite !ToUint32_land, !Z.land_lor_distr_l, <- !ToUint32_land.
  rewrite !ToUint32_ToInt32. rewrite ToUint32_shiftl by lia. reflexivity.
Qed.

(** The four statements groups of one inlined G, as a function of the six
    values they read. *)
Definition jsG (a b c d mx my : Z) : Z * Z * Z * Z :=
  let a := JS.or (JS.or (a + b) 0 + mx) 0 in
  let d := JS.xor d a in
  let d := JS.or (JS.shr d 16) (JS.shl d 16) in
  let c := JS.or (c + d) 0 in
  let b := JS.xor b c in
  let b := JS.or (JS.shr b 12) (JS.shl b 20) in
  let a := JS.or (JS.or (a + b) 0 + my) 0 in
  let d := JS.xor d a in
  let d := JS.or (JS.shr d 8) (JS.shl d 24) in
  let c := JS.or (c + d) 0 in
  let b := JS.xor b c in
  let b := JS.or (JS.shr b 7) (JS.shl b 25) in
  (a, b, c, d).

Definition U4 (q : Z * Z * Z * Z) : Z * Z * Z * Z :=
  let '(a, b, c, d) := q in
  (JS.ToUint32 a, JS.ToUint32 b, JS.ToUint32 c, JS.ToUint32 d).

Lemma jsG_refines a b c d mx my :
  U4 (jsG a b c d mx my) =
  Ref.G (JS.ToUint32 a) (JS.ToUint32 b) (JS.ToUint32 c) (JS.ToUint32 d)
    (JS.ToUint32 mx) (JS.ToUint32 my).
Proof.
  unfold jsG, Ref.G, U4. cbv zeta.
  repeat first
    [ rewrite js_add3 | rewrite js_add2 | rewrite js_xor
    | rewrite (js_rot _ 16 16) by lia | rewrite (js_rot _ 12 20) by lia
    | rewrite (js_rot _ 8 24) by lia | rewrite (js_rot _ 7 25) by lia ].
  reflexivity.
Qed.

(** [mixing] is eight such groups, on the columns and then on the
    diagonals. *)
Definition mixing_G (s m : locals16) : locals16 :=
  let '(L16 s_0 s_1 s_2 s_3 s_4 s_5 s_6 s_7 s_8 s_9 s_10 s_11 s_12 s_13 s_14 s_15) := s in
  let '(L16 m_0 m_1 m_2 m_3 m_4 m_5 m_6 m_7 m_8 m_9 m_10 m_11 m_12 m_13 m_14 m_15) := m in
  let '(s_0, s_4, s_8, s_12) := jsG s_0 s_4 s_8 s_12 m_0 m_1 in
  let '(s_1, s_5, s_9, s_13) := jsG s_1 s_5 s_9 s_13 m_2 m_3 in
  let '(s_2, s_6, s_10, s_14) := jsG s_2 s_6 s_10 s_14 m_4 m_5 in
  let '(s_3, s_7, s_11, s_15) := jsG s_3 s_7 s_11 s_15 m_6 m_7 in
  let '(s_0, s_5, s_10, s_15) := jsG s_0 s_5 s_10 s_15 m_8 m_9 in
  let '(s_1, s_6, s_11, s_12) := jsG s_1 s_6 s_11 s_12 m_10 m_11 in
  let '(s_2, s_7, s_8, s_13) := jsG s_2 s_7 s_8 s_13 m_12 m_13 in
  let '(s_3, s_4, s_9, s_14) := jsG s_3 s_4 s_9 s_14 m_14 m_15 in
  L16 s_0 s_1 s_2 s_3 s_4 s_5 s_6 s_7 s_8 s_9 s_10 s_11 s_12 s_13 s_14 s_15.

Lemma mixing_is_mixing_G s m : mixing s m = mixing_G s m.
Proof. destruct s, m. reflexivity. Qed.

(** The sixteen locals as the words they stand for. *)
Definition U16 (v : locals16) : list Z :=
  let '(L16 w0 w1 w2 w3 w4 w5 w6 w7 w8 w9 w10 w11 w12 w13 w14 w15) := v in
  map JS.ToUint32 [w0; w1; w2; w3; w4; w5; w6; w7; w8; w9; w10; w11; w12; w13; w14; w15].

(** One inlined G of the source against one [G_at] of the reference. *)
Ltac g_step :=
  lazymatch goal with
  | |- context [Ref.G_at (?h :: ?t) ?a ?b ?c ?d ?x ?y] =>
      let e := eval cbv [Ref.G_at nth] in (Ref.G_at (h :: t) a b c d x y) in
      change (Ref.G_at (h :: t) a b c d x y) with e
  end;
  lazymatch goal with
  | |- context [jsG ?a ?b ?c ?d ?x ?y] =>
      let H := fresh "HG" in
      pose proof (jsG_refines a b c d x y) as H;
      destruct (jsG a b c d x y) as [[[? ?] ?] ?];
      cbv [U4] in H; rewrite <- H; cbv [Ref.put]; clear H
  end.

Lemma mixing_refines s m ms r :
  map (Ref.msg ms r) (seq 0 16) = U16 m ->
  U16 (mixing s m) = Ref.round (U16 s) ms r.
Proof.
  intros Hm. rewrite mixing_is_mixing_G. destruct s, m.
  cbv [U16 map seq] in Hm.
  injection Hm as E0 E1 E2 E3 E4 E5 E6 E7 E8 E9 E10 E11 E12 E13 E14 E15.
  unfold Ref.round, mixing_G. cbv [U16 map].
  rewrite E0, E1, E2, E3, E4, E5, E6, E7, E8, E9, E10, E11, E12, E13, E14, E15.
  do 8 g_step. reflexivity.
Qed.

(** The in-place permutation of the message locals is [sigma]. *)
Lemma permute_refines m :
  U16 (permute m) = map (fun k => nth k (U16 m) 0) Ref.sigma.
Proof. destruct m. reflexivity. Qed.

Lemma msg_round ms r m :
  (r <= 6)%nat ->
  U16 m = map (fun k => nth k ms 0) (seq 0 16) ->
  map (Ref.msg ms r) (seq 0 16) = U16 (Nat.iter r permute m).
Proof.
  intros Hr Hm.
  assert (E : map (Ref.msg ms r) (seq 0 16) =
              map (fun k => nth k ms 0)
                (map (fun k => nth k (Ref.sigma_r r) 0%nat) (seq 0 16)))
    by (rewrite map_map; reflexivity).
  rewrite E; clear E. revert Hm. generalize (fun k : nat => nth k ms 0) as f.
  intros f Hm. destruct m. cbv [U16 map seq] in Hm.
  injection Hm as H0 H1 H2 H3 H4 H5 H6 H7 H8 H9 H10 H11 H12 H13 H14 H15.
  do 7 (destruct r as [|r];
        [match goal with
         | |- map f ?l = _ => let v := eval vm_compute in l in change l with v
         end;
         cbv [map Nat.iter nat_rect permute U16];
         rewrite <- H0, <- H1, <- H2, <- H3, <- H4, <- H5, <- H6, <- H7,
           <- H8, <- H9, <- H10, <- H11, <- H12, <- H13, <- H14, <- H15;
         reflexivity|]).
  lia.
Qed.

(** The seven iterations of the loop of [compress], unrolled: iteration [r]
    mixes with the message locals permuted [r] times. *)
Fixpoint js_iterate (step : locals16 -> nat -> locals16) (n r : nat)
    (s : locals16) : locals16 :=
  match n with
  | O => s
  | S n' => js_iterate step n' (S r) (step s r)
  end.

Definition js_rounds (n r : nat) (s m : locals16) : locals16 :=
  js_iterate (fun s r => mixing s (Nat.iter r permute m)) n r s.

Lemma compress_loop s m :
  JS.while 7 round_cond round_body (0, s, m) =
  (7, js_rounds 7 0 s m, Nat.iter 6 permute m).
Proof. reflexivity. Qed.

Lemma iterate_S step n r s :
  Ref.iterate step (S n) r s = Ref.iterate step n (S r) (step s r).
Proof. reflexivity. Qed.

Lemma js_iterate_S step n r s :
  js_iterate step (S n) r s = js_iterate step n (S r) (step s r).
Proof. reflexivity. Qed.

Lemma js_rounds_refines ms m :
  U16 m = map (fun k => nth k ms 0) (seq 0 16) ->
  forall n r s, (r + n <= 7)%nat ->
  U16 (js_rounds n r s m) = Ref.rounds n r (U16 s) ms.
Proof.
  intros Hm. unfold js_rounds, Ref.rounds.
  induction n as [|n IH]; intros r s Hr; [reflexivity|].
  rewrite js_iterate_S, iterate_S, IH by lia.
  rewrite (mixing_refines s (Nat.iter r permute m) ms r); [reflexivity|].
  apply msg_round; [lia | exact Hm].
Qed.

Lemma word_nth l k : Forall Ref.word l -> Ref.word (nth k l 0).
Proof.
  intros H. destruct (Nat.lt_ge_cases k (length l)) as [Hk|Hk].
  - apply (proj1 (Forall_forall _ _) H), nth_In, Hk.
  - rewrite nth_overflow by exact Hk. unfold Ref.word. lia.
Qed.

(** Loading a word of a typed array into a local ([x | 0]) keeps the word. *)
Lemma load_word l k :
  Forall Ref.word l -> 0 <= k ->
  JS.ToUint32 (JS.or (JS.get l k) 0) = nth (Z.to_nat k) l 0.
Proof.
  intros H Hk. rewrite or_0, ToUint32_ToInt32. unfold JS.get.
  replace (k <? 0) with false by (symmetry; apply Z.ltb_ge; lia).
  apply ToUint32_small, word_nth, H.
Qed.

Ltac eval_to_nat :=
  repeat match goal with
         | |- context [Z.to_nat ?k] =>
             let v := eval vm_compute in (Z.to_nat k) in
             change (Z.to_nat k) with v
         end.

(** C2. The compress function, which permutes its sixteen message locals in
    place between rounds, equals the reference single-block compression:
    seven rounds, round r consuming m[sigma_r(k)] for k = 0..15 (sigma_0 the
    identity), each round the G function on the four columns and then on the
    four diagonals with rotations 16, 12, 8, 7, and the result the eight
    words s_i xor s_{i+8}. *)
Theorem compress_refines_reference (cv m : list Z) (counter blockLen flags : Z) :
  Forall Ref.word cv -> Forall Ref.word m ->
  0 <= counter < 2 ^ 53 -> Ref.word blockLen -> Ref.word flags ->
  compress cv m counter blockLen flags =
  Ref.compress cv m counter blockLen flags.
Proof.
  intros Hcv Hm Hc Hb Hf. unfold compress, Ref.compress.
  rewrite compress_loop.
  set (s0 := L16 _ _ _ _ _ _ _ _ _ _ _ _ _ _ _ _) at 1.
  set (m0 := L16 _ _ _ _ _ _ _ _ _ _ _ _ _ _ _ _) at 1.
  assert (Hm0 : U16 m0 = map (fun k => nth k m 0) (seq 0 16)).
  { unfold m0. cbv [U16 map seq].
    rewrite !(load_word m) by (exact Hm || lia).
    eval_to_nat. reflexivity. }
  pose proof (js_rounds_refines m m0 Hm0 7 0 s0 ltac:(lia)) as Hr.
  assert (Hs0 : U16 s0 =
                [nth 0 cv 0; nth 1 cv 0; nth 2 cv 0; nth 3 cv 0;
                 nth 4 cv 0; nth 5 cv 0; nth 6 cv 0; nth 7 cv 0;
                 nth 0 IV 0; nth 1 IV 0; nth 2 IV 0; nth 3 IV 0;
                 counter mod 2 ^ 32; counter / 2 ^ 32; blockLen; flags]).
  { unfold s0. cbv [U16 map].
    rewrite !(load_word cv) by (exact Hcv || lia).
    eval_to_nat.
    rewrite !or_0, !ToUint32_ToInt32.
    rewrite (ToUint32_small blockLen Hb), (ToUint32_small flags Hf).
    rewrite (ToUint32_mod counter).
    rewrite Z.quot_div_nonneg by lia.
    rewrite (ToUint32_small (counter / 4294967296))
      by (change 4294967296 with (2 ^ 32); Z.div_mod_to_equations; lia).
    reflexivity. }
  rewrite Hs0 in Hr. rewrite <- Hr.
  destruct (js_rounds 7 0 s0 m0). cbv [U16 map seq nth Nat.add].
  rewrite !js_xor. reflexivity.
Qed.

Lemma compress_refines_reference_witness :
  Forall Ref.word IV /\ Forall Ref.word (repeat 0 16) /\
  0 <= 0 < 2 ^ 53 /\ Ref.word 0 /\ Ref.word 11 /\
  compress IV (repeat 0 16) 0 0 11 = Ref.compress IV (repeat 0 16) 0 0 11.
Proof.
  assert (H0 : forall x, 0 <= x < 2 ^ 32 -> Ref.word x) by (intros x H; exact H).
  assert (HIV : Forall Ref.word IV)
    by (repeat constructor; unfold Ref.word; simpl; lia).
  assert (Hm : Forall Ref.word (repeat 0 16))
    by (repeat constructor; unfold Ref.word; simpl; lia).
  split; [exact HIV|]. split; [exact Hm|]. split; [lia|].
  split; [unfold Ref.word; lia|]. split; [unfold Ref.word; lia|].
  apply (compress_refines_reference IV (repeat 0 16) 0 0 11 HIV Hm);
    unfold Ref.word; lia.
Defined.


(** * The block reader *)

(** A loop run with enough fuel: the invariant holds at the end and the
    condition has failed. *)
Lemma while_total {S : Type} (cond : S -> bool) (body : S -> S)
    (P : S -> Prop) (mu : S -> nat) :
  (forall s, P s -> cond s = true -> P (body s) /\ (mu (body s) < mu s)%nat) ->
  forall fuel s, P s -> (mu s <= fuel)%nat ->
  P (JS.while fuel cond body s) /\ cond (JS.while fuel cond body s) = false.
Proof.
  intros Hstep fuel s Hs Hmu. split.
  - apply while_ind; [|exact Hs]. intros s' Hs' Hc. apply Hstep; assumption.
  - apply (while_exit cond body P mu Hstep); assumption.
Qed.

(** Two loops whose states stay related. *)
Lemma while_sim {S T : Type} (R : S -> T -> Prop)
    (cond1 : S -> bool) (body1 : S -> S) (cond2 : T -> bool) (body2 : T -> T) :
  (forall s t, R s t -> cond1 s = cond2 t) ->
  (forall s t, R s t -> cond1 s = true -> R (body1 s) (body2 t)) ->
  forall fuel s t, R s t ->
  R (JS.while fuel cond1 body1 s) (JS.while fuel cond2 body2 t).
Proof.
  intros Hc Hb fuel; induction fuel as [|fuel IH]; intros s t Hst; simpl.
  - exact Hst.
  - rewrite <- (Hc s t Hst). destruct (cond1 s) eqn:E; [|exact Hst].
    apply IH, Hb; assumption.
Qed.

Lemma byte_to_Z_range b : 0 <= byte_to_Z b < 256.
Proof.
  unfold byte_to_Z. pose proof (Byte.to_N_bounded b) as H. lia.
Qed.

Lemma get8_range input i : 0 <= get8 input i < 256.
Proof.
  unfold get8. destruct (i <? 0); [lia|].
  destruct (nth_error input (Z.to_nat i)); [apply byte_to_Z_range | lia].
Qed.

Lemma get8_skipn input a i :
  0 <= i -> get8 (skipn a input) i = get8 input (Z.of_nat a + i).
Proof.
  intros Hi. unfold get8.
  replace (i <? 0) with false by (symmetry; apply Z.ltb_ge; lia).
  replace (Z.of_nat a + i <? 0) with false by (symmetry; apply Z.ltb_ge; lia).
  rewrite nth_error_skipn. replace (Z.to_nat (Z.of_nat a + i)) with (a + Z.to_nat i)%nat by lia.
  reflexivity.
Qed.

Lemma len8_skipn input a :
  (a <= length input)%nat -> len8 (skipn a input) = len8 input - Z.of_nat a.
Proof. intros H. unfold len8. rewrite length_skipn. lia. Qed.

(** Reading at [a + offset] is reading at [offset] in the input without its
    first [a] bytes. *)
Lemma readBlock_skipn_within input a offset len :
  (a <= length input)%nat -> 0 <= offset ->
  readBlock input (Z.of_nat a + offset) len = readBlock (skipn a input) offset len.
Proof.
  intros Ha Hoff. unfold readBlock. rewrite (len8_skipn input a Ha).
  set (end1 := Z.min (Z.of_nat a + offset + len) (len8 input)).
  set (end2 := Z.min (offset + len) (len8 input - Z.of_nat a)).
  assert (Hend : end1 = Z.of_nat a + end2) by (unfold end1, end2; lia).
  pose proof (while_sim
    (fun s t : list Z * Z * Z =>
       fst (fst s) = fst (fst t) /\ snd (fst s) = snd (fst t) /\
       snd s = Z.of_nat a + snd t /\ 0 <= snd t)
    (readBlock_words_cond input end1) (readBlock_words_body input)
    (readBlock_words_cond (skipn a input) end2)
    (readBlock_words_body (skipn a input))) as Hsim.
  specialize (Hsim
    ltac:(intros [[o1 w1] i1] [[o2 w2] i2] (Ho & Hw & Hi & Hp); simpl in *;
          subst; unfold readBlock_words_cond;
          destruct (Z.leb_spec (Z.of_nat a + i2 + 4) (Z.of_nat a + end2));
          destruct (Z.leb_spec (i2 + 4) end2); lia || reflexivity)
    ltac:(intros [[o1 w1] i1] [[o2 w2] i2] (Ho & Hw & Hi & Hp) _; simpl in *;
          subst; rewrite !get8_skipn by lia;
          repeat split; try lia;
          repeat (f_equal; try lia))
    (Z.to_nat len) (repeat 0 16, 0, Z.of_nat a + offset) (repeat 0 16, 0, offset)
    ltac:(simpl; repeat split; lia)).
  destruct (JS.while (Z.to_nat len) (readBlock_words_cond input end1) _ _)
    as [[o1 w1] i1].
  destruct (JS.while (Z.to_nat len) (readBlock_words_cond (skipn a input) end2) _ _)
    as [[o2 w2] i2].
  simpl in Hsim. destruct Hsim as (-> & -> & -> & Hp).
  replace (Z.of_nat a + i2 <? end1) with (i2 <? end2)
    by (rewrite Hend; destruct (Z.ltb_spec i2 end2);
        destruct (Z.ltb_spec (Z.of_nat a + i2) (Z.of_nat a + end2)); lia || reflexivity).
  destruct (i2 <? end2); [|reflexivity].
  pose proof (while_sim
    (fun s t : Z * Z * Z =>
       fst (fst s) = fst (fst t) /\ snd (fst s) = snd (fst t) /\
       snd s = Z.of_nat a + snd t /\ 0 <= snd t)
    (readBlock_tail_cond end1) (readBlock_tail_body input)
    (readBlock_tail_cond end2) (readBlock_tail_body (skipn a input))) as Htail.
  specialize (Htail
    ltac:(intros [[o1 w1] j1] [[o2' w2'] j2] (Ho & Hw & Hi & Hq); simpl in *;
          subst; unfold readBlock_tail_cond;
          destruct (Z.ltb_spec (Z.of_nat a + j2) (Z.of_nat a + end2));
          destruct (Z.ltb_spec j2 end2); lia || reflexivity)
    ltac:(intros [[o1 w1] j1] [[o2' w2'] j2] (Ho & Hw & Hi & Hq) _; simpl in *;
          subst; rewrite !get8_skipn by lia;
          repeat split; try lia;
          repeat (f_equal; try lia))
    4%nat (0, 0, Z.of_nat a + i2) (0, 0, i2)
    ltac:(simpl; repeat split; lia)).
  destruct (JS.while 4 (readBlock_tail_cond end1) _ _) as [[x1 y1] z1].
  destruct (JS.while 4 (readBlock_tail_cond end2) _ _) as [[x2 y2] z2].
  simpl in Htail. destruct Htail as (-> & _). reflexivity.
Qed.

(** Past the end of the input there is nothing to read. *)
Lemma readBlock_past_end input offset len :
  len8 input <= offset -> readBlock input offset len = repeat 0 16.
Proof.
  intros H. unfold readBlock.
  set (end_ := Z.min (offset + len) (len8 input)).
  assert (Hend : end_ <= offset) by (unfold end_; lia).
  rewrite while_false
    by (unfold readBlock_words_cond; apply Z.leb_gt; lia).
  replace (offset <? end_) with false by (symmetry; apply Z.ltb_ge; lia).
  reflexivity.
Qed.

Lemma readBlock_skipn input a offset len :
  0 <= offset ->
  readBlock input (Z.of_nat a + offset) len = readBlock (skipn a input) offset len.
Proof.
  intros Hoff. destruct (Nat.le_gt_cases a (length input)) as [Ha|Ha].
  - apply readBlock_skipn_within; assumption.
  - rewrite skipn_all2 by lia.
    rewrite !readBlock_past_end by (unfold len8; simpl; lia). reflexivity.
Qed.

(** ** Full blocks, and the aligned fast path *)

(** The word [readBlock] packs from the four bytes at [i]. *)
Definition packed_word (input : list byte) (i : Z) : Z :=
  JS.ToUint32
    (JS.or (JS.or (JS.or (get8 input i) (JS.shl (get8 input (i + 1)) 8))
                  (JS.shl (get8 input (i + 2)) 16))
           (JS.shl (get8 input (i + 3)) 24)).

Lemma upd_middle (l1 l2 : list Z) x v :
  JS.upd (l1 ++ x :: l2) (length l1) v = l1 ++ v :: l2.
Proof. induction l1 as [|h t IH]; simpl; [reflexivity | rewrite IH; reflexivity]. Qed.

(** Invariant of the word loop of [readBlock] on a full block: [k] words
    are in place, the rest of [out] is still zero. *)
Definition full_block_inv (input : list byte) (offset : Z)
    (st : list Z * Z * Z) : Prop :=
  let '(out, wi, i) := st in
  exists k : nat,
    (k <= 16)%nat /\ wi = Z.of_nat k /\ i = offset + 4 * Z.of_nat k /\
    out = map (fun j => packed_word input (offset + 4 * Z.of_nat j)) (seq 0 k)
          ++ repeat 0 (16 - k).

Lemma readBlock_full input offset :
  0 <= offset -> offset + 64 <= len8 input ->
  readBlock input offset 64 =
  map (fun j => packed_word input (offset + 4 * Z.of_nat j)) (seq 0 16).
Proof.
  intros Ho Hlen. unfold readBlock.
  replace (Z.min (offset + 64) (len8 input)) with (offset + 64) by lia.
  destruct (while_total (readBlock_words_cond input (offset + 64))
              (readBlock_words_body input) (full_block_inv input offset)
              (fun st => (16 - Z.to_nat (snd (fst st)))%nat)) with
    (fuel := Z.to_nat 64) (s := (repeat 0 16, 0, offset)) as [Hinv Hexit].
  - intros [[out wi] i] (k & Hk & -> & -> & ->) Hc.
    unfold readBlock_words_cond in Hc. apply Z.leb_le in Hc.
    assert (Hk16 : (k < 16)%nat) by lia.
    split; [|unfold readBlock_words_body; cbn [fst snd]; lia].
    exists (S k). split; [lia|]. split; [lia|]. split; [lia|].
    unfold readBlock_words_body, JS.set32, JS.set.
    replace (Z.of_nat k <? 0) with false by (symmetry; apply Z.ltb_ge; lia).
    rewrite Nat2Z.id.
    replace (16 - k)%nat with (S (16 - S k)) by lia. cbn [repeat].
    replace k with (length (map (fun j => packed_word input (offset + 4 * Z.of_nat j))
                              (seq 0 k))) at 3
      by (rewrite length_map, length_seq; reflexivity).
    rewrite upd_middle, seq_S, map_app, <- app_assoc. simpl.
    unfold packed_word.
    replace (offset + 4 * Z.of_nat k + 1) with (offset + 4 * Z.of_nat k + 1) by lia.
    reflexivity.
  - exists 0%nat. simpl. repeat split; lia.
  - simpl. lia.
  - destruct (JS.while _ _ _ _) as [[out wi] i].
    destruct Hinv as (k & Hk & -> & -> & ->).
    unfold readBlock_words_cond in Hexit. apply Z.leb_gt in Hexit.
    assert (k = 16%nat) by lia. subst k.
    replace (offset + 4 * Z.of_nat 16 <? offset + 64) with false
      by (symmetry; apply Z.ltb_ge; lia).
    simpl repeat. rewrite app_nil_r. reflexivity.
Qed.

Lemma js_or a b :
  JS.ToUint32 (JS.or a b) = Z.lor (JS.ToUint32 a) (JS.ToUint32 b).
Proof.
  unfold JS.or. rewrite ToUint32_land, Z.land_lor_distr_l.
  rewrite <- !ToUint32_land, !ToUint32_ToInt32. reflexivity.
Qed.

Lemma js_shl_byte b k :
  0 <= b < 256 -> 0 <= k <= 24 ->
  JS.ToUint32 (JS.shl b k) = b * 2 ^ k.
Proof.
  intros Hb Hk. unfold JS.shl.
  assert (Hk31 : Z.land k 31 = k).
  { change 31 with (Z.ones 5). rewrite Z.land_ones by lia.
    apply Z.mod_small. change (2 ^ 5) with 32. lia. }
  rewrite Hk31, ToUint32_ToInt32, ToUint32_shiftl by lia.
  rewrite (ToUint32_small b) by lia.
  rewrite Z.shiftl_mul_pow2 by lia. apply ToUint32_small.
  assert (2 ^ k <= 2 ^ 24) by (apply Z.pow_le_mono_r; lia).
  assert (0 < 2 ^ k) by (apply Z.pow_pos_nonneg; lia).
  change (2 ^ 24) with 16777216 in *. change (2 ^ 32) with 4294967296. nia.
Qed.

(** Bits that do not overlap add up. *)
Lemma lor_disjoint a c k :
  0 <= k -> 0 <= a < 2 ^ k -> Z.lor a (c * 2 ^ k) = a + c * 2 ^ k.
Proof.
  intros Hk Ha.
  assert (Hland : Z.land a (c * 2 ^ k) = 0).
  { apply Z.bits_inj'. intros n Hn. rewrite Z.land_spec, Z.bits_0.
    destruct (Z.lt_ge_cases n k) as [Hlt|Hge].
    - rewrite Z.mul_pow2_bits_low by exact Hlt. apply andb_false_r.
    - replace (Z.testbit a n) with false; [reflexivity|].
      symmetry. destruct (Z.eq_dec a 0) as [->|Hnz]; [apply Z.bits_0|].
      apply Z.bits_above_log2; [lia|].
      apply Z.log2_lt_pow2; try lia.
      apply Z.lt_le_trans with (2 ^ k); [lia|].
      apply Z.pow_le_mono_r; lia. }
  rewrite Z.add_nocarry_lxor by exact Hland.
  symmetry. apply Z.lxor_lor, Hland.
Qed.

(** On a little-endian host the aligned view holds the words [readBlock]
    packs. *)
Lemma view32_packed input offset j :
  view32 input offset j = packed_word input (offset + 4 * j).
Proof.
  unfold view32, packed_word.
  pose proof (get8_range input (offset + 4 * j)) as H0.
  pose proof (get8_range input (offset + 4 * j + 1)) as H1.
  pose proof (get8_range input (offset + 4 * j + 2)) as H2.
  pose proof (get8_range input (offset + 4 * j + 3)) as H3.
  set (b0 := get8 input (offset + 4 * j)) in *.
  set (b1 := get8 input (offset + 4 * j + 1)) in *.
  set (b2 := get8 input (offset + 4 * j + 2)) in *.
  set (b3 := get8 input (offset + 4 * j + 3)) in *.
  rewrite !js_or, !js_shl_byte by lia.
  rewrite (ToUint32_small b0) by lia.
  rewrite (lor_disjoint b0 b1 8) by (change (2 ^ 8) with 256; lia).
  rewrite (lor_disjoint (b0 + b1 * 2 ^ 8) b2 16)
    by (change (2 ^ 8) with 256; change (2 ^ 16) with 65536; lia).
  rewrite (lor_disjoint (b0 + b1 * 2 ^ 8 + b2 * 2 ^ 16) b3 24)
    by (change (2 ^ 8) with 256; change (2 ^ 16) with 65536;
        change (2 ^ 24) with 16777216; lia).
  lia.
Qed.

(** The fast path changes nothing: whatever the host and the position of
    the input in its buffer, the message buffer is the one [readBlock]
    fills. *)
Lemma read_fast_readBlock le bo input offset blockLen :
  0 <= offset ->
  read_fast le bo input offset blockLen = readBlock input offset blockLen.
Proof.
  intros Ho. unfold read_fast. destruct (blockLen =? BLOCK_LEN) eqn:E; [|reflexivity].
  apply Z.eqb_eq in E. subst blockLen. unfold readBlockFastLE.
  destruct (le && (JS.and (bo + offset) 3 =? 0) && (offset + 64 <=? len8 input)) eqn:G;
    [|reflexivity].
  apply andb_prop in G. destruct G as [_ G]. apply Z.leb_le in G.
  unfold BLOCK_LEN. rewrite readBlock_full by lia.
  apply map_ext. intros j. apply view32_packed.
Qed.

(** ** The loops depend on what is read, not on how *)

Lemma block_loop_ext read1 read2 lastFlags start1 start2 chunkLen counter flags cv0 :
  (forall pos len, 0 <= pos -> read1 (start1 + pos) len = read2 (start2 + pos) len) ->
  block_loop read1 lastFlags start1 chunkLen counter flags cv0 =
  block_loop read2 lastFlags start2 chunkLen counter flags cv0.
Proof.
  intros H. unfold block_loop.
  rewrite (while_ext (fun st : list Z * Z * Z * list call => 0 <= snd (fst (fst st)))
             block_cond block_cond
             (block_body read1 lastFlags start1 chunkLen counter flags)
             (block_body read2 lastFlags start2 chunkLen counter flags)).
  - reflexivity.
  - reflexivity.
  - intros [[[cv pos] n] calls] Hpos _. simpl in Hpos.
    unfold block_body. rewrite (H pos _ Hpos). split; [reflexivity|].
    cbn [fst snd]. unfold BLOCK_LEN. lia.
  - simpl. lia.
Qed.

Lemma tree_ext chunk1 chunk2 merge_eager merge_final guarded numChunks :
  (forall c, 0 <= c < numChunks -> chunk1 c = chunk2 c) ->
  tree chunk1 merge_eager merge_final guarded numChunks =
  tree chunk2 merge_eager merge_final guarded numChunks.
Proof.
  intros H. unfold tree, chunks_loop.
  rewrite (while_ext (fun st : Z * list (list Z) * list call => 0 <= fst (fst st))
             (chunks_cond numChunks) (chunks_cond numChunks)
             (chunks_body chunk1 merge_eager guarded numChunks)
             (chunks_body chunk2 merge_eager guarded numChunks)).
  - reflexivity.
  - reflexivity.
  - intros [[c stack] calls] Hc Hcond. simpl in Hc.
    unfold chunks_cond in Hcond. apply Z.ltb_lt in Hcond.
    unfold chunks_body. rewrite (H c) by lia. split; [reflexivity|].
    destruct (chunk2 c); destruct (push_chunk _ _ _ _ _ _ _). simpl. lia.
  - simpl. lia.
Qed.

(** ** [hash] does not depend on the host *)

(** The chunk loop of [processChunk] on the input cut at the chunk: the
    chunk's bytes are the first bytes of [chunkInput], and a block is read at
    the front of what is left of them. *)
Definition sliced_chunk (flags : Z) (input : list byte) (c : Z)
    : list Z * list call :=
  let chunkInput := skipn (Z.to_nat (c * CHUNK_LEN)) input in
  let chunkLen := Z.min CHUNK_LEN (len8 chunkInput) in
  block_loop (fun off len => readBlock (skipn (Z.to_nat off) chunkInput) 0 len)
    CHUNK_END 0 chunkLen c flags IV.

Lemma processChunk_sliced le bo input c flags :
  0 <= c -> c * CHUNK_LEN <= len8 input ->
  processChunk le bo input (c * CHUNK_LEN)
    (Z.min CHUNK_LEN (len8 input - c * CHUNK_LEN)) c flags =
  sliced_chunk flags input c.
Proof.
  intros Hc Hin. unfold processChunk, sliced_chunk.
  rewrite len8_skipn by (unfold len8, CHUNK_LEN in *; lia).
  rewrite Z2Nat.id by (unfold CHUNK_LEN; lia).
  apply block_loop_ext. intros pos len Hpos.
  rewrite read_fast_readBlock by (unfold CHUNK_LEN; lia).
  rewrite skipn_skipn.
  rewrite <- (readBlock_skipn input (Z.to_nat (0 + pos) + Z.to_nat (c * CHUNK_LEN)) 0 len)
    by lia.
  f_equal. unfold CHUNK_LEN. lia.
Qed.

(** The multi-chunk path of [hash], chunk by chunk on the cut input. *)
Definition hash_root_sliced (flags : Z) (input : list byte)
    : option (list Z) * list call :=
  tree (sliced_chunk flags input)
    (fun left right => mergeParents left right flags false)
    (fun left right isRoot => mergeParents left right flags isRoot)
    true (JS.ceil_div (len8 input) CHUNK_LEN).

Lemma ceil_div_chunk_start n c :
  0 <= c < JS.ceil_div n CHUNK_LEN -> c * CHUNK_LEN <= n.
Proof. unfold JS.ceil_div, CHUNK_LEN. intros H. Z.div_mod_to_equations. lia. Qed.

Lemma hash_root_multi le bo flags input :
  CHUNK_LEN < len8 input ->
  hash_root le bo flags input = hash_root_sliced flags input.
Proof.
  intros H. unfold hash_root, hash_root_sliced.
  replace (len8 input <=? CHUNK_LEN) with false by (symmetry; apply Z.leb_gt; exact H).
  apply tree_ext. intros c Hc. cbv zeta.
  apply processChunk_sliced; [lia|]. apply ceil_div_chunk_start, Hc.
Qed.

Lemma hash_root_single le bo flags input :
  len8 input <= CHUNK_LEN ->
  hash_root le bo flags input =
  (let '(cv, calls) :=
     block_loop (readBlock input) (JS.or CHUNK_END ROOT) 0 (len8 input) 0
       flags IV in
   (Some cv, calls)).
Proof.
  intros H. unfold hash_root.
  replace (len8 input <=? CHUNK_LEN) with true by (symmetry; apply Z.leb_le; exact H).
  rewrite (block_loop_ext (read_fast le bo input) (readBlock input) _ 0 0);
    [reflexivity|].
  intros pos len Hpos. apply read_fast_readBlock. lia.
Qed.

(** Whatever the byte order of the host and the alignment of the input,
    [hash] computes what it computes without the fast path. *)
Lemma hash_host_independent le bo input outputLen :
  hash le bo input outputLen = hash false 0 input outputLen.
Proof.
  unfold hash, hash_run. f_equal. f_equal.
  destruct (Z.le_gt_cases (len8 input) CHUNK_LEN) as [H|H].
  - rewrite !hash_root_single by exact H. reflexivity.
  - rewrite !hash_root_multi by lia. reflexivity.
Qed.


(** * The log of a run *)

Lemma last_call_app calls made c :
  last_call made = Some c -> last_call (calls ++ made) = Some c.
Proof.
  unfold last_call. rewrite rev_app_distr.
  destruct (rev made) as [|c' t]; [discriminate|].
  intros H. exact H.
Qed.

Lemma last_call_single c : last_call [c] = Some c.
Proof. reflexivity. Qed.

(** A run is a value with the log of the compressions that made it.  In a
    run that is [logged] every call satisfies [ok], and the value is what
    the last call returned. *)
Definition logged (ok : call -> Prop) (run : list Z * list call) : Prop :=
  Forall ok (snd run) /\
  option_map call_result (last_call (snd run)) = Some (fst run).

Lemma logged_last ok run :
  logged ok run -> exists c, last_call (snd run) = Some c /\ call_result c = fst run.
Proof.
  intros [_ H]. destruct (last_call (snd run)) as [c|]; [|discriminate].
  exists c. split; [reflexivity|]. simpl in H. congruence.
Qed.

Section TreeLog.

Variable ok : call -> Prop.
Variable chunk : Z -> list Z * list call.
Variable merge_eager : list Z -> list Z -> list Z * list call.
Variable merge_final : list Z -> list Z -> bool -> list Z * list call.
Variable guarded : bool.
Variable numChunks : Z.

Hypothesis chunk_logged :
forall c, 0 <= c < numChunks -> logged ok (chunk c).
Hypothesis merge_eager_logged : forall l r, logged ok (merge_eager l r).
Hypothesis merge_final_logged : forall l r b, logged ok (merge_final l r b).

(** Every call so far is [ok], and the top of the stack is what the last
  call returned. *)
Definition stack_logged (cvStack : list (list Z)) (calls : list call) : Prop :=
Forall ok calls /\
match cvStack with
| [] => True
| top :: _ => option_map call_result (last_call calls) = Some top
end.

Lemma stack_logged_push cv made cvStack calls :
logged ok (cv, made) -> Forall ok calls ->
stack_logged (cv :: cvStack) (calls ++ made).
Proof.
intros Hrun Hcalls. destruct (logged_last _ _ Hrun) as (c & Hc & Hres).
destruct Hrun as [Hmade _]. simpl in *. split.
- apply Forall_app. split; assumption.
- rewrite (last_call_app calls made c Hc). simpl. congruence.
Qed.

Lemma eager_body_logged st :
stack_logged (snd (fst st)) (snd st) ->
stack_logged (snd (fst (eager_body merge_eager st)))
  (snd (eager_body merge_eager st)).
Proof.
destruct st as [[t stack] calls]. simpl. intros H.
destruct stack as [|r [|l rest]]; try exact H. simpl.
pose proof (merge_eager_logged l r) as Hm.
destruct (merge_eager l r) as [cv made]. simpl.
apply stack_logged_push; [exact Hm | apply H].
Qed.

Lemma push_chunk_logged c cv made cvStack calls :
logged ok (cv, made) -> Forall ok calls ->
let r := push_chunk merge_eager guarded numChunks c cv cvStack (calls ++ made) in
stack_logged (fst r) (snd r).
Proof.
intros Hrun Hcalls. unfold push_chunk.
pose proof (stack_logged_push cv made cvStack calls Hrun Hcalls) as Hpush.
destruct (guarded && (c =? numChunks - 1)); [exact Hpush|].
pose proof (while_ind eager_cond (eager_body merge_eager)
              (fun st => stack_logged (snd (fst st)) (snd st))
              (fun st H _ => eager_body_logged st H)
              (length (cv :: cvStack)) (c + 1, cv :: cvStack, calls ++ made) Hpush)
  as H.
destruct (JS.while _ _ _ _) as [[t stack'] calls']. exact H.
Qed.

Definition chunks_logged (st : Z * list (list Z) * list call) : Prop :=
0 <= fst (fst st) /\ stack_logged (snd (fst st)) (snd st).

Lemma chunks_body_logged st :
chunks_logged st -> chunks_cond numChunks st = true ->
chunks_logged (chunks_body chunk merge_eager guarded numChunks st).
Proof.
destruct st as [[c stack] calls]. unfold chunks_logged, chunks_cond. simpl.
intros [Hc0 [Hcalls _]] Hlt. apply Z.ltb_lt in Hlt.
pose proof (chunk_logged c ltac:(lia)) as Hc. destruct (chunk c) as [cv made].
pose proof (push_chunk_logged c cv made stack calls Hc Hcalls) as Hp.
destruct (push_chunk _ _ _ _ _ _ _) as [stack' calls']. simpl in *.
split; [lia | exact Hp].
Qed.

Lemma final_body_logged st :
stack_logged (fst st) (snd st) ->
stack_logged (fst (final_body merge_final st)) (snd (final_body merge_final st)).
Proof.
destruct st as [stack calls]. simpl. intros H.
destruct stack as [|r [|l rest]]; try exact H. simpl.
pose proof (merge_final_logged l r (Z.of_nat (length rest) =? 0)) as Hm.
destruct (merge_final l r _) as [cv made]. simpl.
apply stack_logged_push; [exact Hm | apply H].
Qed.

(** The root of the tree is what the last compression of the run returned,
  and every compression of the run is [ok]. *)
Lemma tree_logged :
1 <= numChunks ->
exists cv calls,
  tree chunk merge_eager merge_final guarded numChunks = (Some cv, calls) /\
  logged ok (cv, calls).
Proof.
intros Hn. unfold tree.
pose proof (chunks_loop_exit chunk merge_eager guarded numChunks ltac:(lia)) as Hexit.
pose proof (while_ind (chunks_cond numChunks)
              (chunks_body chunk merge_eager guarded numChunks)
              chunks_logged chunks_body_logged
              (Z.to_nat numChunks) (0, [], [])
              (conj (Z.le_refl 0) (conj (Forall_nil ok) I))) as Hloop.
unfold chunks_loop in *.
destruct (JS.while _ _ _ _) as [[c stack] calls].
destruct Hexit as [_ Hne]. specialize (Hne Hn).
destruct Hloop as [_ Hloop]. simpl in Hloop.
pose proof (final_merges_single merge_final (stack, calls) Hne) as Hone.
pose proof (while_ind final_cond (final_body merge_final)
              (fun st => stack_logged (fst st) (snd st))
              (fun st H _ => final_body_logged st H)
              (length (fst (stack, calls))) (stack, calls) Hloop) as Hfin.
unfold final_merges in *.
destruct (JS.while _ _ _ (stack, calls)) as [stack' calls'].
simpl in Hone, Hfin. destruct stack' as [|top [|? ?]]; try discriminate.
exists top, calls'. split; [reflexivity|]. exact Hfin.
Qed.

End TreeLog.

(** ** The compressions of [keyedHash] *)

(** A compression made under a key: KEYED_HASH is among its flags, and if
    it starts a chunk or merges two subtrees, its chaining value is the
    key. *)
Definition keyed_call (keyWords : list Z) (c : call) : Prop :=
  has_flag KEYED_HASH c = true /\
  (has_flag CHUNK_START c = true \/ has_flag PARENT c = true ->
   call_cv c = keyWords).

Lemma keyed_first_block keyWords m counter blockLen last lastFlags :
  lastFlags = CHUNK_END \/ lastFlags = JS.or CHUNK_END ROOT ->
  keyed_call keyWords
    (Call keyWords m counter blockLen
       (if last : bool then JS.or (JS.or KEYED_HASH CHUNK_START) lastFlags
        else JS.or KEYED_HASH CHUNK_START)).
Proof.
  intros [-> | ->]; destruct last; split; try reflexivity; intros _; reflexivity.
Qed.

Lemma keyed_later_block keyWords cv m counter blockLen last lastFlags :
  lastFlags = CHUNK_END \/ lastFlags = JS.or CHUNK_END ROOT ->
  keyed_call keyWords
    (Call cv m counter blockLen
       (if last : bool then JS.or KEYED_HASH lastFlags else KEYED_HASH)).
Proof.
  intros [-> | ->]; destruct last; split; try reflexivity;
    intros [H | H]; vm_compute in H; discriminate H.
Qed.

Lemma block_count_pos chunkLen : 0 <= chunkLen -> 1 <= block_count chunkLen.
Proof.
  intros H. unfold block_count.
  destruct (JS.ceil_div chunkLen BLOCK_LEN =? 0) eqn:E; [lia|].
  apply Z.eqb_neq in E. unfold JS.ceil_div, BLOCK_LEN in *.
  Z.div_mod_to_equations. lia.
Qed.

(** The block loop under a key: every compression is a [keyed_call], and
    the CV of the chunk is what the last one returned. *)
Lemma keyed_block_loop_logged read lastFlags chunkStart chunkLen counter keyWords :
  0 <= chunkLen ->
  lastFlags = CHUNK_END \/ lastFlags = JS.or CHUNK_END ROOT ->
  logged (keyed_call keyWords)
    (block_loop read lastFlags chunkStart chunkLen counter KEYED_HASH keyWords).
Proof.
  intros Hlen Hlast. unfold block_loop.
  pose proof (block_count_pos chunkLen Hlen) as Hcount.
  destruct (Z.to_nat (block_count chunkLen)) as [|fuel] eqn:Hfuel; [lia|].
  rewrite while_step by (unfold block_cond; apply Z.ltb_lt; lia).
  set (P := fun st : list Z * Z * Z * list call =>
              let '(cv, pos, _, calls) := st in
              0 < pos /\ logged (keyed_call keyWords) (cv, calls)).
  assert (Hfirst : P (block_body read lastFlags chunkStart chunkLen counter
                        KEYED_HASH (keyWords, 0, block_count chunkLen, []))).
  { unfold P, block_body. cbn [Z.eqb]. split; [unfold BLOCK_LEN; lia|].
    split; cbn [fst snd app].
    - constructor; [|constructor].
      apply (keyed_first_block keyWords _ counter _
               (block_count chunkLen =? 1) lastFlags Hlast).
    - rewrite last_call_single. reflexivity. }
  assert (Hstep : forall st, P st -> block_cond st = true ->
            P (block_body read lastFlags chunkStart chunkLen counter
                 KEYED_HASH st)).
  { intros [[[cv pos] n] calls] [Hpos [Hall _]] _. unfold P, block_body.
    replace (pos =? 0) with false by (symmetry; apply Z.eqb_neq; lia).
    cbv iota. split; [unfold BLOCK_LEN; lia|]. split; cbn [fst snd].
    - apply Forall_app. split; [exact Hall|]. constructor; [|constructor].
      apply (keyed_later_block keyWords cv _ counter _ (n =? 1) lastFlags Hlast).
    - rewrite (last_call_app calls _ _ (last_call_single _)). reflexivity. }
  pose proof (while_ind block_cond _ P Hstep fuel _ Hfirst) as Hend.
  destruct (JS.while fuel _ _ _) as [[[cv pos] n] calls].
  exact (proj2 Hend).
Qed.

Lemma keyed_parent_logged keyWords left right flags :
  has_flag KEYED_HASH (Call keyWords [] 0 0 flags) = true ->
  logged (keyed_call keyWords)
    (compress keyWords (parent_block left right) 0 BLOCK_LEN flags,
     [Call keyWords (parent_block left right) 0 BLOCK_LEN flags]).
Proof.
  intros H. split; cbn [fst snd].
  - constructor; [|constructor]. split; [exact H | intros _; reflexivity].
  - reflexivity.
Qed.

Lemma keyedHash_root_logged keyWords input :
  exists cv calls,
    keyedHash_root keyWords input = (Some cv, calls) /\
    logged (keyed_call keyWords) (cv, calls).
Proof.
  unfold keyedHash_root. destruct (len8 input <=? CHUNK_LEN) eqn:E.
  - pose proof (keyed_block_loop_logged (readBlock input) (JS.or CHUNK_END ROOT)
                  0 (len8 input) 0 keyWords ltac:(unfold len8; lia)
                  (or_intror eq_refl)) as H.
    destruct (block_loop _ _ _ _ _ _ _) as [cv calls].
    exists cv, calls. split; [reflexivity | exact H].
  - apply Z.leb_gt in E. apply tree_logged.
    + intros c Hc. apply keyed_block_loop_logged; [|left; reflexivity].
      pose proof (ceil_div_chunk_start _ _ Hc). unfold CHUNK_LEN in *. lia.
    + intros l r. apply keyed_parent_logged. reflexivity.
    + intros l r b. apply keyed_parent_logged. destruct b; reflexivity.
    + pose proof (ceil_div_chunks _ E). lia.
Qed.

(** The little-endian word [i] of a byte sequence. *)
Definition le_word (bytes : list byte) (i : Z) : Z :=
  get8 bytes (4 * i)
  + 2 ^ 8 * get8 bytes (4 * i + 1)
  + 2 ^ 16 * get8 bytes (4 * i + 2)
  + 2 ^ 24 * get8 bytes (4 * i + 3).

Definition le_words8 (bytes : list byte) : list Z :=
  map (fun i => le_word bytes (Z.of_nat i)) (seq 0 8).

Lemma keyWords_little_endian key : keyWords_of key = le_words8 key.
Proof.
  unfold keyWords_of, le_words8. apply map_ext. intros i.
  change (JS.ToUint32 _) with (packed_word key (Z.of_nat i * 4)).
  replace (Z.of_nat i * 4) with (0 + 4 * Z.of_nat i) by lia.
  rewrite <- view32_packed. unfold view32, le_word.
  rewrite !Z.add_0_l. reflexivity.
Qed.

(** ** The ROOT flag in the log of a run *)

(** The number of compressions of a log that carry the ROOT flag. *)
Definition root_count (calls : list call) : nat :=
  length (filter (has_flag ROOT) calls).

(** A compression without the ROOT flag. *)
Definition plain (c : call) : Prop := has_flag ROOT c = false.

(** A log whose last compression carries ROOT, and no other does. *)
Definition root_last (calls : list call) : Prop :=
  exists pre c,
    calls = pre ++ [c] /\ Forall plain pre /\ has_flag ROOT c = true.

Lemma plain_count calls : Forall plain calls -> root_count calls = 0%nat.
Proof.
  unfold root_count. induction 1 as [|c calls Hc _ IH]; simpl.
  - reflexivity.
  - unfold plain in Hc. rewrite Hc. exact IH.
Qed.

Lemma root_last_count calls :
  root_last calls ->
  root_count calls = 1%nat /\
  option_map (has_flag ROOT) (last_call calls) = Some true.
Proof.
  intros (pre & c & -> & Hpre & Hc). split.
  - unfold root_count. rewrite filter_app, length_app.
    fold (root_count pre). rewrite (plain_count pre Hpre).
    simpl. rewrite Hc. reflexivity.
  - rewrite (last_call_app pre [c] c (last_call_single c)). simpl.
    rewrite Hc. reflexivity.
Qed.

Lemma root_last_snoc calls c :
  Forall plain calls -> has_flag ROOT c = true -> root_last (calls ++ [c]).
Proof. intros H Hc. exists calls, c. auto. Qed.

(** The flags of a block of [hash]: without ROOT unless the block is the
    last one of a chunk that ends with [CHUNK_END | ROOT]. *)
Lemma block_flags_plain cv m counter blockLen (isFirst isLast : bool) :
  plain (Call cv m counter blockLen
           (let blockFlags := 0 in
            let blockFlags :=
              if isFirst then JS.or blockFlags CHUNK_START else blockFlags in
            if isLast then JS.or blockFlags CHUNK_END else blockFlags)).
Proof. destruct isFirst, isLast; reflexivity. Qed.

Lemma block_flags_root cv m counter blockLen (isFirst isLast : bool) :
  has_flag ROOT
    (Call cv m counter blockLen
       (let blockFlags := 0 in
        let blockFlags :=
          if isFirst then JS.or blockFlags CHUNK_START else blockFlags in
        if isLast then JS.or blockFlags (JS.or CHUNK_END ROOT)
        else blockFlags)) = isLast.
Proof. destruct isFirst, isLast; reflexivity. Qed.

Section BlockFlags.

Variable read : Z -> Z -> list Z.
Variables chunkStart chunkLen counter : Z.

(** A chunk that is not the whole input: no block carries ROOT. *)
Lemma chunk_blocks_plain cv0 :
Forall plain
  (snd (block_loop read CHUNK_END chunkStart chunkLen counter 0 cv0)).
Proof.
unfold block_loop.
pose proof (while_ind block_cond
              (block_body read CHUNK_END chunkStart chunkLen counter 0)
              (fun st => Forall plain (snd st))) as H.
specialize (H ltac:(
  intros [[[cv pos] n] calls] Hall _; cbn [block_body snd] in *;
  apply Forall_app; split; [exact Hall|];
  constructor; [apply block_flags_plain | constructor])).
specialize (H (Z.to_nat (block_count chunkLen))
              (cv0, 0, block_count chunkLen, []) (Forall_nil _)).
destruct (JS.while _ _ _ _) as [[[cv pos] n] calls]. exact H.
Qed.

(** The blocks yet to come, and what the log holds meanwhile. *)
Definition single_inv (st : list Z * Z * Z * list call) : Prop :=
let '(_, _, blocksRemaining, calls) := st in
(1 <= blocksRemaining /\ Forall plain calls)
\/ (blocksRemaining = 0 /\ root_last calls).

Lemma single_step st :
single_inv st -> block_cond st = true ->
single_inv
  (block_body read (JS.or CHUNK_END ROOT) chunkStart chunkLen counter 0 st)
/\ (Z.to_nat (snd (fst (block_body read (JS.or CHUNK_END ROOT) chunkStart
                          chunkLen counter 0 st)))
    < Z.to_nat (snd (fst st)))%nat.
Proof.
destruct st as [[[cv pos] n] calls]. unfold single_inv, block_cond.
intros Hinv Hc. apply Z.ltb_lt in Hc.
destruct Hinv as [[Hn Hall]|[Hn _]]; [|lia].
cbn [block_body fst snd]. split; [|lia].
destruct (n =? 1) eqn:E.
- right. apply Z.eqb_eq in E. split; [lia|].
  apply root_last_snoc; [exact Hall|].
  rewrite (block_flags_root _ _ _ _ (pos =? 0) true). reflexivity.
- left. apply Z.eqb_neq in E. split; [lia|].
  apply Forall_app. split; [exact Hall|].
  constructor; [|constructor]. unfold plain.
  rewrite (block_flags_root _ _ _ _ (pos =? 0) false). reflexivity.
Qed.

(** An input of one chunk: exactly the last block carries ROOT. *)
Lemma single_chunk_root_last cv0 :
0 <= chunkLen ->
root_last
  (snd (block_loop read (JS.or CHUNK_END ROOT) chunkStart chunkLen counter
          0 cv0)).
Proof.
intros Hlen. unfold block_loop.
pose proof (block_count_pos chunkLen Hlen) as Hcount.
destruct (while_total block_cond
            (block_body read (JS.or CHUNK_END ROOT) chunkStart chunkLen
               counter 0)
            single_inv (fun st => Z.to_nat (snd (fst st))) single_step
            (Z.to_nat (block_count chunkLen))
            (cv0, 0, block_count chunkLen, []))
  as [Hinv Hstop].
- left. split; [exact Hcount | constructor].
- apply Nat.le_refl.
- destruct (JS.while _ _ _ _) as [[[cv pos] n] calls].
  unfold single_inv in Hinv. unfold block_cond in Hstop.
  apply Z.ltb_ge in Hstop.
  destruct Hinv as [[Hn _]|[_ Hroot]]; [lia | exact Hroot].
Qed.

End BlockFlags.

Section TreeFlags.

Variable chunk : Z -> list Z * list call.
Variable merge_eager : list Z -> list Z -> list Z * list call.
Variable merge_final : list Z -> list Z -> bool -> list Z * list call.
Variable numChunks : Z.

Hypothesis chunk_plain : forall c, Forall plain (snd (chunk c)).
Hypothesis merge_eager_plain : forall l r, Forall plain (snd (merge_eager l r)).
Hypothesis merge_inner_plain :
forall l r, Forall plain (snd (merge_final l r false)).
Hypothesis merge_root :
forall l r, exists cv c,
  merge_final l r true = (cv, [c]) /\ has_flag ROOT c = true.
Hypothesis at_least_two : 2 <= numChunks.

Lemma eager_body_plain st :
Forall plain (snd st) -> Forall plain (snd (eager_body merge_eager st)).
Proof.
destruct st as [[t stack] calls]. simpl. intros H.
destruct stack as [|r [|l rest]]; try exact H.
pose proof (merge_eager_plain l r) as Hm.
destruct (merge_eager l r) as [cv made]. simpl in *.
apply Forall_app. split; assumption.
Qed.

Lemma push_chunk_plain guarded c cv stack calls :
Forall plain calls ->
Forall plain (snd (push_chunk merge_eager guarded numChunks c cv stack calls)).
Proof.
intros H. unfold push_chunk.
destruct (guarded && (c =? numChunks - 1)); [exact H|].
pose proof (while_ind eager_cond (eager_body merge_eager)
              (fun st => Forall plain (snd st))
              (fun st Hst _ => eager_body_plain st Hst)
              (length (cv :: stack)) (c + 1, cv :: stack, calls) H) as Hw.
destruct (JS.while _ _ _ _) as [[t stack'] calls']. exact Hw.
Qed.

(** In the guarded loop the final chunk is pushed onto a stack that is
  not empty, and nothing is merged after it. *)
Definition guarded_inv (st : Z * list (list Z) * list call) : Prop :=
let '(c, stack, calls) := st in
0 <= c <= numChunks
/\ (1 <= c -> stack <> [])
/\ (c = numChunks -> (2 <= length stack)%nat)
/\ Forall plain calls.

Lemma guarded_step st :
guarded_inv st -> chunks_cond numChunks st = true ->
guarded_inv (chunks_body chunk merge_eager true numChunks st)
/\ (Z.to_nat (numChunks
              - fst (fst (chunks_body chunk merge_eager true numChunks st)))
    < Z.to_nat (numChunks - fst (fst st)))%nat.
Proof.
destruct st as [[c stack] calls]. unfold guarded_inv, chunks_cond.
intros (Hc & Hne & _ & Hall) Hlt. apply Z.ltb_lt in Hlt.
unfold chunks_body.
pose proof (chunk_plain c) as Hchunk.
destruct (chunk c) as [cv made]. cbn [snd] in Hchunk.
assert (Hall' : Forall plain (calls ++ made))
  by (apply Forall_app; split; assumption).
pose proof (push_chunk_plain true c cv stack (calls ++ made) Hall') as Hp.
pose proof (push_chunk_nonempty merge_eager true numChunks c cv stack
              (calls ++ made)) as Hpn.
assert (Hlast : c + 1 = numChunks ->
          fst (push_chunk merge_eager true numChunks c cv stack
                 (calls ++ made)) = cv :: stack).
{ intros Hc1. unfold push_chunk.
  replace (c =? numChunks - 1) with true by (symmetry; apply Z.eqb_eq; lia).
  reflexivity. }
destruct (push_chunk _ _ _ _ _ _ _) as [stack' calls'].
cbn [fst snd] in *. split; [|lia].
repeat split; try lia.
- intros _. exact Hpn.
- intros Hc1. rewrite (Hlast Hc1).
  destruct stack as [|top rest]; [|simpl; lia].
  exfalso. apply Hne; [lia | reflexivity].
- exact Hp.
Qed.

Definition final_inv (st : list (list Z) * list call) : Prop :=
let '(stack, calls) := st in
((2 <= length stack)%nat /\ Forall plain calls)
\/ (length stack = 1%nat /\ root_last calls).

Lemma final_step st :
final_inv st -> final_cond st = true ->
final_inv (final_body merge_final st)
/\ (length (fst (final_body merge_final st)) < length (fst st))%nat.
Proof.
destruct st as [stack calls]. unfold final_inv, final_cond.
intros Hinv Hc. apply Z.ltb_lt in Hc.
destruct Hinv as [[Hlen Hall]|[Hlen _]]; [|lia].
destruct stack as [|r [|l rest]]; simpl in Hlen; try lia.
cbn [final_body].
destruct rest as [|x rest'].
- change (Z.of_nat (length (@nil (list Z))) =? 0) with true.
  destruct (merge_root l r) as (cv & c & Hm & Hroot). rewrite Hm.
  split; [|simpl; lia]. right. split; [reflexivity|].
  apply root_last_snoc; assumption.
- replace (Z.of_nat (length (x :: rest')) =? 0) with false
    by (symmetry; apply Z.eqb_neq; simpl; lia).
  pose proof (merge_inner_plain l r) as Hm.
  destruct (merge_final l r false) as [cv made]. cbn [fst snd] in *.
  split; [|simpl; lia]. left. split; [simpl; lia|].
  apply Forall_app. split; assumption.
Qed.

(** The log of the guarded tree: exactly the last compression, the last
  of the final merges, carries ROOT. *)
Lemma tree_root_last :
root_last (snd (tree chunk merge_eager merge_final true numChunks)).
Proof.
unfold tree, chunks_loop.
destruct (while_total (chunks_cond numChunks)
            (chunks_body chunk merge_eager true numChunks)
            guarded_inv (fun st => Z.to_nat (numChunks - fst (fst st)))
            guarded_step (Z.to_nat numChunks) (0, [], []))
  as [Hinv Hstop].
- unfold guarded_inv. repeat split; try lia. constructor.
- simpl. lia.
- destruct (JS.while _ _ _ _) as [[c stack] calls].
  unfold guarded_inv in Hinv. unfold chunks_cond in Hstop.
  apply Z.ltb_ge in Hstop. destruct Hinv as (Hc & _ & Hlen & Hall).
  specialize (Hlen ltac:(lia)).
  unfold final_merges.
  destruct (while_total final_cond (final_body merge_final) final_inv
              (fun st => length (fst st)) final_step
              (length (fst (stack, calls))) (stack, calls))
    as [Hfin Hend].
  + left. split; assumption.
  + apply Nat.le_refl.
  + destruct (JS.while _ _ _ (stack, calls)) as [stack' calls'].
    unfold final_inv in Hfin. unfold final_cond in Hend.
    apply Z.ltb_ge in Hend. cbn [snd].
    destruct Hfin as [[Hl _]|[_ Hroot]]; [lia | exact Hroot].
Qed.

End TreeFlags.

(** The log of [hash]: one compression with ROOT, the last one. *)
Lemma hash_root_last le bo input :
  root_last (snd (hash_root le bo 0 input)).
Proof.
  unfold hash_root. destruct (len8 input <=? CHUNK_LEN) eqn:E.
  - pose proof (single_chunk_root_last (read_fast le bo input) 0 (len8 input)
                  0 IV ltac:(unfold len8; lia)) as H.
    destruct (block_loop _ _ _ _ _ _ _) as [cv calls]. exact H.
  - apply Z.leb_gt in E. apply tree_root_last.
    + intros c. apply chunk_blocks_plain.
    + intros l r. constructor; [reflexivity | constructor].
    + intros l r. constructor; [reflexivity | constructor].
    + intros l r. eexists _, _. split; reflexivity.
    + apply ceil_div_chunks, E.
Qed.

(** ** The stack of subtree CVs in the chunk loop *)

(** The two operations of the eager-merge loop on the chunk count, which
    fits in 32 bits. *)
Lemma and_1_even t : 0 <= t < 2 ^ 31 -> (JS.and t 1 =? 0) = Z.even t.
Proof.
  intros H. unfold JS.and.
  rewrite (ToInt32_small t), (ToInt32_small 1) by lia.
  change (Z.land t 1) with (Z.land t (Z.ones 1)).
  rewrite Z.land_ones by lia. change (2 ^ 1) with 2.
  rewrite Zmod_even. destruct (Z.even t); reflexivity.
Qed.

Lemma sar_1_half t : 0 <= t < 2 ^ 31 -> JS.sar t 1 = t / 2.
Proof.
  intros H. unfold JS.sar. rewrite (ToInt32_small t) by lia.
  change (Z.land 1 31) with 1. rewrite Z.shiftr_div_pow2 by lia.
  reflexivity.
Qed.

(** A number is an odd number times a power of two in one way only. *)
Lemma odd_pow2_lt (a b : Z) (j d : nat) :
  (2 * a + 1) * 2 ^ Z.of_nat j
  <> (2 * b + 1) * 2 ^ Z.of_nat (j + S d).
Proof.
  rewrite Nat2Z.inj_add, Nat2Z.inj_succ, Z.pow_add_r, Z.pow_succ_r by lia.
  assert (Hp : 0 < 2 ^ Z.of_nat j) by (apply Z.pow_pos_nonneg; lia).
  intros H.
  assert (H' : (2 * a + 1) = 2 * ((2 * b + 1) * 2 ^ Z.of_nat d)).
  { apply Z.mul_cancel_r with (p := 2 ^ Z.of_nat j); lia. }
  remember ((2 * b + 1) * 2 ^ Z.of_nat d) as y. lia.
Qed.

Lemma odd_pow2_unique (a b : Z) (j h : nat) :
  (2 * a + 1) * 2 ^ Z.of_nat j = (2 * b + 1) * 2 ^ Z.of_nat h -> j = h.
Proof.
  intros H. destruct (Nat.lt_trichotomy j h) as [Hlt|[Heq|Hgt]].
  - exfalso. apply (odd_pow2_lt a b j (h - j - 1)).
    replace (j + S (h - j - 1))%nat with h by lia. exact H.
  - exact Heq.
  - exfalso. apply (odd_pow2_lt b a h (j - h - 1)).
    replace (h + S (j - h - 1))%nat with j by lia. symmetry. exact H.
Qed.

(** A stack entry stands for a complete subtree: [(h, s)] is the subtree
    of height [h] over the chunks [s .. s + 2^h - 1].  The entries below
    the top tile the chunks before it, each aligned to twice its size. *)
Fixpoint tiling (entries : list (nat * Z)) (n : Z) : Prop :=
  match entries with
  | [] => n = 0
  | (h, s) :: rest =>
      n = s + 2 ^ Z.of_nat h /\ 0 <= s
      /\ (2 ^ (Z.of_nat h + 1) | s) /\ tiling rest s
  end.

Lemma tiling_nonneg entries n : tiling entries n -> 0 <= n.
Proof.
  destruct entries as [|[h s] rest]; simpl.
  - lia.
  - intros (-> & Hs & _). pose proof (Z.pow_pos_nonneg 2 (Z.of_nat h)). lia.
Qed.

(** The heights on the stack are the set bits of the chunk count. *)
Lemma tiling_bits entries : forall n, tiling entries n ->
  forall k : nat, In k (map fst entries) <-> Z.testbit n (Z.of_nat k) = true.
Proof.
  induction entries as [|[h s] rest IH]; simpl; intros n Hn k.
  - subst n. rewrite Z.bits_0. split; [tauto | discriminate].
  - destruct Hn as (-> & Hs & [c Hc] & Hrest).
    rewrite (IH s Hrest k).
    assert (Hbit : Z.testbit (s + 2 ^ Z.of_nat h) (Z.of_nat k)
                   = (Z.of_nat h =? Z.of_nat k) || Z.testbit s (Z.of_nat k)).
    { rewrite Z.add_comm, Hc.
      rewrite <- lor_disjoint.
      - rewrite Z.lor_spec, Z.pow2_bits_eqb by lia. reflexivity.
      - lia.
      - split; [apply Z.pow_nonneg; lia|].
        apply Z.pow_lt_mono_r; lia. }
    rewrite Hbit, orb_true_iff, Z.eqb_eq. split.
    + intros [->|H]; [left; reflexivity | right; exact H].
    + intros [H|H]; [left; lia | right; exact H].
Qed.

Lemma tiling_above h s rest :
  (2 ^ (Z.of_nat h + 1) | s) -> tiling rest s ->
  Forall (fun k => (h < k)%nat) (map fst rest).
Proof.
  intros [c Hc] Hrest. apply Forall_forall. intros k Hk.
  apply (tiling_bits rest s Hrest) in Hk.
  destruct (Nat.lt_ge_cases h k) as [Hlt|Hge]; [exact Hlt|].
  rewrite Hc, Z.mul_pow2_bits_low in Hk by lia. discriminate.
Qed.

(** From the top of the stack to its bottom the heights grow strictly. *)
Lemma tiling_sorted entries : forall n, tiling entries n ->
  StronglySorted lt (map fst entries).
Proof.
  induction entries as [|[h s] rest IH]; simpl; intros n Hn.
  - constructor.
  - destruct Hn as (_ & _ & Hdiv & Hrest). constructor.
    + apply (IH s Hrest).
    + apply tiling_above with s; assumption.
Qed.

Lemma multiple_step a b m : 0 < m -> (m | a) -> (m | b) -> a < b -> a + m <= b.
Proof.
  intros Hm [x ->] [y ->] Hlt.
  assert (x < y) by (apply Z.mul_lt_mono_pos_r with m; assumption).
  nia.
Qed.

(** Where each subtree on the stack starts. *)
Lemma tiling_within entries : forall n, tiling entries n ->
  forall h s, In (h, s) entries ->
  s <= n < s + 2 ^ (Z.of_nat h + 1) /\ (2 ^ (Z.of_nat h + 1) | s).
Proof.
  induction entries as [|[h0 s0] rest IH]; simpl; intros n Hn h s Hin.
  - contradiction.
  - destruct Hn as (-> & Hs0 & Hdiv & Hrest).
    assert (Hp0 : 0 < 2 ^ Z.of_nat h0) by (apply Z.pow_pos_nonneg; lia).
    assert (Hd0 : 2 ^ (Z.of_nat h0 + 1) = 2 * 2 ^ Z.of_nat h0).
    { rewrite Z.pow_add_r by lia. change (2 ^ 1) with 2. lia. }
    destruct Hin as [Heq|Hin].
    + injection Heq as <- <-. split; [lia | exact Hdiv].
    + destruct (IH s0 Hrest h s Hin) as [Hr Hd]. split; [|exact Hd].
      assert (Hlt : (h0 < h)%nat).
      { pose proof (tiling_above h0 s0 rest Hdiv Hrest) as Ha.
        rewrite Forall_forall in Ha. apply Ha.
        apply in_map_iff. exists (h, s). split; [reflexivity | exact Hin]. }
      assert (Hm : (2 ^ (Z.of_nat h0 + 1) | s + 2 ^ (Z.of_nat h + 1))).
      { assert (Hpow : (2 ^ (Z.of_nat h0 + 1) | 2 ^ (Z.of_nat h + 1))).
        { exists (2 ^ (Z.of_nat h - Z.of_nat h0)).
          rewrite <- Z.pow_add_r by lia. f_equal. lia. }
        apply Z.divide_add_r; [|exact Hpow].
        apply Z.divide_trans with (2 ^ (Z.of_nat h + 1)); assumption. }
      pose proof (multiple_step s0 (s + 2 ^ (Z.of_nat h + 1))
                    (2 ^ (Z.of_nat h0 + 1)) ltac:(lia) Hdiv Hm ltac:(lia)).
      lia.
Qed.

Lemma tiling_start entries n h s :
  tiling entries n -> In (h, s) entries ->
  s = 2 ^ (Z.of_nat h + 1) * (n / 2 ^ (Z.of_nat h + 1)).
Proof.
  intros Hn Hin.
  destruct (tiling_within entries n Hn h s Hin) as [Hr [c Hc]].
  assert (Hp : 0 < 2 ^ (Z.of_nat h + 1)) by (apply Z.pow_pos_nonneg; lia).
  assert (Hq : n / 2 ^ (Z.of_nat h + 1) = c).
  { symmetry. apply Z.div_unique with (n - s); lia. }
  rewrite Hq. lia.
Qed.

Lemma sorted_below_length (l : list nat) (b : nat) :
  StronglySorted lt l -> Forall (fun k => (k < b)%nat) l ->
  (length l <= b)%nat.
Proof.
  intros Hs Hb.
  assert (Hnd : NoDup l).
  { induction Hs as [|k l Hs IH Hk]; constructor.
    - intros Hin. rewrite Forall_forall in Hk. specialize (Hk k Hin). lia.
    - apply IH. inversion Hb; assumption. }
  apply Nat.le_trans with (length (seq 0 b)); [|rewrite length_seq; lia].
  apply NoDup_incl_length; [exact Hnd|].
  intros k Hk. rewrite Forall_forall in Hb. specialize (Hb k Hk).
  apply in_seq. lia.
Qed.

(** A chunk count below [2^b] leaves at most [b] subtrees. *)
Lemma tiling_length entries n (b : nat) :
  tiling entries n -> n < 2 ^ Z.of_nat b -> (length entries <= b)%nat.
Proof.
  intros Hn Hb. rewrite <- (length_map fst).
  apply sorted_below_length; [apply tiling_sorted with n; exact Hn|].
  apply Forall_forall. intros k Hk.
  apply (tiling_bits entries n Hn) in Hk.
  destruct (Nat.lt_ge_cases k b) as [Hlt|Hge]; [exact Hlt|].
  pose proof (tiling_nonneg entries n Hn) as H0.
  destruct (Z.eq_dec n 0) as [->|Hnz]; [rewrite Z.bits_0 in Hk; discriminate|].
  rewrite Z.bits_above_log2 in Hk; [discriminate | lia |].
  apply Z.log2_lt_pow2; [lia|].
  apply Z.lt_le_trans with (2 ^ Z.of_nat b); [exact Hb|].
  apply Z.pow_le_mono_r; lia.
Qed.

Section Stack.

Variable chunk : Z -> list Z * list call.
Variable merge_eager : list Z -> list Z -> list Z * list call.
Variable guarded : bool.
Variable numChunks : Z.

(** The CV of the complete subtree of height [h] whose first chunk is
  [start]. *)
Fixpoint subtree (h : nat) (start : Z) : list Z :=
match h with
| O => fst (chunk start)
| S h' =>
    fst (merge_eager (subtree h' start)
           (subtree h' (start + 2 ^ Z.of_nat h')))
end.

Definition entry_cv (e : nat * Z) : list Z := subtree (fst e) (snd e).

(** During the eager merges after chunk [n - 1]: the top of the stack is
  the subtree of the last [2^j] chunks, and [totalChunks] counts the
  subtrees of that size in the first [n] chunks. *)
Definition eager_inv (n : Z) (st : Z * list (list Z) * list call) : Prop :=
let '(totalChunks, cvStack, _) := st in
exists (j : nat) (rest : list (nat * Z)),
  cvStack = subtree j ((totalChunks - 1) * 2 ^ Z.of_nat j)
            :: map entry_cv rest
  /\ tiling rest ((totalChunks - 1) * 2 ^ Z.of_nat j)
  /\ totalChunks * 2 ^ Z.of_nat j = n
  /\ 1 <= totalChunks < 2 ^ 31.

Definition stack_height (st : Z * list (list Z) * list call) : nat :=
let '(_, cvStack, _) := st in length cvStack.

Lemma eager_step n st :
eager_inv n st -> eager_cond st = true ->
eager_inv n (eager_body merge_eager st)
/\ (stack_height (eager_body merge_eager st) < stack_height st)%nat.
Proof.
destruct st as [[total stack] calls].
intros (j & rest & -> & Hrest & Hn & Ht) Hc.
unfold eager_cond in Hc. apply andb_true_iff in Hc. destruct Hc as [Hev Hlen].
rewrite and_1_even in Hev by lia.
destruct rest as [|[h1 s1] tl].
{ simpl in Hlen. discriminate. }
simpl in Hrest. destruct Hrest as (Hs & Hs1 & [k Hk] & Htl).
apply Z.even_spec in Hev. destruct Hev as [t' Ht'].
assert (Hd1 : 2 ^ (Z.of_nat h1 + 1) = 2 * 2 ^ Z.of_nat h1).
{ rewrite Z.pow_add_r by lia. change (2 ^ 1) with 2. lia. }
assert (Hj : j = h1).
{ apply (odd_pow2_unique (t' - 1) k). rewrite Hd1 in Hk. lia. }
subst h1.
assert (Hp : 0 < 2 ^ Z.of_nat j) by (apply Z.pow_pos_nonneg; lia).
simpl eager_body. change (entry_cv (j, s1)) with (subtree j s1).
destruct (merge_eager (subtree j s1)
            (subtree j ((total - 1) * 2 ^ Z.of_nat j))) as [cv made] eqn:Hm.
split; [|simpl; lia].
unfold eager_inv. exists (S j), tl.
rewrite sar_1_half by lia.
assert (Hhalf : total / 2 = t').
{ subst total. rewrite Z.mul_comm. apply Z.div_mul. lia. }
rewrite Hhalf.
assert (Hpow : 2 ^ Z.of_nat (S j) = 2 * 2 ^ Z.of_nat j).
{ rewrite Nat2Z.inj_succ, Z.pow_succ_r by lia. reflexivity. }
assert (Hstart : (t' - 1) * 2 ^ Z.of_nat (S j) = s1) by (rewrite Hpow; lia).
rewrite Hstart. repeat split.
- f_equal. simpl subtree.
  replace (s1 + 2 ^ Z.of_nat j) with ((total - 1) * 2 ^ Z.of_nat j) by lia.
  rewrite Hm. reflexivity.
- exact Htl.
- rewrite Hpow. lia.
- lia.
- lia.
Qed.

Lemma eager_exit n st :
eager_inv n st -> eager_cond st = false ->
exists entries,
  snd (fst st) = map entry_cv entries /\ tiling entries n.
Proof.
destruct st as [[total stack] calls].
intros (j & rest & -> & Hrest & Hn & Ht) Hc.
exists ((j, (total - 1) * 2 ^ Z.of_nat j) :: rest).
split; [reflexivity|].
assert (Hp : 0 < 2 ^ Z.of_nat j) by (apply Z.pow_pos_nonneg; lia).
simpl. repeat split.
- lia.
- nia.
- unfold eager_cond in Hc. apply andb_false_iff in Hc.
  rewrite and_1_even in Hc by lia.
  rewrite Z.pow_add_r by lia. change (2 ^ 1) with 2.
  destruct Hc as [Hodd|Hlen].
  + assert (Hev : Z.even (total - 1) = true).
    { rewrite Z.even_sub, Hodd. reflexivity. }
    apply Z.even_spec in Hev. destruct Hev as [t' Ht'].
    exists t'. rewrite Ht'. ring.
  + destruct rest as [|e rest'];
    [|apply Z.leb_gt in Hlen; cbn [length map] in Hlen; lia].
    simpl in Hrest. rewrite Hrest. apply Z.divide_0_r.
- exact Hrest.
Qed.

(** Pushing the CV of a chunk that is not the last one. *)
Lemma push_chunk_tiling c entries calls :
0 <= c < numChunks - 1 -> numChunks <= 2 ^ 31 -> tiling entries c ->
exists entries',
  fst (push_chunk merge_eager guarded numChunks c (fst (chunk c))
         (map entry_cv entries) calls)
  = map entry_cv entries'
  /\ tiling entries' (c + 1).
Proof.
intros Hc Hmax Hentries. unfold push_chunk.
replace (c =? numChunks - 1) with false by (symmetry; apply Z.eqb_neq; lia).
rewrite andb_false_r.
set (st0 := (c + 1, fst (chunk c) :: map entry_cv entries, calls)).
assert (H0 : eager_inv (c + 1) st0).
{ unfold st0, eager_inv. exists O, entries.
  change (2 ^ Z.of_nat 0) with 1.
  replace ((c + 1 - 1) * 1) with c by lia.
  repeat split; try lia. exact Hentries. }
destruct (while_total eager_cond (eager_body merge_eager)
            (eager_inv (c + 1)) stack_height
            (fun s Hs Hcs => eager_step (c + 1) s Hs Hcs)
            (length (fst (chunk c) :: map entry_cv entries)) st0 H0
            (Nat.le_refl _)) as [Hinv Hstop].
destruct (eager_exit (c + 1) _ Hinv Hstop) as (entries' & Hst & Ht).
exists entries'. split; [|exact Ht].
fold st0.
destruct (JS.while _ eager_cond (eager_body merge_eager) st0)
  as [[t stack] calls'].
exact Hst.
Qed.

(** After [n] iterations of the chunk loop, none of them on the last
  chunk, the stack is a tiling of the first [n] chunks. *)
Lemma chunks_loop_tiling (n : nat) :
Z.of_nat n < numChunks -> numChunks <= 2 ^ 31 ->
exists entries calls,
  chunks_loop chunk merge_eager guarded numChunks n
  = (Z.of_nat n, map entry_cv entries, calls)
  /\ tiling entries (Z.of_nat n).
Proof.
intros Hn Hmax. induction n as [|n IH].
- exists [], []. split; reflexivity.
- destruct IH as (entries & calls & Hst & Ht); [lia|].
  unfold chunks_loop in *.
  replace (S n) with (n + 1)%nat by lia.
  rewrite while_add, Hst. cbn [JS.while].
  replace (chunks_cond numChunks (Z.of_nat n, map entry_cv entries, calls))
    with true by (symmetry; apply Z.ltb_lt; lia).
  unfold chunks_body.
  destruct (chunk (Z.of_nat n)) as [cv made] eqn:Hcv.
  destruct (push_chunk_tiling (Z.of_nat n) entries (calls ++ made))
    as (entries' & Hpush & Ht'); [lia | exact Hmax | exact Ht |].
  rewrite Hcv in Hpush. cbn [fst] in Hpush.
  destruct (push_chunk merge_eager guarded numChunks (Z.of_nat n) cv
              (map entry_cv entries) (calls ++ made)) as [stack calls'].
  cbn [fst] in Hpush. subst stack.
  exists entries', calls'. split.
  + f_equal. f_equal. lia.
  + replace (Z.of_nat (n + 1)) with (Z.of_nat n + 1) by lia. exact Ht'.
Qed.

(** The first [n] iterations of the chunk loop are a prefix of the whole
  loop. *)
Lemma chunks_loop_prefix (n : nat) :
Z.of_nat n <= numChunks ->
chunks_loop chunk merge_eager guarded numChunks (Z.to_nat numChunks)
= JS.while (Z.to_nat numChunks - n) (chunks_cond numChunks)
    (chunks_body chunk merge_eager guarded numChunks)
    (chunks_loop chunk merge_eager guarded numChunks n).
Proof.
intros Hn. unfold chunks_loop.
rewrite <- while_add. f_equal. lia.
Qed.

End Stack.


(** ** The ROOT flag in [keyedHash] *)

(** A chunk count that is a power of two leaves one subtree, and only
    such a count does. *)
Lemma tiling_single entries n :
  tiling entries n -> 1 <= n ->
  (length entries = 1%nat <-> exists k : nat, n = 2 ^ Z.of_nat k).
Proof.
  intros Ht Hn. split.
  - destruct entries as [|[h s] [|e rest]]; simpl; try discriminate.
    intros _. destruct Ht as (Hsum & _ & _ & Hs). simpl in Hs.
    exists h. lia.
  - intros [k ->].
    destruct entries as [|[h s] rest]; [simpl in Ht; lia|].
    destruct rest as [|[h2 s2] rest]; [reflexivity|]. exfalso.
    pose proof (tiling_bits _ _ Ht) as Hbits.
    pose proof (tiling_sorted _ _ Ht) as Hsort.
    assert (Hk : forall j : nat, In j (map fst ((h, s) :: (h2, s2) :: rest)) ->
                 j = k).
    { intros j Hj. apply Hbits in Hj.
      rewrite Z.pow2_bits_eqb in Hj by lia. apply Z.eqb_eq in Hj. lia. }
    pose proof (Hk h ltac:(simpl; auto)).
    pose proof (Hk h2 ltac:(simpl; auto)).
    simpl in Hsort. inversion Hsort as [|? ? _ Hall]; subst.
    inversion Hall; subst. lia.
Qed.

Section Unguarded.

Variable chunk : Z -> list Z * list call.
Variable merge_eager : list Z -> list Z -> list Z * list call.
Variable merge_final : list Z -> list Z -> bool -> list Z * list call.
Variable numChunks : Z.

(** Without the guard every chunk is followed by its eager merges, the
  last chunk too: after [n] chunks the stack is a tiling of them. *)
Lemma unguarded_loop_tiling (n : nat) :
Z.of_nat n <= numChunks -> numChunks < 2 ^ 31 ->
exists entries calls,
  chunks_loop chunk merge_eager false numChunks n
  = (Z.of_nat n, map (entry_cv chunk merge_eager) entries, calls)
  /\ tiling entries (Z.of_nat n).
Proof.
intros Hn Hmax. induction n as [|n IH].
- exists [], []. split; reflexivity.
- destruct IH as (entries & calls & Hst & Ht); [lia|].
  unfold chunks_loop in *.
  replace (S n) with (n + 1)%nat by lia.
  rewrite while_add, Hst. cbn [JS.while].
  replace (chunks_cond numChunks
             (Z.of_nat n, map (entry_cv chunk merge_eager) entries, calls))
    with true by (symmetry; apply Z.ltb_lt; lia).
  unfold chunks_body.
  destruct (chunk (Z.of_nat n)) as [cv made] eqn:Hcv.
  destruct (push_chunk_tiling chunk merge_eager false (Z.of_nat n + 2)
              (Z.of_nat n) entries (calls ++ made))
    as (entries' & Hpush & Ht'); [lia | lia | exact Ht |].
  rewrite Hcv in Hpush. cbn [fst] in Hpush.
  change (push_chunk merge_eager false (Z.of_nat n + 2) (Z.of_nat n) cv
            (map (entry_cv chunk merge_eager) entries) (calls ++ made))
    with (push_chunk merge_eager false numChunks (Z.of_nat n) cv
            (map (entry_cv chunk merge_eager) entries) (calls ++ made))
    in Hpush.
  destruct (push_chunk merge_eager false numChunks (Z.of_nat n) cv
              (map (entry_cv chunk merge_eager) entries) (calls ++ made))
    as [stack calls'].
  cbn [fst] in Hpush. subst stack.
  exists entries', calls'. split.
  + f_equal. f_equal. lia.
  + replace (Z.of_nat (n + 1)) with (Z.of_nat n + 1) by lia. exact Ht'.
Qed.

Hypothesis chunk_plain : forall c, Forall plain (snd (chunk c)).
Hypothesis merge_eager_plain : forall l r, Forall plain (snd (merge_eager l r)).
Hypothesis merge_inner_plain :
forall l r, Forall plain (snd (merge_final l r false)).
Hypothesis merge_root :
forall l r, exists cv c,
  merge_final l r true = (cv, [c]) /\ has_flag ROOT c = true.

Lemma chunks_loop_plain guarded (n : nat) :
Forall plain (snd (chunks_loop chunk merge_eager guarded numChunks n)).
Proof.
unfold chunks_loop.
apply (while_ind (chunks_cond numChunks)
         (chunks_body chunk merge_eager guarded numChunks)
         (fun st => Forall plain (snd st))); [|constructor].
intros [[c stack] calls] Hall _. cbn [snd] in Hall. unfold chunks_body.
pose proof (chunk_plain c) as Hc. destruct (chunk c) as [cv made].
cbn [snd] in Hc.
pose proof (push_chunk_plain merge_eager numChunks merge_eager_plain
              guarded c cv stack (calls ++ made)
              ltac:(apply Forall_app; split; assumption)) as Hp.
destruct (push_chunk _ _ _ _ _ _ _) as [stack' calls']. exact Hp.
Qed.

(** The final merges: from two or more entries they end with the one
  ROOT compression; a single entry is left as it is. *)
Lemma final_merges_root stack calls :
Forall plain calls ->
((2 <= length stack)%nat ->
 root_last (snd (final_merges merge_final (stack, calls))))
/\ (length stack = 1%nat ->
    snd (final_merges merge_final (stack, calls)) = calls).
Proof.
intros Hall. split; intros Hlen.
- unfold final_merges.
  destruct (while_total final_cond (final_body merge_final) final_inv
              (fun st => length (fst st))
              (final_step merge_final merge_inner_plain merge_root)
              (length (fst (stack, calls))) (stack, calls))
    as [Hfin Hend].
  + left. split; assumption.
  + apply Nat.le_refl.
  + destruct (JS.while _ _ _ (stack, calls)) as [stack' calls'].
    unfold final_inv in Hfin. unfold final_cond in Hend.
    apply Z.ltb_ge in Hend. cbn [snd].
    destruct Hfin as [[Hl _]|[_ Hroot]]; [lia | exact Hroot].
- unfold final_merges. rewrite while_false; [reflexivity|].
  unfold final_cond. apply Z.ltb_ge. lia.
Qed.

(** The log of the unguarded tree has its one ROOT compression at the
  end, unless the number of chunks is a power of two: then it has
  none. *)
Lemma unguarded_tree_root :
2 <= numChunks < 2 ^ 31 ->
((exists k : nat, numChunks = 2 ^ Z.of_nat k) ->
 Forall plain (snd (tree chunk merge_eager merge_final false numChunks)))
/\ (~ (exists k : nat, numChunks = 2 ^ Z.of_nat k) ->
    root_last (snd (tree chunk merge_eager merge_final false numChunks))).
Proof.
intros Hn. unfold tree.
destruct (unguarded_loop_tiling (Z.to_nat numChunks) ltac:(lia) ltac:(lia))
  as (entries & calls & Hst & Ht).
pose proof (chunks_loop_plain false (Z.to_nat numChunks)) as Hplain.
rewrite Hst in *. cbn [snd] in Hplain.
rewrite Z2Nat.id in Ht by lia.
pose proof (tiling_single entries numChunks Ht ltac:(lia)) as Hone.
destruct (final_merges_root (map (entry_cv chunk merge_eager) entries)
            calls Hplain) as [Hmany Hsingle].
rewrite length_map in Hmany, Hsingle.
destruct (final_merges merge_final _) as [stack' calls'].
cbn [snd] in *. split.
- intros Hpow. apply Hone in Hpow. rewrite (Hsingle Hpow). exact Hplain.
- intros Hnot. apply Hmany.
  destruct entries as [|e [|e2 rest]]; simpl in *; try lia.
  exfalso. apply Hnot, Hone. reflexivity.
Qed.

End Unguarded.

(** The flags of the blocks of [keyedHash]. *)
Lemma keyed_block_flags_plain cv m counter blockLen (isFirst isLast : bool) :
  plain (Call cv m counter blockLen
           (let blockFlags := KEYED_HASH in
            let blockFlags :=
              if isFirst then JS.or blockFlags CHUNK_START else blockFlags in
            if isLast then JS.or blockFlags CHUNK_END else blockFlags)).
Proof. destruct isFirst, isLast; reflexivity. Qed.

Lemma keyed_block_flags_root cv m counter blockLen (isFirst isLast : bool) :
  has_flag ROOT
    (Call cv m counter blockLen
       (let blockFlags := KEYED_HASH in
        let blockFlags :=
          if isFirst then JS.or blockFlags CHUNK_START else blockFlags in
        if isLast then JS.or blockFlags (JS.or CHUNK_END ROOT)
        else blockFlags)) = isLast.
Proof. destruct isFirst, isLast; reflexivity. Qed.

Section KeyedBlocks.

Variable read : Z -> Z -> list Z.
Variables chunkStart chunkLen counter : Z.

Lemma keyed_chunk_plain cv0 :
Forall plain
  (snd (block_loop read CHUNK_END chunkStart chunkLen counter KEYED_HASH
          cv0)).
Proof.
unfold block_loop.
pose proof (while_ind block_cond
              (block_body read CHUNK_END chunkStart chunkLen counter
                 KEYED_HASH)
              (fun st => Forall plain (snd st))) as H.
specialize (H ltac:(
  intros [[[cv pos] n] calls] Hall _; cbn [block_body snd] in *;
  apply Forall_app; split; [exact Hall|];
  constructor; [apply keyed_block_flags_plain | constructor])).
specialize (H (Z.to_nat (block_count chunkLen))
              (cv0, 0, block_count chunkLen, []) (Forall_nil _)).
destruct (JS.while _ _ _ _) as [[[cv pos] n] calls]. exact H.
Qed.

Lemma keyed_single_step st :
single_inv st -> block_cond st = true ->
single_inv
  (block_body read (JS.or CHUNK_END ROOT) chunkStart chunkLen counter
     KEYED_HASH st)
/\ (Z.to_nat (snd (fst (block_body read (JS.or CHUNK_END ROOT) chunkStart
                          chunkLen counter KEYED_HASH st)))
    < Z.to_nat (snd (fst st)))%nat.
Proof.
destruct st as [[[cv pos] n] calls]. unfold single_inv, block_cond.
intros Hinv Hc. apply Z.ltb_lt in Hc.
destruct Hinv as [[Hn Hall]|[Hn _]]; [|lia].
cbn [block_body fst snd]. split; [|lia].
destruct (n =? 1) eqn:E.
- right. apply Z.eqb_eq in E. split; [lia|].
  apply root_last_snoc; [exact Hall|].
  rewrite (keyed_block_flags_root _ _ _ _ (pos =? 0) true). reflexivity.
- left. apply Z.eqb_neq in E. split; [lia|].
  apply Forall_app. split; [exact Hall|].
  constructor; [|constructor]. unfold plain.
  rewrite (keyed_block_flags_root _ _ _ _ (pos =? 0) false). reflexivity.
Qed.

Lemma keyed_single_root_last cv0 :
0 <= chunkLen ->
root_last
  (snd (block_loop read (JS.or CHUNK_END ROOT) chunkStart chunkLen counter
          KEYED_HASH cv0)).
Proof.
intros Hlen. unfold block_loop.
pose proof (block_count_pos chunkLen Hlen) as Hcount.
destruct (while_total block_cond
            (block_body read (JS.or CHUNK_END ROOT) chunkStart chunkLen
               counter KEYED_HASH)
            single_inv (fun st => Z.to_nat (snd (fst st))) keyed_single_step
            (Z.to_nat (block_count chunkLen))
            (cv0, 0, block_count chunkLen, []))
  as [Hinv Hstop].
- left. split; [exact Hcount | constructor].
- apply Nat.le_refl.
- destruct (JS.while _ _ _ _) as [[[cv pos] n] calls].
  unfold single_inv in Hinv. unfold block_cond in Hstop.
  apply Z.ltb_ge in Hstop.
  destruct Hinv as [[Hn _]|[_ Hroot]]; [lia | exact Hroot].
Qed.

End KeyedBlocks.

(** The log of [keyedHash] under a key of 32 bytes. *)
Lemma keyedHash_root_flag keyWords input :
  len8 input < 2 ^ 40 ->
  ((exists k : nat, (1 <= k)%nat /\
      JS.ceil_div (len8 input) CHUNK_LEN = 2 ^ Z.of_nat k) ->
   Forall plain (snd (keyedHash_root keyWords input)))
  /\ (~ (exists k : nat, (1 <= k)%nat /\
           JS.ceil_div (len8 input) CHUNK_LEN = 2 ^ Z.of_nat k) ->
      root_last (snd (keyedHash_root keyWords input))).
Proof.
  intros Hmax. unfold keyedHash_root.
  destruct (len8 input <=? CHUNK_LEN) eqn:E.
  - apply Z.leb_le in E.
    assert (Hsmall : JS.ceil_div (len8 input) CHUNK_LEN <= 1).
    { unfold JS.ceil_div, CHUNK_LEN in *. Z.div_mod_to_equations. lia. }
    pose proof (keyed_single_root_last (readBlock input) 0 (len8 input) 0
                  keyWords ltac:(unfold len8; lia)) as Hroot.
    destruct (block_loop _ _ _ _ _ _ _) as [cv calls]. cbn [snd] in *.
    split; [|intros _; exact Hroot].
    intros (k & Hk & Hpow). exfalso.
    assert (2 ^ 1 <= 2 ^ Z.of_nat k) by (apply Z.pow_le_mono_r; lia).
    change (2 ^ 1) with 2 in *. lia.
  - apply Z.leb_gt in E.
    pose proof (ceil_div_chunks _ E) as Hn.
    assert (Hlt : JS.ceil_div (len8 input) CHUNK_LEN < 2 ^ 31).
    { unfold JS.ceil_div, CHUNK_LEN. apply Z.div_lt_upper_bound; lia. }
    match goal with
    | |- context [tree ?c ?m ?f false ?n] =>
        destruct (unguarded_tree_root c m f n) as [Hpow Hnot]
    end.
    + intros c. apply keyed_chunk_plain.
    + intros l r. constructor; [reflexivity | constructor].
    + intros l r. constructor; [reflexivity | constructor].
    + intros l r. eexists _, _. split; reflexivity.
    + lia.
    + split.
      * intros (k & _ & Hk). apply Hpow. exists k. exact Hk.
      * intros Hno. apply Hnot. intros [k Hk]. apply Hno. exists k.
        split; [|exact Hk].
        destruct k; [|lia]. change (2 ^ Z.of_nat 0) with 1 in Hk. lia.
Qed.

(** ** The batched loop of [hashWasmSimd] *)

(** The stack does not depend on the log, and of the merge functions only
    the CV they return matters. *)
Lemma eager_sim (m1 m2 : list Z -> list Z -> list Z * list call) :
  (forall l r, fst (m1 l r) = fst (m2 l r)) ->
  forall fuel s t, fst s = fst t ->
  fst (JS.while fuel eager_cond (eager_body m1) s)
  = fst (JS.while fuel eager_cond (eager_body m2) t).
Proof.
  intros Hm.
  apply (while_sim (fun s t : Z * list (list Z) * list call => fst s = fst t)).
  - intros [[t1 st1] c1] [[t2 st2] c2] H. simpl in H.
    injection H as -> ->. reflexivity.
  - intros [[t1 st1] c1] [[t2 st2] c2] H _. simpl in H.
    injection H as -> ->. simpl.
    destruct st2 as [|r [|l rest]]; try reflexivity.
    specialize (Hm l r). destruct (m1 l r), (m2 l r). simpl in *.
    subst. reflexivity.
Qed.

Lemma push_chunk_sim m1 m2 guarded numChunks c cv stack calls1 calls2 :
  (forall l r, fst (m1 l r) = fst (m2 l r)) ->
  fst (push_chunk m1 guarded numChunks c cv stack calls1)
  = fst (push_chunk m2 guarded numChunks c cv stack calls2).
Proof.
  intros Hm. unfold push_chunk.
  destruct (guarded && (c =? numChunks - 1)); [reflexivity|].
  pose proof (eager_sim m1 m2 Hm (length (cv :: stack))
                (c + 1, cv :: stack, calls1) (c + 1, cv :: stack, calls2)
                eq_refl) as H.
  destruct (JS.while _ _ (eager_body m1) _) as [[t1 s1] c1].
  destruct (JS.while _ _ (eager_body m2) _) as [[t2 s2] c2].
  simpl in *. congruence.
Qed.

Lemma final_sim (m1 m2 : list Z -> list Z -> bool -> list Z * list call) :
  (forall l r b, fst (m1 l r b) = fst (m2 l r b)) ->
  forall stack calls1 calls2,
  fst (final_merges m1 (stack, calls1)) = fst (final_merges m2 (stack, calls2)).
Proof.
  intros Hm stack calls1 calls2. unfold final_merges. cbn [fst].
  apply (while_sim (fun s t : list (list Z) * list call => fst s = fst t));
    [| |reflexivity].
  - intros [st1 c1] [st2 c2] H. simpl in H. subst. reflexivity.
  - intros [st1 c1] [st2 c2] H _. simpl in H. subst. simpl.
    destruct st2 as [|r [|l rest]]; try reflexivity.
    specialize (Hm l r (Z.of_nat (length rest) =? 0)).
    destruct (m1 l r _), (m2 l r _). simpl in *. subst. reflexivity.
Qed.

Lemma ceil_div_rest len c :
  JS.ceil_div (len - c * CHUNK_LEN) CHUNK_LEN = JS.ceil_div len CHUNK_LEN - c.
Proof.
  unfold JS.ceil_div, CHUNK_LEN.
  replace (len - c * 1024 + 1024 - 1) with (len + 1024 - 1 + (- c) * 1024)
    by lia.
  rewrite Z.div_add by lia. lia.
Qed.

Lemma offset_in_input len c :
  (c * CHUNK_LEN <? len) = (c <? JS.ceil_div len CHUNK_LEN).
Proof.
  unfold JS.ceil_div, CHUNK_LEN.
  destruct (Z.ltb_spec (c * 1024) len), (Z.ltb_spec c ((len + 1024 - 1) / 1024));
    try reflexivity; exfalso; Z.div_mod_to_equations; lia.
Qed.

Section Batches.

Variable IS_LITTLE_ENDIAN : bool.
Variable byteOffset : Z.
Variable input : list byte.

(** The loop of [hash] reads a chunk as the loop of [hashWasmSimd]
  does. *)
Lemma hash_chunk_simd c :
0 <= c ->
hash_chunk IS_LITTLE_ENDIAN byteOffset 0 input c
= simd_chunk input (c * CHUNK_LEN) c.
Proof.
intros Hc. unfold hash_chunk, processChunk, simd_chunk. cbv zeta.
apply block_loop_ext. intros pos len Hpos.
apply read_fast_readBlock. unfold CHUNK_LEN. lia.
Qed.

(** What one chunk does to the stack, in either loop. *)
Definition stack_step (c : Z) (cvStack : list (list Z)) : list (list Z) :=
fst (push_chunk simd_merge_eager true (JS.ceil_div (len8 input) CHUNK_LEN)
       c (fst (simd_chunk input (c * CHUNK_LEN) c)) cvStack []).

Lemma chunks_body_stack c cvStack calls :
0 <= c ->
exists calls',
  chunks_body (hash_chunk IS_LITTLE_ENDIAN byteOffset 0 input)
    (fun left right => mergeParents left right 0 false)
    true (JS.ceil_div (len8 input) CHUNK_LEN) (c, cvStack, calls)
  = (c + 1, stack_step c cvStack, calls').
Proof.
intros Hc. unfold chunks_body, stack_step.
rewrite (hash_chunk_simd c Hc).
destruct (simd_chunk input (c * CHUNK_LEN) c) as [cv made]. cbn [fst].
pose proof (push_chunk_sim
              (fun left right => mergeParents left right 0 false)
              simd_merge_eager true (JS.ceil_div (len8 input) CHUNK_LEN)
              c cv cvStack (calls ++ made) []
              (fun l r => eq_refl)) as H.
destruct (push_chunk (fun left right => mergeParents left right 0 false)
            _ _ _ _ _ _) as [stack' calls'].
cbn [fst] in H. subst stack'. exists calls'. reflexivity.
Qed.

Lemma simd_push_stack c cv cvStack calls :
cv = fst (simd_chunk input (c * CHUNK_LEN) c) ->
fst (push_chunk simd_merge_eager true (JS.ceil_div (len8 input) CHUNK_LEN)
       c cv cvStack calls)
= stack_step c cvStack.
Proof.
intros ->. unfold stack_step. apply push_chunk_sim. reflexivity.
Qed.

(** One iteration of the batched loop: four chunks when four are left,
  else one. *)
Lemma simd_body_stack c cvStack calls :
exists calls',
  simd_body true input (c * CHUNK_LEN, c, cvStack, calls)
  = if 4 <=? JS.ceil_div (len8 input) CHUNK_LEN - c then
      ((c + 4) * CHUNK_LEN, c + 4,
       stack_step (c + 3)
         (stack_step (c + 2) (stack_step (c + 1) (stack_step c cvStack))),
       calls')
    else ((c + 1) * CHUNK_LEN, c + 1, stack_step c cvStack, calls').
Proof.
unfold simd_body. rewrite ceil_div_rest, andb_true_r.
set (n := JS.ceil_div (len8 input) CHUNK_LEN).
assert (Hmin : (4 <=? Z.min 4 (n - c)) = (4 <=? n - c)).
{ destruct (Z.leb_spec 4 (n - c)) as [H|H].
  - rewrite Z.min_l by lia. reflexivity.
  - rewrite Z.min_r by lia. apply Z.leb_gt. lia. }
rewrite Hmin. destruct (4 <=? n - c).
- replace (c * CHUNK_LEN + 0 * CHUNK_LEN) with (c * CHUNK_LEN) by lia.
  replace (c * CHUNK_LEN + 1 * CHUNK_LEN) with ((c + 1) * CHUNK_LEN) by lia.
  replace (c * CHUNK_LEN + 2 * CHUNK_LEN) with ((c + 2) * CHUNK_LEN) by lia.
  replace (c * CHUNK_LEN + 3 * CHUNK_LEN) with ((c + 3) * CHUNK_LEN) by lia.
  replace (c * CHUNK_LEN + 4 * CHUNK_LEN) with ((c + 4) * CHUNK_LEN) by lia.
  replace (c + 0) with c by lia.
  destruct (simd_chunk input (c * CHUNK_LEN) c) as [cv0 made0] eqn:E0.
  destruct (simd_chunk input ((c + 1) * CHUNK_LEN) (c + 1))
    as [cv1 made1] eqn:E1.
  destruct (simd_chunk input ((c + 2) * CHUNK_LEN) (c + 2))
    as [cv2 made2] eqn:E2.
  destruct (simd_chunk input ((c + 3) * CHUNK_LEN) (c + 3))
    as [cv3 made3] eqn:E3.
  pose proof (simd_push_stack c cv0 cvStack
                (calls ++ made0 ++ made1 ++ made2 ++ made3)
                ltac:(rewrite E0; reflexivity)) as H0.
  fold n in H0.
  destruct (push_chunk simd_merge_eager true n c cv0 _ _)
    as [stack0 calls0]. cbn [fst] in H0. subst stack0.
  pose proof (simd_push_stack (c + 1) cv1 (stack_step c cvStack) calls0
                ltac:(rewrite E1; reflexivity)) as H1.
  fold n in H1.
  destruct (push_chunk simd_merge_eager true n (c + 1) cv1 _ _)
    as [stack1 calls1]. cbn [fst] in H1. subst stack1.
  pose proof (simd_push_stack (c + 2) cv2
                (stack_step (c + 1) (stack_step c cvStack)) calls1
                ltac:(rewrite E2; reflexivity)) as H2.
  fold n in H2.
  destruct (push_chunk simd_merge_eager true n (c + 2) cv2 _ _)
    as [stack2 calls2]. cbn [fst] in H2. subst stack2.
  pose proof (simd_push_stack (c + 3) cv3
                (stack_step (c + 2)
                   (stack_step (c + 1) (stack_step c cvStack))) calls2
                ltac:(rewrite E3; reflexivity)) as H3.
  fold n in H3.
  destruct (push_chunk simd_merge_eager true n (c + 3) cv3 _ _)
    as [stack3 calls3]. cbn [fst] in H3. subst stack3.
  exists calls3. reflexivity.
- destruct (simd_chunk input (c * CHUNK_LEN) c) as [cv made] eqn:E.
  pose proof (simd_push_stack c cv cvStack (calls ++ made)
                ltac:(rewrite E; reflexivity)) as H.
  fold n in H.
  destruct (push_chunk simd_merge_eager true n c cv _ _)
    as [stack' calls']. cbn [fst] in H. subst stack'.
  exists calls'. f_equal. f_equal. f_equal. lia.
Qed.

(** The batched loop leaves the stack that the loop of [hash] leaves. *)
Lemma simd_loop_stack (fuel : nat) :
forall c cvStack calls calls',
0 <= c ->
(Z.to_nat (JS.ceil_div (len8 input) CHUNK_LEN - c) <= fuel)%nat ->
snd (fst (JS.while fuel (simd_cond input) (simd_body true input)
            (c * CHUNK_LEN, c, cvStack, calls)))
= snd (fst (JS.while (Z.to_nat (JS.ceil_div (len8 input) CHUNK_LEN - c))
              (chunks_cond (JS.ceil_div (len8 input) CHUNK_LEN))
              (chunks_body (hash_chunk IS_LITTLE_ENDIAN byteOffset 0 input)
                 (fun left right => mergeParents left right 0 false)
                 true (JS.ceil_div (len8 input) CHUNK_LEN))
              (c, cvStack, calls'))).
Proof.
set (n := JS.ceil_div (len8 input) CHUNK_LEN).
set (hbody := chunks_body (hash_chunk IS_LITTLE_ENDIAN byteOffset 0 input)
                (fun left right => mergeParents left right 0 false) true n).
assert (Hone : forall k c cvStack calls, 0 <= c -> c < n ->
          exists calls',
            JS.while (S k) (chunks_cond n) hbody (c, cvStack, calls)
            = JS.while k (chunks_cond n) hbody
                (c + 1, stack_step c cvStack, calls')).
{ intros k c cvStack calls Hc Hlt.
  rewrite while_step by (apply Z.ltb_lt; exact Hlt).
  destruct (chunks_body_stack c cvStack calls Hc) as [calls' H].
  fold n in H. fold hbody in H. rewrite H. exists calls'. reflexivity. }
induction fuel as [|fuel IH]; intros c cvStack calls calls' Hc Hfuel.
- replace (Z.to_nat (n - c)) with 0%nat by lia. reflexivity.
- destruct (Z.lt_ge_cases c n) as [Hlt|Hge].
  + rewrite while_step
      by (unfold simd_cond; rewrite offset_in_input; apply Z.ltb_lt; exact Hlt).
    destruct (simd_body_stack c cvStack calls) as [calls1 Hbody].
    fold n in Hbody. rewrite Hbody. clear Hbody.
    destruct (Z.leb_spec 4 (n - c)) as [H4|H4].
    * replace (Z.to_nat (n - c))
        with (S (S (S (S (Z.to_nat (n - (c + 4))))))) by lia.
      destruct (Hone (S (S (S (Z.to_nat (n - (c + 4)))))) c cvStack calls'
                  Hc Hlt) as [d0 ->].
      destruct (Hone (S (S (Z.to_nat (n - (c + 4))))) (c + 1)
                  (stack_step c cvStack) d0 ltac:(lia) ltac:(lia))
        as [d1 ->].
      destruct (Hone (S (Z.to_nat (n - (c + 4)))) (c + 1 + 1)
                  (stack_step (c + 1) (stack_step c cvStack)) d1
                  ltac:(lia) ltac:(lia)) as [d2 ->].
      destruct (Hone (Z.to_nat (n - (c + 4))) (c + 1 + 1 + 1)
                  (stack_step (c + 1 + 1)
                     (stack_step (c + 1) (stack_step c cvStack))) d2
                  ltac:(lia) ltac:(lia)) as [d3 ->].
      replace (c + 1 + 1) with (c + 2) by lia.
      replace (c + 2 + 1) with (c + 3) by lia.
      replace (c + 3 + 1) with (c + 4) by lia.
      apply IH; lia.
    * replace (Z.to_nat (n - c)) with (S (Z.to_nat (n - (c + 1)))) by lia.
      destruct (Hone (Z.to_nat (n - (c + 1))) c cvStack calls' Hc Hlt)
        as [d0 ->].
      apply IH; lia.
  + replace (Z.to_nat (n - c)) with 0%nat by lia.
    rewrite while_false; [reflexivity|].
    unfold simd_cond. rewrite offset_in_input. apply Z.ltb_ge. exact Hge.
Qed.

(** Once [compress4x] is installed, the batched path builds the root CV
  that [hash] builds. *)
Lemma hashWasmSimd_root_cv :
fst (hashWasmSimd_root true input)
= fst (hash_root IS_LITTLE_ENDIAN byteOffset 0 input).
Proof.
unfold hashWasmSimd_root. rewrite orb_false_r.
destruct (len8 input <=? CHUNK_LEN) eqn:E.
- apply Z.leb_le in E.
  rewrite (hash_root_single IS_LITTLE_ENDIAN byteOffset 0 input E).
  reflexivity.
- unfold hash_root. rewrite E. unfold tree, chunks_loop.
  pose proof (simd_loop_stack
                (Z.to_nat (JS.ceil_div (len8 input) CHUNK_LEN))
                0 [] [] [] (Z.le_refl 0) ltac:(lia)) as H.
  change (0 * CHUNK_LEN) with 0 in H. rewrite Z.sub_0_r in H.
  destruct (JS.while _ (simd_cond input) _ _) as [[[off cnt] stack1] calls1].
  destruct (JS.while _ (chunks_cond _) _ _) as [[c stack2] calls2].
  cbn [fst snd] in H. subst stack2.
  pose proof (final_sim simd_merge_final
                (fun left right isRoot => mergeParents left right 0 isRoot)
                ltac:(intros l r [|]; reflexivity) stack1 calls1 calls2)
    as Hf.
  destruct (final_merges simd_merge_final _) as [s1 c1].
  destruct (final_merges _ (stack1, calls2)) as [s2 c2].
  cbn [fst] in *. subst s2. reflexivity.
Qed.

End Batches.


(** * The other entry points *)

(** ** The single-threaded [hash] of [blake3-workers.ts] *)

Module Workers.

(** [compress], [readBlock], [cvToBytes] and [mergeParents] of this file
  repeat those of [blake3.ts] statement for statement; [processChunk]
  has no fast path. *)
Definition processChunk (input : list byte)
  (chunkStart chunkLen chunkCounter flags : Z) : list Z * list call :=
block_loop (readBlock input) CHUNK_END chunkStart chunkLen chunkCounter
  flags IV.

Definition hash_root (input : list byte) : option (list Z) * list call :=
let flags := 0 in
if len8 input <=? CHUNK_LEN then
  let '(cv, calls) :=
    block_loop (readBlock input) (JS.or CHUNK_END ROOT) 0 (len8 input) 0
      flags IV in
  (Some cv, calls)
else
  (* Multi-chunk single-threaded *)
  let numChunks := JS.ceil_div (len8 input) CHUNK_LEN in
  tree
    (fun c =>
       let chunkStart := c * CHUNK_LEN in
       let chunkLen := Z.min CHUNK_LEN (len8 input - chunkStart) in
       processChunk input chunkStart chunkLen c flags)
    (fun left right => mergeParents left right flags false)
    (fun left right isRoot => mergeParents left right flags isRoot)
    true numChunks.

Definition hash_run (input : list byte) (outputLen : Z)
  : outcome (list byte) * list call :=
finish (hash_root input) outputLen.

Definition hash (input : list byte) (outputLen : Z) : outcome (list byte) :=
fst (hash_run input outputLen).

(** *** The worker pool

  [workers] holds the [Worker] objects, here the index each was created
  with; [workerBlobUrl] is left out. *)
Record pool : Type := { workers : list Z; numWorkers : Z }.

(** [let workers = []; let numWorkers = 0;] *)
Definition no_pool : pool := {| workers := []; numWorkers := 0 |}.

Definition terminateWorkers (p : pool) : pool :=
{| workers := []; numWorkers := 0 |}.

(** [count ?? (typeof navigator !== 'undefined' ?
  navigator.hardwareConcurrency : 4) ?? 4]; [hardwareConcurrency] is
  [None] where there is no [navigator] or it does not say. *)
Definition initWorkers (hardwareConcurrency count : option Z) (p : pool)
  : pool :=
let targetCount :=
  match count with
  | Some c => c
  | None => match hardwareConcurrency with Some h => h | None => 4 end
  end in
if Z.of_nat (length (workers p)) =? targetCount then p
else
  let p := terminateWorkers p in
  let '(_, created) :=
    JS.while (Z.to_nat targetCount)
      (fun st : Z * list Z => fst st <? targetCount)
      (fun st : Z * list Z => (fst st + 1, snd st ++ [fst st]))
      (0, []) in
  {| workers := created; numWorkers := targetCount |}.

Definition getWorkerCount (p : pool) : Z := numWorkers p.

(** *** [hashWorkers]

  The worker pool is [workers]; only its length matters here.  Each
  worker runs [workerCode]: it answers the one message it is sent with
  [{ startChunk, cvs }], and [Promise.all] gives the answers in the order
  of dispatch.  The log is that of the main thread. *)

(** [self.onmessage] of [workerCode], on the state [(c, cvs)] of its
  [for (let c = startChunk; c < endChunk; c++)]. *)
Definition onmessage_cond (endChunk : Z) (st : Z * list (list Z)) : bool :=
let '(c, _) := st in c <? endChunk.

Definition onmessage_body (data : list byte) (flags : Z)
  (st : Z * list (list Z)) : Z * list (list Z) :=
let '(c, cvs) := st in
let chunkStart := c * CHUNK_LEN in
let chunkLen := Z.min CHUNK_LEN (len8 data - chunkStart) in
let '(cv, _) :=
  block_loop (readBlock data) CHUNK_END chunkStart chunkLen c flags IV in
(c + 1, cvs ++ [cv]).

Definition onmessage (data : list byte) (startChunk endChunk flags : Z)
  : Z * list (list Z) :=
let '(_, cvs) :=
  JS.while (Z.to_nat (endChunk - startChunk)) (onmessage_cond endChunk)
    (onmessage_body data flags) (startChunk, []) in
(startChunk, cvs).

(** [for (let i = 0; i < workers.length; i++)] with its [break], on the
  state [(i, promises)]; a promise is held as the answer it resolves
  to. *)
Definition dispatch_cond (workers_length numChunks chunksPerWorker : Z)
  (st : Z * list (Z * list (list Z))) : bool :=
let '(i, _) := st in
(i <? workers_length) && negb (numChunks <=? i * chunksPerWorker).

Definition dispatch_body (input : list byte) (flags numChunks chunksPerWorker : Z)
  (st : Z * list (Z * list (list Z))) : Z * list (Z * list (list Z)) :=
let '(i, promises) := st in
let startChunk := i * chunksPerWorker in
let endChunk := Z.min (startChunk + chunksPerWorker) numChunks in
(i + 1, promises ++ [onmessage input startChunk endChunk flags]).

(** [results.sort((a, b) => a.startChunk - b.startChunk)]: a stable sort,
  here by insertion. *)
Fixpoint sort_insert (r : Z * list (list Z)) (l : list (Z * list (list Z)))
  : list (Z * list (list Z)) :=
match l with
| [] => [r]
| x :: t => if fst r - fst x <? 0 then r :: x :: t else x :: sort_insert r t
end.

Definition sort (results : list (Z * list (list Z)))
  : list (Z * list (list Z)) :=
fold_left (fun sorted r => sort_insert r sorted) results [].

(** [allCvs.push(new Uint32Array(cv))] for every CV of every result. *)
Definition flatten (results : list (Z * list (list Z))) : list (list Z) :=
concat (map (fun result => map (map JS.ToUint32) (snd result)) results).

Definition hashWorkers_root (workers_length : Z) (input : list byte)
  : option (list Z) * list call :=
let flags := 0 in
if (len8 input <=? CHUNK_LEN) || (workers_length =? 0) then
  let '(_, calls0) := processChunk input 0 (len8 input) 0 flags in
  let '(finalCv, calls) :=
    block_loop (readBlock input) (JS.or CHUNK_END ROOT) 0 (len8 input) 0
      flags IV in
  (Some finalCv, calls0 ++ calls)
else
  let numChunks := JS.ceil_div (len8 input) CHUNK_LEN in
  let chunksPerWorker := JS.ceil_div numChunks workers_length in
  let '(_, promises) :=
    JS.while (Z.to_nat workers_length)
      (dispatch_cond workers_length numChunks chunksPerWorker)
      (dispatch_body input flags numChunks chunksPerWorker) (0, []) in
  let results := sort promises in
  let allCvs := flatten results in
  tree (fun i => (nth (Z.to_nat i) allCvs [], []))
    (fun left right => mergeParents left right flags false)
    (fun left right isRoot => mergeParents left right flags isRoot)
    true (Z.of_nat (length allCvs)).

Definition hashWorkers_run (workers_length : Z) (input : list byte)
  (outputLen : Z) : outcome (list byte) * list call :=
finish (hashWorkers_root workers_length input) outputLen.

Definition hashWorkers (workers_length : Z) (input : list byte)
  (outputLen : Z) : outcome (list byte) :=
fst (hashWorkers_run workers_length input outputLen).

End Workers.

(** The two single-threaded copies make the same compressions. *)
Lemma workers_hash_root le bo input :
  Workers.hash_root input = hash_root le bo 0 input.
Proof.
  unfold Workers.hash_root. destruct (len8 input <=? CHUNK_LEN) eqn:E.
  - apply Z.leb_le in E. rewrite (hash_root_single le bo 0 input E).
    reflexivity.
  - unfold hash_root. rewrite E. apply tree_ext. intros c Hc.
    symmetry. apply (hash_chunk_simd le bo input c). lia.
Qed.

(** ** [hashWorkers] against [hash] *)

(** The words of a CV are 32-bit words already. *)
Lemma compress_words cv m counter blockLen flags :
  map JS.ToUint32 (compress cv m counter blockLen flags)
  = compress cv m counter blockLen flags.
Proof.
  unfold compress.
  destruct (JS.while 7 round_cond round_body _) as [[i s] m'].
  destruct s. rewrite map_map. apply map_ext. intros x.
  apply ToUint32_small, ToUint32_range.
Qed.

Lemma block_loop_words read lastFlags chunkStart chunkLen counter flags cv0 :
  0 <= chunkLen ->
  map JS.ToUint32
    (fst (block_loop read lastFlags chunkStart chunkLen counter flags cv0))
  = fst (block_loop read lastFlags chunkStart chunkLen counter flags cv0).
Proof.
  intros Hlen. unfold block_loop.
  pose proof (block_count_pos chunkLen Hlen) as Hcount.
  destruct (Z.to_nat (block_count chunkLen)) as [|fuel] eqn:Hfuel; [lia|].
  rewrite while_step by (unfold block_cond; apply Z.ltb_lt; lia).
  pose proof (while_ind block_cond
                (block_body read lastFlags chunkStart chunkLen counter flags)
                (fun st : list Z * Z * Z * list call =>
                   map JS.ToUint32 (fst (fst (fst st))) = fst (fst (fst st))))
    as H.
  specialize (H ltac:(intros [[[cv pos] n] calls] _ _;
                      cbn [block_body fst]; apply compress_words)).
  specialize (H fuel
                (block_body read lastFlags chunkStart chunkLen counter flags
                   (cv0, 0, block_count chunkLen, []))
                ltac:(cbn [block_body fst]; apply compress_words)).
  destruct (JS.while fuel _ _ _) as [[[cv pos] n] calls]. exact H.
Qed.

(** The integers [a, a + 1, ..., a + n - 1]. *)
Definition zrange (a : Z) (n : nat) : list Z :=
  map (fun k => a + Z.of_nat k) (seq 0 n).

Lemma zrange_S a n : zrange a (S n) = zrange a n ++ [a + Z.of_nat n].
Proof. unfold zrange. rewrite seq_S, map_app. reflexivity. Qed.

Lemma zrange_app a n m :
  zrange a (n + m) = zrange a n ++ zrange (a + Z.of_nat n) m.
Proof.
  induction m as [|m IH].
  - rewrite Nat.add_0_r. unfold zrange at 3. simpl. rewrite app_nil_r.
    reflexivity.
  - rewrite Nat.add_succ_r, !zrange_S, IH, <- app_assoc.
    do 3 f_equal. lia.
Qed.

Lemma length_zrange a n : length (zrange a n) = n.
Proof. unfold zrange. rewrite length_map, length_seq. reflexivity. Qed.

Lemma nth_zrange a n k d : (k < n)%nat -> nth k (zrange a n) d = a + Z.of_nat k.
Proof.
  intros H. unfold zrange.
  rewrite (nth_indep _ d (a + Z.of_nat 0)) by (rewrite length_map, length_seq; exact H).
  rewrite (map_nth (fun k => a + Z.of_nat k)), seq_nth by exact H.
  reflexivity.
Qed.

Lemma in_zrange a n x : In x (zrange a n) -> a <= x < a + Z.of_nat n.
Proof.
  unfold zrange. rewrite in_map_iff. intros (k & <- & Hk).
  apply in_seq in Hk. lia.
Qed.

Section WorkerPool.

Variable input : list byte.

(** The CV of chunk [c], as every path of the file computes it. *)
Definition chunk_cv (c : Z) : list Z :=
fst (simd_chunk input (c * CHUNK_LEN) c).

Definition onmessage_inv (startChunk endChunk : Z)
  (st : Z * list (list Z)) : Prop :=
startChunk <= fst st <= endChunk /\
snd st = map chunk_cv (zrange startChunk (Z.to_nat (fst st - startChunk))).

Lemma onmessage_step startChunk endChunk st :
onmessage_inv startChunk endChunk st ->
Workers.onmessage_cond endChunk st = true ->
onmessage_inv startChunk endChunk (Workers.onmessage_body input 0 st)
/\ (Z.to_nat (endChunk - fst (Workers.onmessage_body input 0 st))
    < Z.to_nat (endChunk - fst st))%nat.
Proof.
destruct st as [c cvs]. intros [Hc Hcvs] Hcond. cbn [fst snd] in *.
unfold Workers.onmessage_cond in Hcond. apply Z.ltb_lt in Hcond.
unfold Workers.onmessage_body, onmessage_inv.
assert (Hcv : fst (block_loop (readBlock input) CHUNK_END (c * CHUNK_LEN)
                     (Z.min CHUNK_LEN (len8 input - c * CHUNK_LEN)) c 0 IV)
              = chunk_cv c) by reflexivity.
destruct (block_loop (readBlock input) CHUNK_END (c * CHUNK_LEN)
            (Z.min CHUNK_LEN (len8 input - c * CHUNK_LEN)) c 0 IV)
  as [cv made].
cbn [fst snd] in *. split; [|lia]. split; [lia|].
replace (Z.to_nat (c + 1 - startChunk))
  with (S (Z.to_nat (c - startChunk))) by lia.
rewrite zrange_S, map_app, Hcvs. cbn [map]. rewrite Hcv.
do 3 f_equal. lia.
Qed.

Lemma onmessage_cvs startChunk endChunk :
startChunk <= endChunk ->
Workers.onmessage input startChunk endChunk 0
= (startChunk,
   map chunk_cv (zrange startChunk (Z.to_nat (endChunk - startChunk)))).
Proof.
intros Hle. unfold Workers.onmessage.
destruct (while_total (Workers.onmessage_cond endChunk)
            (Workers.onmessage_body input 0)
            (onmessage_inv startChunk endChunk)
            (fun st => Z.to_nat (endChunk - fst st))
            (onmessage_step startChunk endChunk)
            (Z.to_nat (endChunk - startChunk)) (startChunk, []))
  as [HP Hstop].
- unfold onmessage_inv. cbn [fst snd]. split; [lia|].
  rewrite Z.sub_diag. reflexivity.
- cbn [fst]. lia.
- destruct (JS.while _ _ _ _) as [c cvs]. destruct HP as [Hc Hcvs].
  unfold Workers.onmessage_cond in Hstop. apply Z.ltb_ge in Hstop.
  cbn [fst snd] in *. replace c with endChunk in Hcvs by lia.
  rewrite Hcvs. reflexivity.
Qed.

(** Results in the order of their first chunk. *)
Definition by_startChunk (a b : Z * list (list Z)) : Prop := fst a <= fst b.

Lemma sort_insert_last r l :
Forall (fun x => fst x <= fst r) l -> Workers.sort_insert r l = l ++ [r].
Proof.
induction 1 as [|x l Hx _ IH]; simpl; [reflexivity|].
replace (fst r - fst x <? 0) with false by (symmetry; apply Z.ltb_ge; lia).
rewrite IH. reflexivity.
Qed.

Lemma sorted_app_head (acc : list (Z * list (list Z))) r t :
StronglySorted by_startChunk (acc ++ r :: t) ->
Forall (fun x => fst x <= fst r) acc.
Proof.
induction acc as [|a acc IH]; simpl; intros H; [constructor|].
inversion H as [|? ? Hs Hall]; subst. constructor.
- rewrite Forall_forall in Hall. apply (Hall r).
  apply in_or_app. right. left. reflexivity.
- apply IH, Hs.
Qed.

Lemma sorted_snoc (l : list (Z * list (list Z))) r :
StronglySorted by_startChunk l -> Forall (fun x => fst x <= fst r) l ->
StronglySorted by_startChunk (l ++ [r]).
Proof.
induction 1 as [|a l Hs IH Ha]; simpl; intros Hall.
- constructor; constructor.
- inversion Hall; subst. constructor; [apply IH; assumption|].
  apply Forall_app. split; [exact Ha|]. constructor; [assumption|constructor].
Qed.

(** Sorting results that are in order already changes nothing. *)
Lemma sort_sorted l :
StronglySorted by_startChunk l -> Workers.sort l = l.
Proof.
unfold Workers.sort.
assert (H : forall l acc, StronglySorted by_startChunk (acc ++ l) ->
          fold_left (fun sorted r => Workers.sort_insert r sorted) l acc
          = acc ++ l).
{ clear l. induction l as [|r t IH]; intros acc Hs; simpl.
  - rewrite app_nil_r. reflexivity.
  - rewrite (sort_insert_last r acc) by (apply sorted_app_head with t; exact Hs).
    rewrite IH; rewrite <- app_assoc; [reflexivity | exact Hs]. }
intros Hs. apply (H l []). exact Hs.
Qed.

Section Dispatch.

Variables workers_length numChunks chunksPerWorker : Z.
Hypothesis some_worker : 1 <= workers_length.
Hypothesis some_chunk : 1 <= numChunks.
Hypothesis share : 1 <= chunksPerWorker.
Hypothesis enough : numChunks <= workers_length * chunksPerWorker.

(** After [i] dispatches the answers are in order and hold the CVs of the
first chunks of the input, up to chunk [i * chunksPerWorker]. *)
Definition dispatch_inv (st : Z * list (Z * list (list Z))) : Prop :=
  let '(i, promises) := st in
  0 <= i <= workers_length
  /\ StronglySorted by_startChunk promises
  /\ Forall (fun r => fst r < i * chunksPerWorker) promises
  /\ concat (map snd promises)
 = map chunk_cv
     (zrange 0 (Z.to_nat (Z.min (i * chunksPerWorker) numChunks))).

Lemma dispatch_step st :
  dispatch_inv st ->
  Workers.dispatch_cond workers_length numChunks chunksPerWorker st = true ->
  dispatch_inv (Workers.dispatch_body input 0 numChunks chunksPerWorker st)
  /\ (Z.to_nat (workers_length
            - fst (Workers.dispatch_body input 0 numChunks
                     chunksPerWorker st))
  < Z.to_nat (workers_length - fst st))%nat.
Proof.
  destruct st as [i promises]. intros (Hi & Hs & Hkeys & Hcvs) Hc.
  unfold Workers.dispatch_cond in Hc. apply andb_true_iff in Hc.
  destruct Hc as [Hlt Hstart]. apply Z.ltb_lt in Hlt.
  apply negb_true_iff, Z.leb_gt in Hstart.
  unfold Workers.dispatch_body. cbn [fst]. split; [|lia].
  set (startChunk := i * chunksPerWorker) in *.
  set (endChunk := Z.min (startChunk + chunksPerWorker) numChunks).
  assert (Hend : startChunk <= endChunk) by (unfold endChunk; lia).
  rewrite (onmessage_cvs startChunk endChunk Hend).
  assert (Hnext : (i + 1) * chunksPerWorker = startChunk + chunksPerWorker)
by (unfold startChunk; lia).
  unfold dispatch_inv. repeat split; try lia.
  - apply sorted_snoc; [exact Hs|].
eapply Forall_impl; [|exact Hkeys]. cbn [fst]. intros r Hr. lia.
  - apply Forall_app. split.
+ eapply Forall_impl; [|exact Hkeys]. cbn beta. intros r Hr. nia.
+ constructor; [cbn [fst]; nia | constructor].
  - rewrite map_app, concat_app, Hcvs. cbn [map snd concat].
rewrite app_nil_r, <- map_app. f_equal.
rewrite Z.min_l by lia. rewrite Hnext. fold endChunk.
replace (Z.to_nat endChunk)
  with (Z.to_nat startChunk + Z.to_nat (endChunk - startChunk))%nat
  by (unfold startChunk in *; nia).
rewrite zrange_app. do 2 f_equal. unfold startChunk in *. nia.
Qed.

Lemma dispatch_all :
  let promises :=
snd (JS.while (Z.to_nat workers_length)
       (Workers.dispatch_cond workers_length numChunks chunksPerWorker)
       (Workers.dispatch_body input 0 numChunks chunksPerWorker)
       (0, [])) in
  Workers.sort promises = promises /\
  concat (map snd promises) = map chunk_cv (zrange 0 (Z.to_nat numChunks)).
Proof.
  destruct (while_total
          (Workers.dispatch_cond workers_length numChunks chunksPerWorker)
          (Workers.dispatch_body input 0 numChunks chunksPerWorker)
          dispatch_inv (fun st => Z.to_nat (workers_length - fst st))
          dispatch_step (Z.to_nat workers_length) (0, []))
as [Hinv Hstop].
  - unfold dispatch_inv. split; [lia|]. split; [constructor|].
split; [constructor|].
rewrite Z.min_l by lia. reflexivity.
  - cbn [fst]. lia.
  - destruct (JS.while _ _ _ _) as [i promises]. cbn [snd].
destruct Hinv as (Hi & Hs & _ & Hcvs).
split; [apply sort_sorted, Hs|].
rewrite Hcvs. do 3 f_equal.
unfold Workers.dispatch_cond in Hstop. apply andb_false_iff in Hstop.
destruct Hstop as [Hge|Hge].
+ apply Z.ltb_ge in Hge. replace i with workers_length by lia. lia.
+ apply negb_false_iff, Z.leb_le in Hge. lia.
Qed.

End Dispatch.

End WorkerPool.

(** The root CV is a function of the CVs of the chunks and of the CVs the
    merges return; the logs play no part. *)
Lemma tree_sim chunk1 chunk2 m1 m2 f1 f2 guarded numChunks :
  (forall c, 0 <= c < numChunks -> fst (chunk1 c) = fst (chunk2 c)) ->
  (forall l r, fst (m1 l r) = fst (m2 l r)) ->
  (forall l r b, fst (f1 l r b) = fst (f2 l r b)) ->
  fst (tree chunk1 m1 f1 guarded numChunks)
  = fst (tree chunk2 m2 f2 guarded numChunks).
Proof.
  intros Hchunk Hm Hf. unfold tree, chunks_loop.
  pose proof (while_sim
                (fun s t : Z * list (list Z) * list call =>
                   fst s = fst t /\ 0 <= fst (fst s))
                (chunks_cond numChunks) (chunks_body chunk1 m1 guarded numChunks)
                (chunks_cond numChunks) (chunks_body chunk2 m2 guarded numChunks))
    as H.
  specialize (H ltac:(intros [[c1 s1] l1] [[c2 s2] l2] [E _]; simpl in E;
                      injection E as -> ->; reflexivity)).
  assert (Hstep : forall s t : Z * list (list Z) * list call,
            fst s = fst t /\ 0 <= fst (fst s) ->
            chunks_cond numChunks s = true ->
            fst (chunks_body chunk1 m1 guarded numChunks s)
            = fst (chunks_body chunk2 m2 guarded numChunks t)
            /\ 0 <= fst (fst (chunks_body chunk1 m1 guarded numChunks s))).
  { intros [[c1 s1] l1] [[c2 s2] l2] [E Hc] Hcond. simpl in E, Hc.
    injection E as -> ->. unfold chunks_cond in Hcond. apply Z.ltb_lt in Hcond.
    unfold chunks_body. specialize (Hchunk c2 ltac:(lia)).
    destruct (chunk1 c2) as [cv1 made1], (chunk2 c2) as [cv2 made2].
    cbn [fst] in Hchunk. subst cv2.
    pose proof (push_chunk_sim m1 m2 guarded numChunks c2 cv1 s2
                  (l1 ++ made1) (l2 ++ made2) Hm) as Hp.
    destruct (push_chunk m1 _ _ _ _ _ _) as [st1 cl1].
    destruct (push_chunk m2 _ _ _ _ _ _) as [st2 cl2].
    cbn [fst] in *. subst st2. split; [reflexivity | lia]. }
  specialize (H Hstep (Z.to_nat numChunks) (0, [], []) (0, [], [])
                (conj eq_refl (Z.le_refl 0))).
  destruct (JS.while _ _ (chunks_body chunk1 m1 guarded numChunks) _)
    as [[c1 s1] l1].
  destruct (JS.while _ _ (chunks_body chunk2 m2 guarded numChunks) _)
    as [[c2 s2] l2].
  destruct H as [E _]. simpl in E. injection E as -> ->.
  pose proof (final_sim f1 f2 Hf s2 l1 l2) as Hfin.
  destruct (final_merges f1 _) as [t1 k1].
  destruct (final_merges f2 _) as [t2 k2].
  cbn [fst] in *. subst t2. reflexivity.
Qed.

Lemma ceil_div_share n w : 1 <= n -> 1 <= w ->
  1 <= JS.ceil_div n w /\ n <= w * JS.ceil_div n w.
Proof.
  intros Hn Hw. unfold JS.ceil_div.
  pose proof (Z.div_mod (n + w - 1) w ltac:(lia)) as Hdiv.
  pose proof (Z.mod_pos_bound (n + w - 1) w ltac:(lia)) as Hmod.
  split; [|lia].
  apply Z.div_le_lower_bound; lia.
Qed.

(** With at least one worker, or on an input of one chunk, [hashWorkers]
    builds the root CV that [hash] builds. *)
Lemma hashWorkers_root_cv le bo workers_length input :
  1 <= workers_length \/ len8 input <= CHUNK_LEN ->
  fst (Workers.hashWorkers_root workers_length input)
  = fst (hash_root le bo 0 input).
Proof.
  intros Hw. unfold Workers.hashWorkers_root.
  destruct (len8 input <=? CHUNK_LEN) eqn:E.
  - apply Z.leb_le in E. rewrite (hash_root_single le bo 0 input E).
    cbn [orb].
    destruct (Workers.processChunk input 0 (len8 input) 0 0) as [cv0 calls0].
    destruct (block_loop _ _ _ _ _ _ _) as [cv calls]. reflexivity.
  - apply Z.leb_gt in E. destruct Hw as [Hw|Hw]; [|lia].
    replace (workers_length =? 0) with false
      by (symmetry; apply Z.eqb_neq; lia).
    cbn [orb].
    set (n := JS.ceil_div (len8 input) CHUNK_LEN).
    assert (Hn : 2 <= n) by (apply ceil_div_chunks, E).
    destruct (ceil_div_share n workers_length ltac:(lia) Hw) as [Hshare Henough].
    pose proof (dispatch_all input workers_length n
                  (JS.ceil_div n workers_length) Hw ltac:(lia) Hshare Henough)
      as [Hsort Hcvs].
    cbv zeta in Hsort, Hcvs.
    destruct (JS.while _ _ _ _) as [i promises]. cbn [snd] in *.
    rewrite Hsort.
    assert (Hall : Workers.flatten promises
                   = map (chunk_cv input) (zrange 0 (Z.to_nat n))).
    { unfold Workers.flatten.
      rewrite <- (map_map snd (map (map JS.ToUint32))), <- concat_map, Hcvs.
      rewrite map_map. apply map_ext_in. intros c Hc.
      apply in_zrange in Hc. unfold chunk_cv, simd_chunk.
      apply block_loop_words.
      pose proof (ceil_div_chunk_start (len8 input) c ltac:(fold n; lia)).
      unfold CHUNK_LEN in *. lia. }
    rewrite Hall, length_map, length_zrange, Z2Nat.id by lia.
    unfold hash_root.
    replace (len8 input <=? CHUNK_LEN) with false
      by (symmetry; apply Z.leb_gt; exact E).
    fold n. apply tree_sim.
    + intros c Hc. cbn [fst].
      rewrite (nth_indep _ [] (chunk_cv input 0))
        by (rewrite length_map, length_zrange; lia).
      rewrite (map_nth (chunk_cv input)), nth_zrange by lia.
      rewrite Z2Nat.id, Z.add_0_l by lia.
      rewrite (hash_chunk_simd le bo input c) by lia. reflexivity.
    + reflexivity.
    + reflexivity.
Qed.


(** ** The unified entry points of [index.ts] *)

Module Index.

Inductive Backend : Type := JS | WASM_SIMD | WORKERS | AUTO.

(** The module variables the dispatch reads: [wasmInitialized] and
  [workersInitialized] of [index.ts], whether [compress4x] of the WASM
  module is installed, and the worker pool. *)
Record modules : Type := {
wasmInitialized : bool;
workersInitialized : bool;
compress4x : bool;
pool : Workers.pool
}.

Definition isWasmSimdAvailable (s : modules) : bool := compress4x s.

Definition getWorkerCount (s : modules) : Z := Workers.getWorkerCount (pool s).

Definition selectBackend (s : modules) (inputLength : Z) : Backend :=
if (65536 <? inputLength) && workersInitialized s && (1 <? getWorkerCount s)
then WORKERS
else if (4096 <? inputLength) && wasmInitialized s && isWasmSimdAvailable s
then WASM_SIMD
else JS.

Section Host.

Variable IS_LITTLE_ENDIAN : bool.
Variable byteOffset : Z.

Definition hashJS : list byte -> Z -> outcome (list byte) :=
  hash IS_LITTLE_ENDIAN byteOffset.

Definition hashWasm (s : modules) : list byte -> Z -> outcome (list byte) :=
  hashWasmSimd (compress4x s).

Definition hashWorkersSync : list byte -> Z -> outcome (list byte) :=
  Workers.hash.

Definition hashWorkers (s : modules)
: list byte -> Z -> outcome (list byte) :=
  Workers.hashWorkers (Z.of_nat (length (Workers.workers (pool s)))).

(** [hash]: a [switch] whose WASM_SIMD case falls through to WORKERS. *)
Definition hash (s : modules) (input : list byte) (outputLen : Z)
(backend : Backend) : outcome (list byte) :=
  let selectedBackend :=
match backend with
| AUTO => selectBackend s (len8 input)
| _ => backend
end in
  match selectedBackend with
  | WASM_SIMD =>
  if wasmInitialized s && isWasmSimdAvailable s then
    hashWasm s input outputLen
  else hashWorkersSync input outputLen
  | WORKERS => hashWorkersSync input outputLen
  | _ => hashJS input outputLen
  end.

(** [hashAsync]: WORKERS falls through to WASM_SIMD, and that to JS; the
value is the one the promise resolves to. *)
Definition hashAsync (s : modules) (input : list byte) (outputLen : Z)
(backend : Backend) : outcome (list byte) :=
  let selectedBackend :=
match backend with
| AUTO => selectBackend s (len8 input)
| _ => backend
end in
  let wasm_or_js :=
if wasmInitialized s && isWasmSimdAvailable s then
  hashWasm s input outputLen
else hashJS input outputLen in
  match selectedBackend with
  | WORKERS =>
  if workersInitialized s && (0 <? getWorkerCount s) then
    hashWorkers s input outputLen
  else wasm_or_js
  | WASM_SIMD => wasm_or_js
  | _ => hashJS input outputLen
  end.

End Host.

End Index.


(** ** The worker pool and the dispatch *)

(** The pools that calls of [initWorkers] and [terminateWorkers] lead
    to. *)
Inductive pool_reachable : Workers.pool -> Prop :=
| reach_start : pool_reachable Workers.no_pool
| reach_init hardwareConcurrency count p :
    pool_reachable p ->
    pool_reachable (Workers.initWorkers hardwareConcurrency count p)
| reach_terminate p :
    pool_reachable p -> pool_reachable (Workers.terminateWorkers p).

Definition pool_inv (p : Workers.pool) : Prop :=
  Workers.numWorkers p = Z.of_nat (length (Workers.workers p))
  \/ (Workers.workers p = [] /\ Workers.numWorkers p < 0).

(** The loop of [initWorkers] creates [targetCount] workers, none for a
    negative count. *)
Lemma created_workers (targetCount : Z) :
  Z.of_nat
    (length (snd (JS.while (Z.to_nat targetCount)
                    (fun st : Z * list Z => fst st <? targetCount)
                    (fun st : Z * list Z => (fst st + 1, snd st ++ [fst st]))
                    (0, []))))
  = Z.max 0 targetCount.
Proof.
  destruct (while_total
              (fun st : Z * list Z => fst st <? targetCount)
              (fun st : Z * list Z => (fst st + 1, snd st ++ [fst st]))
              (fun st => 0 <= fst st <= Z.max 0 targetCount
                         /\ Z.of_nat (length (snd st)) = fst st)
              (fun st => Z.to_nat (targetCount - fst st))
              ltac:(intros [i ws] [Hi Hlen] Hc; cbn [fst snd] in *;
                    apply Z.ltb_lt in Hc; rewrite length_app; cbn [length];
                    repeat split; lia)
              (Z.to_nat targetCount) (0, []))
    as [[Hi Hlen] Hstop].
  - cbn [fst snd length]. lia.
  - cbn [fst]. lia.
  - apply Z.ltb_ge in Hstop. lia.
Qed.

Lemma initWorkers_inv hardwareConcurrency count p :
  pool_inv p -> pool_inv (Workers.initWorkers hardwareConcurrency count p).
Proof.
  intros Hp. unfold Workers.initWorkers.
  set (targetCount := match count with
                      | Some c => c
                      | None => match hardwareConcurrency with
                                | Some h => h
                                | None => 4
                                end
                      end).
  destruct (Z.of_nat (length (Workers.workers p)) =? targetCount);
    [exact Hp|].
  pose proof (created_workers targetCount) as Hlen.
  destruct (JS.while _ _ _ _) as [i created]. cbn [snd] in Hlen.
  unfold pool_inv. cbn [Workers.workers Workers.numWorkers].
  destruct (Z.lt_ge_cases targetCount 0) as [Hneg|Hpos].
  - right. split; [|exact Hneg].
    destruct created; [reflexivity | cbn [length] in Hlen; lia].
  - left. lia.
Qed.

Lemma pool_reachable_inv p : pool_reachable p -> pool_inv p.
Proof.
  induction 1 as [|hc count p _ IH|p _ _].
  - left. reflexivity.
  - apply initWorkers_inv, IH.
  - left. reflexivity.
Qed.

Lemma finish_same_root (run1 run2 : option (list Z) * list call) outputLen :
  fst run1 = fst run2 ->
  fst (finish run1 outputLen) = fst (finish run2 outputLen).
Proof.
  destruct run1 as [cv1 calls1], run2 as [cv2 calls2]. cbn [fst].
  intros ->. unfold finish. destruct cv2; reflexivity.
Qed.

Section Dispatched.

Variable le : bool.
Variable bo : Z.
Variable s : Index.modules.
Variable input : list byte.
Variable outputLen : Z.

Lemma hashWorkersSync_hashJS :
Index.hashWorkersSync input outputLen = Index.hashJS le bo input outputLen.
Proof.
unfold Index.hashWorkersSync, Index.hashJS, Workers.hash, Workers.hash_run,
  hash, hash_run.
rewrite (workers_hash_root le bo). reflexivity.
Qed.

Lemma hashWasm_hashJS :
Index.wasmInitialized s && Index.isWasmSimdAvailable s = true ->
Index.hashWasm s input outputLen = Index.hashJS le bo input outputLen.
Proof.
intros H. apply andb_true_iff in H. destruct H as [_ H].
unfold Index.isWasmSimdAvailable in H.
unfold Index.hashWasm, Index.hashJS. rewrite H.
apply finish_same_root, hashWasmSimd_root_cv.
Qed.

Lemma hashWorkers_hashJS :
pool_reachable (Index.pool s) ->
(0 <? Index.getWorkerCount s) = true ->
Index.hashWorkers s input outputLen = Index.hashJS le bo input outputLen.
Proof.
intros Hreach Hcount. apply Z.ltb_lt in Hcount.
unfold Index.getWorkerCount, Workers.getWorkerCount in Hcount.
unfold Index.hashWorkers, Index.hashJS.
apply finish_same_root, hashWorkers_root_cv. left.
destruct (pool_reachable_inv _ Hreach) as [H|[_ H]]; lia.
Qed.

End Dispatched.


(** ** Bytes of a CV and back *)

Lemma byte_to_Z_to_byte x : 0 <= x < 256 -> byte_to_Z (Z_to_byte x) = x.
Proof.
  intros Hx. unfold byte_to_Z, Z_to_byte.
  change 255 with (Z.ones 8). rewrite Z.land_ones by lia.
  rewrite Z.mod_small by (change (2 ^ 8) with 256; lia).
  destruct (Byte.of_N (Z.to_N x)) as [b|] eqn:E.
  - apply Byte.to_of_N in E. rewrite E. lia.
  - apply Byte.of_N_None_iff in E. lia.
Qed.

Lemma and_255 x : JS.and x 255 = JS.ToInt32 x mod 256.
Proof.
  unfold JS.and. change (JS.ToInt32 255) with (Z.ones 8).
  rewrite Z.land_ones by lia. reflexivity.
Qed.

Lemma ToInt32_mod_256 w : 0 <= w < 2 ^ 32 -> JS.ToInt32 w mod 256 = w mod 256.
Proof.
  intros Hw. unfold JS.ToInt32. rewrite (ToUint32_small w) by exact Hw.
  destruct (w <? 2147483648); [reflexivity|].
  Z.div_mod_to_equations. lia.
Qed.

(** The byte [(word >> 8 k) & 0xff] of a 32-bit word. *)
Lemma sar_byte w k :
  0 <= w < 2 ^ 32 -> 0 <= k <= 3 ->
  JS.and (JS.sar w (8 * k)) 255 = (w / 2 ^ (8 * k)) mod 256.
Proof.
  intros Hw Hk. rewrite and_255. unfold JS.sar.
  assert (Hsh : Z.land (8 * k) 31 = 8 * k).
  { assert (Hc : k = 0 \/ k = 1 \/ k = 2 \/ k = 3) by lia.
    destruct Hc as [->|[->|[->| ->]]]; reflexivity. }
  rewrite Hsh, Z.shiftr_div_pow2 by lia.
  pose proof (ToInt32_range w) as Hr.
  assert (Hp : 0 < 2 ^ (8 * k)) by (apply Z.pow_pos_nonneg; lia).
  rewrite ToInt32_small.
  2:{ split.
      - apply Z.div_le_lower_bound; [exact Hp|]. nia.
      - apply Z.div_lt_upper_bound; [exact Hp|]. nia. }
  unfold JS.ToInt32. rewrite (ToUint32_small w) by exact Hw.
  destruct (w <? 2147483648); [reflexivity|].
  assert (Hc : k = 0 \/ k = 1 \/ k = 2 \/ k = 3) by lia.
  destruct Hc as [->|[->|[->| ->]]]; cbn [Z.mul Pos.mul Z.pow Z.pow_pos Pos.iter];
    Z.div_mod_to_equations; lia.
Qed.

Lemma word_byte_value w k :
  0 <= w < 2 ^ 32 -> 0 <= k <= 3 ->
  byte_to_Z (word_byte w k) = (w / 2 ^ (8 * k)) mod 256.
Proof.
  intros Hw Hk. unfold word_byte.
  rewrite byte_to_Z_to_byte.
  - assert (Hc : k = 0 \/ k = 1 \/ k = 2 \/ k = 3) by lia.
    destruct Hc as [->|[->|[->| ->]]].
    + rewrite and_255, ToInt32_mod_256 by exact Hw.
      change (2 ^ (8 * 0)) with 1. rewrite Z.div_1_r. reflexivity.
    + apply (sar_byte w 1); lia.
    + apply (sar_byte w 2); lia.
    + apply (sar_byte w 3); lia.
  - assert (Hc : k = 0 \/ k = 1 \/ k = 2 \/ k = 3) by lia.
    destruct Hc as [->|[->|[->| ->]]]; rewrite and_255;
      apply Z.mod_pos_bound; lia.
Qed.

Lemma get8_digest_bytes cv n j :
  0 <= j < Z.of_nat n ->
  get8 (digest_bytes cv n) j = byte_to_Z (out_byte cv j).
Proof.
  intros Hj. unfold get8.
  replace (j <? 0) with false by (symmetry; apply Z.ltb_ge; lia).
  rewrite nth_error_digest_bytes by lia.
  rewrite Z2Nat.id by lia. reflexivity.
Qed.

Lemma word_of_bytes w :
  0 <= w < 2 ^ 32 ->
  w mod 256 + 2 ^ 8 * ((w / 2 ^ 8) mod 256) + 2 ^ 16 * ((w / 2 ^ 16) mod 256)
  + 2 ^ 24 * ((w / 2 ^ 24) mod 256) = w.
Proof.
  intros Hw. change (2 ^ 8) with 256. change (2 ^ 16) with 65536.
  change (2 ^ 24) with 16777216. change (2 ^ 32) with 4294967296 in Hw.
  Z.div_mod_to_equations. lia.
Qed.

(** The little-endian words of the 32 bytes of a CV are its words. *)
Lemma le_words8_digest_bytes cv :
  length cv = 8%nat -> Forall Ref.word cv ->
  le_words8 (digest_bytes cv 32) = cv.
Proof.
  intros Hlen Hall. unfold le_words8.
  apply nth_ext with (d := 0) (d' := 0).
  - rewrite length_map, length_seq. symmetry. exact Hlen.
  - rewrite length_map, length_seq. intros i Hi.
    rewrite (nth_indep _ 0 (le_word (digest_bytes cv 32) (Z.of_nat 0)))
      by (rewrite length_map, length_seq; exact Hi).
    rewrite (map_nth (fun i => le_word (digest_bytes cv 32) (Z.of_nat i))).
    rewrite seq_nth by exact Hi. cbn [Nat.add].
    assert (Hw : Ref.word (nth i cv 0)).
    { rewrite Forall_forall in Hall. apply Hall, nth_In. lia. }
    unfold Ref.word in Hw. unfold le_word.
    rewrite !get8_digest_bytes by lia.
    unfold out_byte.
    replace (4 * Z.of_nat i <? 32) with true by (symmetry; apply Z.ltb_lt; lia).
    replace (4 * Z.of_nat i + 1 <? 32) with true by (symmetry; apply Z.ltb_lt; lia).
    replace (4 * Z.of_nat i + 2 <? 32) with true by (symmetry; apply Z.ltb_lt; lia).
    replace (4 * Z.of_nat i + 3 <? 32) with true by (symmetry; apply Z.ltb_lt; lia).
    replace (4 * Z.of_nat i / 4) with (Z.of_nat i)
      by (Z.div_mod_to_equations; lia).
    replace ((4 * Z.of_nat i + 1) / 4) with (Z.of_nat i)
      by (Z.div_mod_to_equations; lia).
    replace ((4 * Z.of_nat i + 2) / 4) with (Z.of_nat i)
      by (Z.div_mod_to_equations; lia).
    replace ((4 * Z.of_nat i + 3) / 4) with (Z.of_nat i)
      by (Z.div_mod_to_equations; lia).
    replace ((4 * Z.of_nat i) mod 4) with 0 by (Z.div_mod_to_equations; lia).
    replace ((4 * Z.of_nat i + 1) mod 4) with 1 by (Z.div_mod_to_equations; lia).
    replace ((4 * Z.of_nat i + 2) mod 4) with 2 by (Z.div_mod_to_equations; lia).
    replace ((4 * Z.of_nat i + 3) mod 4) with 3 by (Z.div_mod_to_equations; lia).
    assert (Hget : JS.get cv (Z.of_nat i) = nth i cv 0).
    { unfold JS.get.
      replace (Z.of_nat i <? 0) with false by (symmetry; apply Z.ltb_ge; lia).
      rewrite Nat2Z.id. reflexivity. }
    rewrite Hget, !word_byte_value by lia.
    change (2 ^ (8 * 0)) with 1. rewrite Z.div_1_r.
    change (8 * 1) with 8. change (8 * 2) with 16. change (8 * 3) with 24.
    apply word_of_bytes, Hw.
Qed.


(** ** What [readBlock] reads *)

(** The byte at [i] when only the bytes before [end_] count. *)
Definition clipped (input : list byte) (end_ i : Z) : Z :=
  if i <? end_ then get8 input i else 0.

(** The little-endian word of the four bytes from [i], those at [end_]
    and after taken as zero. *)
Definition clipped_word (input : list byte) (end_ i : Z) : Z :=
  clipped input end_ i
  + 2 ^ 8 * clipped input end_ (i + 1)
  + 2 ^ 16 * clipped input end_ (i + 2)
  + 2 ^ 24 * clipped input end_ (i + 3).

Lemma get8_past input i : len8 input <= i -> get8 input i = 0.
Proof.
  intros H. unfold get8. destruct (i <? 0); [reflexivity|].
  replace (nth_error input (Z.to_nat i)) with (@None byte); [reflexivity|].
  symmetry. apply nth_error_None. unfold len8 in H. lia.
Qed.

Lemma clipped_before input end_ i : i < end_ -> clipped input end_ i = get8 input i.
Proof.
  intros H. unfold clipped.
  replace (i <? end_) with true by (symmetry; apply Z.ltb_lt; exact H).
  reflexivity.
Qed.

Lemma clipped_after input end_ i :
  Z.min end_ (len8 input) <= i -> clipped input end_ i = 0.
Proof.
  intros H. unfold clipped. destruct (Z.ltb_spec i end_); [|reflexivity].
  apply get8_past. lia.
Qed.

Lemma map_zero (f : nat -> Z) a n :
  (forall j, (a <= j)%nat -> f j = 0) -> map f (seq a n) = repeat 0 n.
Proof.
  revert a. induction n as [|n IH]; intros a H; simpl; [reflexivity|].
  rewrite (H a) by lia. f_equal. apply IH. intros j Hj. apply H. lia.
Qed.

Lemma upd_at (l1 l2 : list Z) x v k :
  k = length l1 -> JS.upd (l1 ++ x :: l2) k v = l1 ++ v :: l2.
Proof. intros ->. apply upd_middle. Qed.

(** The word loop of [readBlock], whatever the part of the block that is
    in the input. *)
Lemma readBlock_words input offset end_ fuel :
  end_ <= offset + 64 -> (Z.to_nat (end_ - offset) <= fuel)%nat ->
  exists k : nat,
    (k <= 16)%nat /\
    (k = 0%nat \/ offset + 4 * Z.of_nat k <= end_) /\
    end_ < offset + 4 * Z.of_nat k + 4 /\
    JS.while fuel (readBlock_words_cond input end_)
      (readBlock_words_body input) (repeat 0 16, 0, offset)
    = (map (fun j => packed_word input (offset + 4 * Z.of_nat j)) (seq 0 k)
       ++ repeat 0 (16 - k),
       Z.of_nat k, offset + 4 * Z.of_nat k).
Proof.
  intros Hend Hfuel.
  destruct (while_total (readBlock_words_cond input end_)
              (readBlock_words_body input)
              (fun st => full_block_inv input offset st
                         /\ (snd (fst st) = 0 \/ snd st <= end_))
              (fun st => Z.to_nat (end_ - snd st)))
    with (fuel := fuel) (s := (repeat 0 16, 0, offset)) as [[Hinv Hle] Hexit].
  - intros [[out wi] i] [(k & Hk & -> & -> & ->) _] Hc.
    unfold readBlock_words_cond in Hc. apply Z.leb_le in Hc.
    assert (Hk16 : (k < 16)%nat) by lia.
    split; [|unfold readBlock_words_body; cbn [fst snd]; lia].
    split; [|unfold readBlock_words_body; cbn [fst snd]; lia].
    exists (S k). split; [lia|]. split; [lia|]. split; [lia|].
    unfold readBlock_words_body, JS.set32, JS.set.
    replace (Z.of_nat k <? 0) with false by (symmetry; apply Z.ltb_ge; lia).
    rewrite Nat2Z.id.
    replace (16 - k)%nat with (S (16 - S k)) by lia. cbn [repeat].
    replace k with (length (map (fun j => packed_word input (offset + 4 * Z.of_nat j))
                              (seq 0 k))) at 3
      by (rewrite length_map, length_seq; reflexivity).
    rewrite upd_middle, seq_S, map_app, <- app_assoc. reflexivity.
  - split; [|left; reflexivity]. exists 0%nat. simpl. repeat split; lia.
  - cbn [snd]. exact Hfuel.
  - destruct (JS.while _ _ _ _) as [[out wi] i].
    destruct Hinv as (k & Hk & -> & -> & ->). cbn [fst snd] in *.
    unfold readBlock_words_cond in Hexit. apply Z.leb_gt in Hexit.
    exists k. repeat split; try lia.
Qed.

Ltac decide_ltb :=
  repeat match goal with
         | |- context [?a <? ?b] =>
             first [ replace (a <? b) with true
                       by (symmetry; apply Z.ltb_lt; lia)
                   | replace (a <? b) with false
                       by (symmetry; apply Z.ltb_ge; lia) ]
         end.

(** The tail loop packs the one to three bytes left. *)
Lemma readBlock_tail input end_ i :
  i < end_ < i + 4 ->
  JS.ToUint32
    (fst (fst (JS.while 4 (readBlock_tail_cond end_) (readBlock_tail_body input)
                 (0, 0, i))))
  = clipped_word input end_ i.
Proof.
  intros H.
  pose proof (get8_range input i) as H0.
  pose proof (get8_range input (i + 1)) as H1.
  pose proof (get8_range input (i + 2)) as H2.
  assert (Hr : end_ = i + 1 \/ end_ = i + 2 \/ end_ = i + 3) by lia.
  unfold clipped_word, clipped.
  cbn [JS.while readBlock_tail_cond readBlock_tail_body fst snd].
  change (0 + 8) with 8. change (8 + 8) with 16. change (16 + 8) with 24.
  replace (i + 1 + 1) with (i + 2) by lia.
  replace (i + 2 + 1) with (i + 3) by lia.
  replace (i + 3 + 1) with (i + 4) by lia.
  set (b0 := get8 input i) in *.
  set (b1 := get8 input (i + 1)) in *.
  set (b2 := get8 input (i + 2)) in *.
  destruct Hr as [-> | [-> | ->]]; decide_ltb; cbn [fst];
    rewrite !js_or, !js_shl_byte by lia;
    change (JS.ToUint32 0) with 0; rewrite Z.lor_0_l, Z.pow_0_r, Z.mul_1_r.
  - lia.
  - rewrite (lor_disjoint b0 b1 8) by (change (2 ^ 8) with 256; lia). lia.
  - rewrite (lor_disjoint b0 b1 8) by (change (2 ^ 8) with 256; lia).
    rewrite (lor_disjoint (b0 + b1 * 2 ^ 8) b2 16)
      by (change (2 ^ 8) with 256; change (2 ^ 16) with 65536; lia).
    lia.
Qed.

Lemma clipped_word_packed input end_ i :
  i + 4 <= end_ -> clipped_word input end_ i = packed_word input i.
Proof.
  intros H. unfold clipped_word. rewrite !clipped_before by lia.
  replace i with (i + 4 * 0) at 1 5 by lia.
  pose proof (view32_packed input i 0) as Hv. unfold view32 in Hv.
  replace (i + 4 * 0 + 1) with (i + 1) in * by lia.
  replace (i + 4 * 0 + 2) with (i + 2) in * by lia.
  replace (i + 4 * 0 + 3) with (i + 3) in * by lia.
  replace (i + 4 * 0) with i in * by lia.
  exact Hv.
Qed.

Lemma clipped_word_zero input end_ i :
  Z.min end_ (len8 input) <= i -> clipped_word input end_ i = 0.
Proof.
  intros H. unfold clipped_word. rewrite !clipped_after by lia. reflexivity.
Qed.

(** Clipping at the end of the block or at the end of the input, whichever
    comes first, is clipping at the end of the block. *)
Lemma clipped_word_min input end_ i :
  clipped_word input (Z.min end_ (len8 input)) i = clipped_word input end_ i.
Proof.
  assert (H : forall p, clipped input (Z.min end_ (len8 input)) p
                        = clipped input end_ p).
  { intros p. unfold clipped.
    destruct (Z.ltb_spec p (Z.min end_ (len8 input))),
             (Z.ltb_spec p end_); try reflexivity; try lia.
    symmetry. apply get8_past. lia. }
  unfold clipped_word. rewrite !H. reflexivity.
Qed.



(** * The LEB128 encoders of the WASM generator *)

(** [leb128]: a [do ... while (n !== 0)] on the state [(n, result)]. *)
Definition leb128_body (st : Z * list Z) : Z * list Z :=
  let '(n, result) := st in
  let byte := JS.and n 0x7f in
  let n := JS.shr n 7 in
  let byte := if negb (n =? 0) then JS.or byte 0x80 else byte in
  (n, result ++ [byte]).

Definition leb128_cond (st : Z * list Z) : bool :=
  let '(n, _) := st in negb (n =? 0).

(** After the first pass [n] is below 2^25: four more passes end the
    loop. *)
Definition leb128 (n : Z) : list Z :=
  snd (JS.while 4 leb128_cond leb128_body (leb128_body (n, []))).

(** [sleb128]: a [while (more)] on the state [(n, more, result)]. *)
Definition sleb128_body (st : Z * bool * list Z) : Z * bool * list Z :=
  let '(n, more, result) := st in
  let byte := JS.and n 0x7f in
  let n := JS.sar n 7 in
  if ((n =? 0) && (JS.and byte 0x40 =? 0))
     || ((n =? -1) && negb (JS.and byte 0x40 =? 0))
  then (n, false, result ++ [byte])
  else (n, more, result ++ [JS.or byte 0x80]).

Definition sleb128_cond (st : Z * bool * list Z) : bool :=
  let '(_, more, _) := st in more.

(** [n >> 7] is a 32-bit number: five passes end the loop. *)
Definition sleb128 (n : Z) : list Z :=
  snd (JS.while 5 sleb128_cond sleb128_body (n, true, [])).

(** ** Decoding *)

(** The number a sequence of LEB128 bytes stands for: seven bits a byte,
    the low ones first. *)
Fixpoint unleb128 (bytes : list Z) : Z :=
  match bytes with
  | [] => 0
  | b :: rest => Z.land b 127 + 128 * unleb128 rest
  end.

(** The signed reading: bit 6 of the last byte is the sign. *)
Fixpoint unsleb128 (bytes : list Z) : Z :=
  match bytes with
  | [] => 0
  | [b] => if Z.land b 64 =? 0 then Z.land b 127 else Z.land b 127 - 128
  | b :: rest => Z.land b 127 + 128 * unsleb128 rest
  end.

(** A sequence that says where it ends: bit 7 is set in every byte but
    the last. *)
Fixpoint delimited (bytes : list Z) : Prop :=
  match bytes with
  | [] => False
  | [b] => 0 <= b < 128
  | b :: rest => 128 <= b < 256 /\ delimited rest
  end.

Lemma and_127 x : JS.and x 127 = JS.ToUint32 x mod 128.
Proof.
  unfold JS.and. change (JS.ToInt32 127) with (Z.ones 7).
  rewrite Z.land_ones by lia. change (2 ^ 7) with 128.
  rewrite <- (ToUint32_ToInt32 x), ToUint32_mod.
  symmetry. apply Z.mod_mod_divide.
  exists 33554432. reflexivity.
Qed.

Lemma or_128 b : 0 <= b < 128 -> JS.or b 128 = b + 128.
Proof.
  intros Hb. unfold JS.or. rewrite !ToInt32_small by lia.
  rewrite Z.lor_comm. change 128 with (1 * 2 ^ 7) at 1.
  rewrite Z.lor_comm. rewrite lor_disjoint by (change (2 ^ 7) with 128; lia).
  reflexivity.
Qed.

Lemma land_127 b : Z.land b 127 = b mod 128.
Proof. change 127 with (Z.ones 7). apply Z.land_ones. lia. Qed.

Lemma shr_7 x : JS.shr x 7 = JS.ToUint32 x / 128.
Proof.
  unfold JS.shr. change (Z.land 7 31) with 7.
  rewrite Z.shiftr_div_pow2 by lia. reflexivity.
Qed.

(** One pass of [leb128] on a number of 32 bits. *)
Lemma leb128_body_spec n result :
  leb128_body (n, result)
  = (JS.ToUint32 n / 128,
     result ++ [JS.ToUint32 n mod 128
                + (if JS.ToUint32 n / 128 =? 0 then 0 else 128)]).
Proof.
  unfold leb128_body. rewrite shr_7, and_127.
  pose proof (Z.mod_pos_bound (JS.ToUint32 n) 128 ltac:(lia)).
  destruct (JS.ToUint32 n / 128 =? 0); cbn [negb].
  - rewrite Z.add_0_r. reflexivity.
  - rewrite or_128 by lia. reflexivity.
Qed.

Lemma leb128_loop (fuel : nat) : forall m result,
  0 <= m < 128 ^ Z.of_nat fuel -> m < 2 ^ 32 ->
  exists tail,
    JS.while fuel leb128_cond leb128_body (m, result) = (0, result ++ tail)
    /\ unleb128 tail = m
    /\ (m = 0 -> tail = [])
    /\ (0 < m -> delimited tail)
    /\ (length tail <= fuel)%nat.
Proof.
  induction fuel as [|fuel IH]; intros m result Hm H32.
  - change (128 ^ Z.of_nat 0) with 1 in Hm. exists [].
    replace m with 0 by lia. rewrite app_nil_r.
    repeat split; try reflexivity; try lia; simpl; lia.
  - destruct (Z.eq_dec m 0) as [->|Hnz].
    + exists []. rewrite app_nil_r.
      repeat split; try reflexivity; try lia; simpl; lia.
    + rewrite while_step
        by (unfold leb128_cond; apply negb_true_iff, Z.eqb_neq; exact Hnz).
      rewrite leb128_body_spec, (ToUint32_small m) by lia.
      rewrite Nat2Z.inj_succ, Z.pow_succ_r in Hm by lia.
      assert (Hq : 0 <= m / 128 < 128 ^ Z.of_nat fuel).
      { split; [apply Z.div_pos; lia|].
        apply Z.div_lt_upper_bound; lia. }
      assert (Hq32 : m / 128 < 2 ^ 32).
      { apply Z.div_lt_upper_bound; lia. }
      pose proof (Z.mod_pos_bound m 128 ltac:(lia)) as Hr.
      pose proof (Z.div_mod m 128 ltac:(lia)) as Hdm.
      set (b := m mod 128 + (if m / 128 =? 0 then 0 else 128)).
      destruct (IH (m / 128) (result ++ [b]) Hq Hq32)
        as (tail & Hrun & Hval & Hnil & Hdel & Hlen).
      exists (b :: tail). rewrite Hrun, <- app_assoc.
      split; [reflexivity|].
      assert (Hb : Z.land b 127 = m mod 128).
      { rewrite land_127. unfold b. destruct (m / 128 =? 0).
        - rewrite Z.add_0_r. apply Z.mod_mod. lia.
        - replace (m mod 128 + 128) with (m mod 128 + 1 * 128) by lia.
          rewrite Z.mod_add by lia. apply Z.mod_mod. lia. }
      split; [cbn [unleb128]; rewrite Hb, Hval; lia|].
      split; [intros; lia|].
      split; [|simpl; lia].
      intros _. unfold b. destruct (Z.eqb_spec (m / 128) 0) as [Hz|Hz].
      * rewrite (Hnil Hz). simpl. lia.
      * specialize (Hdel ltac:(lia)).
        destruct tail as [|t0 tail']; [simpl in Hdel; contradiction|].
        split; [lia | exact Hdel].
Qed.

Lemma sar_7 x : JS.sar x 7 = JS.ToInt32 x / 128.
Proof.
  unfold JS.sar. change (Z.land 7 31) with 7.
  rewrite Z.shiftr_div_pow2 by lia. reflexivity.
Qed.

Lemma land_64 b : Z.land b 64 = if Z.testbit b 6 then 64 else 0.
Proof.
  apply Z.bits_inj'. intros i Hi. rewrite Z.land_spec.
  change 64 with (2 ^ 6) at 1. rewrite Z.pow2_bits_eqb by lia.
  destruct (Z.eqb_spec 6 i) as [<-|Hne].
  - destruct (Z.testbit b 6); [reflexivity|]. rewrite Z.bits_0. reflexivity.
  - rewrite andb_false_r. destruct (Z.testbit b 6).
    + change 64 with (2 ^ 6). rewrite Z.pow2_bits_eqb by lia.
      symmetry. apply Z.eqb_neq. exact Hne.
    + rewrite Z.bits_0. reflexivity.
Qed.

Lemma bit_6 b : 0 <= b < 128 -> Z.testbit b 6 = (64 <=? b).
Proof.
  intros Hb. destruct (Z.leb_spec 64 b) as [H|H].
  - apply Z.testbit_true; [lia|]. change (2 ^ 6) with 64.
    Z.div_mod_to_equations. lia.
  - apply Z.testbit_false; [lia|]. change (2 ^ 6) with 64.
    Z.div_mod_to_equations. lia.
Qed.

Lemma and_64 b : 0 <= b < 128 -> (JS.and b 64 =? 0) = (b <? 64).
Proof.
  intros Hb. unfold JS.and. rewrite !ToInt32_small by lia.
  rewrite land_64, bit_6 by exact Hb.
  destruct (Z.leb_spec 64 b), (Z.ltb_spec b 64); try lia; reflexivity.
Qed.

(** One pass of [sleb128] on a signed number of 32 bits. *)
Lemma sleb128_body_spec m more result :
  - 2 ^ 31 <= m < 2 ^ 31 ->
  sleb128_body (m, more, result)
  = if ((m / 128 =? 0) && (m mod 128 <? 64))
       || ((m / 128 =? -1) && negb (m mod 128 <? 64))
    then (m / 128, false, result ++ [m mod 128])
    else (m / 128, more, result ++ [m mod 128 + 128]).
Proof.
  intros Hm. unfold sleb128_body.
  assert (Hbyte : JS.and m 127 = m mod 128).
  { rewrite and_127, ToUint32_mod. apply Z.mod_mod_divide.
    exists 33554432. reflexivity. }
  pose proof (Z.mod_pos_bound m 128 ltac:(lia)) as Hr.
  rewrite Hbyte, sar_7, ToInt32_small, and_64, or_128 by lia.
  reflexivity.
Qed.

Lemma sleb128_loop (f : nat) : forall m result,
  - (64 * 128 ^ Z.of_nat f) <= m < 64 * 128 ^ Z.of_nat f ->
  - 2 ^ 31 <= m < 2 ^ 31 ->
  exists tail n',
    JS.while (S f) sleb128_cond sleb128_body (m, true, result)
    = (n', false, result ++ tail)
    /\ unsleb128 tail = m /\ delimited tail /\ (length tail <= S f)%nat.
Proof.
  induction f as [|f IH]; intros m result Hm H32;
    rewrite while_step by reflexivity;
    rewrite sleb128_body_spec by exact H32;
    pose proof (Z.mod_pos_bound m 128 ltac:(lia)) as Hr;
    pose proof (Z.div_mod m 128 ltac:(lia)) as Hdm;
    destruct (((m / 128 =? 0) && (m mod 128 <? 64))
              || ((m / 128 =? -1) && negb (m mod 128 <? 64))) eqn:Hstop.
  - exists [m mod 128], (m / 128).
    rewrite while_false by reflexivity.
    split; [reflexivity|]. split; [|split; [simpl; lia | simpl; lia]].
    cbn [unsleb128]. rewrite land_64, bit_6, land_127, Z.mod_mod by lia.
    apply orb_true_iff in Hstop. destruct Hstop as [H|H];
      apply andb_true_iff in H; destruct H as [Hq Hb];
      apply Z.eqb_eq in Hq.
    + apply Z.ltb_lt in Hb.
      replace (64 <=? m mod 128) with false by (symmetry; apply Z.leb_gt; lia).
      cbn [Z.eqb]. lia.
    + apply negb_true_iff, Z.ltb_ge in Hb.
      replace (64 <=? m mod 128) with true by (symmetry; apply Z.leb_le; lia).
      cbn [Z.eqb]. lia.
  - exfalso. change (128 ^ Z.of_nat 0) with 1 in Hm.
    apply orb_false_iff in Hstop. destruct Hstop as [H1 H2].
    apply andb_false_iff in H1. apply andb_false_iff in H2.
    rewrite negb_false_iff in H2. rewrite !Z.eqb_neq in *.
    rewrite Z.ltb_ge in H1. rewrite Z.ltb_lt in H2. lia.
  - exists [m mod 128], (m / 128).
    rewrite while_false by reflexivity.
    split; [reflexivity|]. split; [|split; [simpl; lia | simpl; lia]].
    cbn [unsleb128]. rewrite land_64, bit_6, land_127, Z.mod_mod by lia.
    apply orb_true_iff in Hstop. destruct Hstop as [H|H];
      apply andb_true_iff in H; destruct H as [Hq Hb];
      apply Z.eqb_eq in Hq.
    + apply Z.ltb_lt in Hb.
      replace (64 <=? m mod 128) with false by (symmetry; apply Z.leb_gt; lia).
      cbn [Z.eqb]. lia.
    + apply negb_true_iff, Z.ltb_ge in Hb.
      replace (64 <=? m mod 128) with true by (symmetry; apply Z.leb_le; lia).
      cbn [Z.eqb]. lia.
  - rewrite Nat2Z.inj_succ, Z.pow_succ_r in Hm by lia.
    destruct (IH (m / 128) (result ++ [m mod 128 + 128]))
      as (tail & n' & Hrun & Hval & Hdel & Hlen).
    { split.
      - apply Z.div_le_lower_bound; lia.
      - apply Z.div_lt_upper_bound; lia. }
    { split.
      - apply Z.div_le_lower_bound; lia.
      - apply Z.div_lt_upper_bound; lia. }
    exists ((m mod 128 + 128) :: tail), n'.
    rewrite Hrun, <- app_assoc. split; [reflexivity|].
    destruct tail as [|t0 tail']; [simpl in Hdel; contradiction|].
    split; [|split; [split; [lia | exact Hdel] | simpl in *; lia]].
    change (unsleb128 ((m mod 128 + 128) :: t0 :: tail'))
      with (Z.land (m mod 128 + 128) 127 + 128 * unsleb128 (t0 :: tail')).
    rewrite Hval, land_127.
    replace (m mod 128 + 128) with (m mod 128 + 1 * 128) by lia.
    rewrite Z.mod_add, Z.mod_mod by lia. lia.
Qed.



(** ** How many compressions a run makes *)

Lemma block_loop_count read lastFlags chunkStart chunkLen counter flags cv0 :
  0 <= chunkLen ->
  Z.of_nat
    (length (snd (block_loop read lastFlags chunkStart chunkLen counter flags
                    cv0)))
  = block_count chunkLen.
Proof.
  intros Hlen. unfold block_loop.
  pose proof (block_count_pos chunkLen Hlen) as Hcount.
  destruct (while_total block_cond
              (block_body read lastFlags chunkStart chunkLen counter flags)
              (fun st : list Z * Z * Z * list call =>
                 0 <= snd (fst st)
                 /\ Z.of_nat (length (snd st)) + snd (fst st)
                    = block_count chunkLen)
              (fun st => Z.to_nat (snd (fst st)))
              ltac:(intros [[[cv pos] n] calls] [Hn Hsum] Hc;
                    unfold block_cond in Hc; apply Z.ltb_lt in Hc;
                    cbn [block_body fst snd] in *;
                    rewrite length_app; cbn [length];
                    repeat split; lia)
              (Z.to_nat (block_count chunkLen))
              (cv0, 0, block_count chunkLen, []))
    as [[Hn Hsum] Hstop].
  - cbn [fst snd length]. lia.
  - apply Nat.le_refl.
  - destruct (JS.while _ _ _ _) as [[[cv pos] n] calls].
    unfold block_cond in Hstop. apply Z.ltb_ge in Hstop.
    cbn [fst snd] in *. lia.
Qed.

Section TreeCount.

Variable chunk : Z -> list Z * list call.
Variable merge_eager : list Z -> list Z -> list Z * list call.
Variable merge_final : list Z -> list Z -> bool -> list Z * list call.
Variable guarded : bool.
Variable numChunks : Z.

(** The number of compressions of chunk [c]. *)
Variable blocks : Z -> Z.

Hypothesis chunk_blocks :
forall c, 0 <= c < numChunks -> Z.of_nat (length (snd (chunk c))) = blocks c.
Hypothesis merge_eager_one : forall l r, length (snd (merge_eager l r)) = 1%nat.
Hypothesis merge_final_one :
forall l r b, length (snd (merge_final l r b)) = 1%nat.

(** The compressions of the first [k] chunks. *)
Definition blocks_before (k : nat) : Z :=
fold_right Z.add 0 (map (fun c => blocks (Z.of_nat c)) (seq 0 k)).

Lemma blocks_before_S k :
blocks_before (S k) = blocks_before k + blocks (Z.of_nat k).
Proof.
unfold blocks_before. rewrite seq_S, map_app. cbn [map Nat.add].
generalize (map (fun c => blocks (Z.of_nat c)) (seq 0 k)) as l.
induction l as [|x l IH]; simpl; [lia | rewrite IH; lia].
Qed.

(** A merge takes one entry off the stack and adds one compression. *)
Definition balance (st : Z * list (list Z) * list call) : Z :=
Z.of_nat (length (snd st)) + Z.of_nat (length (snd (fst st))).

Lemma eager_body_balance st :
balance (eager_body merge_eager st) = balance st.
Proof.
destruct st as [[t stack] calls]. unfold balance. simpl.
destruct stack as [|r [|l rest]]; try reflexivity.
pose proof (merge_eager_one l r) as H.
destruct (merge_eager l r) as [cv made]. cbn [fst snd] in *.
rewrite length_app, H. cbn [length]. lia.
Qed.

Lemma push_chunk_balance c cv stack calls :
Z.of_nat (length (snd (push_chunk merge_eager guarded numChunks c cv stack
                         calls)))
+ Z.of_nat (length (fst (push_chunk merge_eager guarded numChunks c cv stack
                           calls)))
= Z.of_nat (length calls) + Z.of_nat (length stack) + 1.
Proof.
unfold push_chunk.
destruct (guarded && (c =? numChunks - 1)); [cbn [fst snd length]; lia|].
pose proof (while_ind eager_cond (eager_body merge_eager)
              (fun st => balance st
                         = Z.of_nat (length calls)
                           + Z.of_nat (length stack) + 1)
              ltac:(intros st H _; cbv beta in *; rewrite eager_body_balance;
                    exact H)
              (length (cv :: stack)) (c + 1, cv :: stack, calls)
              ltac:(unfold balance; cbn [fst snd length]; lia)) as H.
destruct (JS.while _ _ _ _) as [[t stack'] calls']. exact H.
Qed.

Definition count_inv (st : Z * list (list Z) * list call) : Prop :=
let '(c, stack, calls) := st in
0 <= c <= numChunks
/\ Z.of_nat (length calls) + Z.of_nat (length stack)
   = blocks_before (Z.to_nat c) + c.

Lemma count_step st :
count_inv st -> chunks_cond numChunks st = true ->
count_inv (chunks_body chunk merge_eager guarded numChunks st)
/\ (Z.to_nat (numChunks
              - fst (fst (chunks_body chunk merge_eager guarded numChunks st)))
    < Z.to_nat (numChunks - fst (fst st)))%nat.
Proof.
destruct st as [[c stack] calls]. unfold count_inv, chunks_cond.
intros [Hc Hsum] Hlt. apply Z.ltb_lt in Hlt. unfold chunks_body.
pose proof (chunk_blocks c ltac:(lia)) as Hb.
destruct (chunk c) as [cv made]. cbn [snd] in Hb.
pose proof (push_chunk_balance c cv stack (calls ++ made)) as Hp.
destruct (push_chunk _ _ _ _ _ _ _) as [stack' calls'].
cbn [fst snd] in *. rewrite length_app in Hp. split; [|lia].
split; [lia|].
replace (Z.to_nat (c + 1)) with (S (Z.to_nat c)) by lia.
rewrite blocks_before_S, Z2Nat.id by lia. lia.
Qed.

Lemma final_body_balance st :
Z.of_nat (length (snd (final_body merge_final st)))
+ Z.of_nat (length (fst (final_body merge_final st)))
= Z.of_nat (length (snd st)) + Z.of_nat (length (fst st)).
Proof.
destruct st as [stack calls]. simpl.
destruct stack as [|r [|l rest]]; try reflexivity.
pose proof (merge_final_one l r (Z.of_nat (length rest) =? 0)) as H.
destruct (merge_final l r _) as [cv made]. cbn [fst snd] in *.
rewrite length_app, H. cbn [length]. lia.
Qed.

(** The tree makes the compressions of its chunks and one for each merge,
  of which there is one less than there are chunks. *)
Lemma tree_count :
1 <= numChunks ->
Z.of_nat
  (length (snd (tree chunk merge_eager merge_final guarded numChunks)))
= blocks_before (Z.to_nat numChunks) + numChunks - 1.
Proof.
intros Hn. unfold tree.
pose proof (chunks_loop_exit chunk merge_eager guarded numChunks
              ltac:(lia)) as Hexit.
unfold chunks_loop in *.
destruct (while_total (chunks_cond numChunks)
            (chunks_body chunk merge_eager guarded numChunks)
            count_inv (fun st => Z.to_nat (numChunks - fst (fst st)))
            count_step (Z.to_nat numChunks) (0, [], []))
  as [Hinv _].
- unfold count_inv. cbn [length]. split; [lia | reflexivity].
- cbn [fst]. lia.
- destruct (JS.while _ _ _ _) as [[c stack] calls].
  destruct Hexit as [-> Hne]. specialize (Hne Hn).
  destruct Hinv as [_ Hsum].
  pose proof (final_merges_single merge_final (stack, calls) Hne) as Hone.
  pose proof (while_ind final_cond (final_body merge_final)
                (fun st => Z.of_nat (length (snd st))
                           + Z.of_nat (length (fst st))
                           = Z.of_nat (length calls)
                             + Z.of_nat (length stack))
                ltac:(intros st H _; cbv beta in *;
                      rewrite final_body_balance; exact H)
                (length (fst (stack, calls))) (stack, calls) eq_refl)
    as Hfin.
  unfold final_merges in *.
  destruct (JS.while _ _ _ (stack, calls)) as [stack' calls'].
  cbn [fst snd] in *. lia.
Qed.

End TreeCount.

Lemma block_count_full : block_count CHUNK_LEN = 16.
Proof. reflexivity. Qed.

(** The blocks of an input of more than one chunk: sixteen for every chunk
    but the last. *)
Lemma hash_blocks_before len (k : nat) :
  Z.of_nat k < JS.ceil_div len CHUNK_LEN ->
  blocks_before
    (fun c => block_count (Z.min CHUNK_LEN (len - c * CHUNK_LEN))) k
  = 16 * Z.of_nat k.
Proof.
  induction k as [|k IH]; intros Hk; [reflexivity|].
  rewrite blocks_before_S, IH by lia.
  replace (Z.min CHUNK_LEN (len - Z.of_nat k * CHUNK_LEN)) with CHUNK_LEN.
  - rewrite block_count_full. lia.
  - unfold JS.ceil_div, CHUNK_LEN in *. Z.div_mod_to_equations. lia.
Qed.

Lemma hash_blocks_total len :
  CHUNK_LEN < len ->
  blocks_before
    (fun c => block_count (Z.min CHUNK_LEN (len - c * CHUNK_LEN)))
    (Z.to_nat (JS.ceil_div len CHUNK_LEN))
  = JS.ceil_div len BLOCK_LEN.
Proof.
  intros Hlen. pose proof (ceil_div_chunks len Hlen) as Hn.
  replace (Z.to_nat (JS.ceil_div len CHUNK_LEN))
    with (S (Z.to_nat (JS.ceil_div len CHUNK_LEN - 1))) by lia.
  rewrite blocks_before_S, hash_blocks_before by lia.
  rewrite Z2Nat.id by lia.
  unfold block_count, JS.ceil_div, CHUNK_LEN, BLOCK_LEN in *.
  set (n := (len + 1024 - 1) / 1024) in *.
  assert (Hn1 : 1024 * (n - 1) < len <= 1024 * n)
    by (unfold n; Z.div_mod_to_equations; lia).
  replace (Z.min 1024 (len - (n - 1) * 1024)) with (len - (n - 1) * 1024)
    by lia.
  assert (Hq : (len + 64 - 1) / 64
               = 16 * (n - 1) + (len - (n - 1) * 1024 + 64 - 1) / 64).
  { replace (len + 64 - 1)
      with (len - (n - 1) * 1024 + 64 - 1 + 16 * (n - 1) * 64) by lia.
    rewrite Z.div_add by lia. lia. }
  rewrite Hq.
  destruct ((len - (n - 1) * 1024 + 64 - 1) / 64 =? 0) eqn:E; [|lia].
  apply Z.eqb_eq in E. exfalso. Z.div_mod_to_equations. lia.
Qed.

(** The number of compressions of a run of [hash]. *)
Lemma hash_root_count le bo input :
  Z.of_nat (length (snd (hash_root le bo 0 input)))
  = Z.max 1 (JS.ceil_div (len8 input) BLOCK_LEN)
    + Z.max 1 (JS.ceil_div (len8 input) CHUNK_LEN) - 1.
Proof.
  assert (Hlen : 0 <= len8 input) by (unfold len8; lia).
  unfold hash_root. destruct (len8 input <=? CHUNK_LEN) eqn:E.
  - apply Z.leb_le in E.
    pose proof (block_loop_count (read_fast le bo input) (JS.or CHUNK_END ROOT)
                  0 (len8 input) 0 0 IV Hlen) as H.
    destruct (block_loop _ _ _ _ _ _ _) as [cv calls]. cbn [snd] in *.
    rewrite H. unfold block_count.
    assert (Hc : Z.max 1 (JS.ceil_div (len8 input) CHUNK_LEN) = 1).
    { unfold JS.ceil_div, CHUNK_LEN in *. Z.div_mod_to_equations. lia. }
    rewrite Hc.
    assert (Hb : 0 <= JS.ceil_div (len8 input) BLOCK_LEN).
    { unfold JS.ceil_div, BLOCK_LEN. Z.div_mod_to_equations. lia. }
    destruct (Z.eqb_spec (JS.ceil_div (len8 input) BLOCK_LEN) 0); lia.
  - apply Z.leb_gt in E. pose proof (ceil_div_chunks _ E) as Hn.
    rewrite (tree_count _ _ _ true _
               (fun c => block_count (Z.min CHUNK_LEN
                                        (len8 input - c * CHUNK_LEN)))).
    + rewrite hash_blocks_total by exact E.
      assert (Hb : 1 <= JS.ceil_div (len8 input) BLOCK_LEN).
      { unfold JS.ceil_div, BLOCK_LEN, CHUNK_LEN in *.
        Z.div_mod_to_equations. lia. }
      lia.
    + intros c Hc. unfold hash_chunk, processChunk. cbv zeta.
      apply block_loop_count.
      pose proof (ceil_div_chunk_start _ _ Hc). unfold CHUNK_LEN in *. lia.
    + reflexivity.
    + reflexivity.
    + lia.
Qed.


(** ** [toHex] of [bench.ts] *)

Definition hex_digits : list ascii :=
  ["0"; "1"; "2"; "3"; "4"; "5"; "6"; "7";
   "8"; "9"; "a"; "b"; "c"; "d"; "e"; "f"]%char.

Definition hex_digit (d : Z) : ascii := nth (Z.to_nat d) hex_digits "0"%char.

(** [n.toString(16)] for a non-negative integer [n]: its digits in base 16,
    the most significant first, without leading zeros. *)
Fixpoint toString16_from (fuel : nat) (n : Z) (digits : list ascii)
    : list ascii :=
  match fuel with
  | O => digits
  | S fuel' =>
      let digits := hex_digit (n mod 16) :: digits in
      if n / 16 =? 0 then digits else toString16_from fuel' (n / 16) digits
  end.

Definition toString16 (n : Z) : list ascii :=
  toString16_from (S (Z.to_nat (Z.log2 n))) n [].

(** [s.padStart(targetLength, c)] for a fill string of one character. *)
Definition padStart (s : list ascii) (targetLength : nat) (c : ascii)
    : list ascii :=
  repeat c (targetLength - length s) ++ s.

(** [Array.from(arr).map(b => b.toString(16).padStart(2, '0')).join('')] *)
Definition toHex (arr : list byte) : list ascii :=
  concat (map (fun b => padStart (toString16 (byte_to_Z b)) 2 "0"%char) arr).

(** Reading hexadecimal back, two digits for a byte. *)
Fixpoint hex_index (c : ascii) (digits : list ascii) (i : Z) : option Z :=
  match digits with
  | [] => None
  | d :: digits' =>
      if Ascii.eqb c d then Some i else hex_index c digits' (i + 1)
  end.

Definition hex_value (c : ascii) : option Z := hex_index c hex_digits 0.

Fixpoint fromHex (s : list ascii) : option (list byte) :=
  match s with
  | [] => Some []
  | [_] => None
  | hi :: lo :: rest =>
      match hex_value hi, hex_value lo, fromHex rest with
      | Some h, Some l, Some bytes => Some (Z_to_byte (16 * h + l) :: bytes)
      | _, _, _ => None
      end
  end.

Lemma toHex_byte (b : byte) :
  exists hi lo h l,
    padStart (toString16 (byte_to_Z b)) 2 "0"%char = [hi; lo]
    /\ hex_value hi = Some h /\ hex_value lo = Some l
    /\ Z_to_byte (16 * h + l) = b.
Proof.
  destruct b;
    (eexists; eexists; eexists; eexists;
     split; [reflexivity|]; split; [reflexivity|];
     split; reflexivity).
Qed.



(** ** [transpose4xN] and [untranspose4xN]

    The [DataView] on the WebAssembly memory is a list of bytes.  A run
    that has thrown executes nothing more: the state carries the memory (or
    the arrays) and whether an exception has been thrown. *)

(** The four bytes of the 32-bit number [u], the low byte first. *)
Definition store32 (memory : list byte) (byteOffset u : Z) : list byte :=
  set8 (set8 (set8 (set8 memory byteOffset u)
                (byteOffset + 1) (Z.shiftr u 8))
          (byteOffset + 2) (Z.shiftr u 16))
    (byteOffset + 3) (Z.shiftr u 24).

Definition load32 (memory : list byte) (byteOffset : Z) : Z :=
  get8 memory byteOffset + 2 ^ 8 * get8 memory (byteOffset + 1)
  + 2 ^ 16 * get8 memory (byteOffset + 2)
  + 2 ^ 24 * get8 memory (byteOffset + 3).

(** The accesses of a [DataView] that throw a [RangeError]. *)
Definition out_of_view (memory : list byte) (byteOffset : Z) : bool :=
  (byteOffset <? 0) || (len8 memory <? byteOffset + 4).

(** [arrays[a][i]]: reading an element of [undefined] throws; an index
    outside the array gives [undefined], which [setUint32] stores as 0. *)
Definition element (arrays : list (list Z)) (a : nat) (i : Z) : option Z :=
  match nth_error arrays a with
  | Some array => Some (JS.get array i)
  | None => None
  end.

(** [memory.setUint32(byteOffset, value, true)] *)
Definition setUint32 (byteOffset : Z) (value : option Z)
    (st : list byte * bool) : list byte * bool :=
  let '(memory, thrown) := st in
  if thrown then st
  else match value with
       | None => (memory, true)
       | Some value =>
           if out_of_view memory byteOffset then (memory, true)
           else (store32 memory byteOffset (JS.ToUint32 value), false)
       end.

Definition transpose4xN_cond (n : Z) (st : Z * (list byte * bool)) : bool :=
  negb (snd (snd st)) && (fst st <? n).

Definition transpose4xN_body (arrays : list (list Z)) (offset : Z)
    (st : Z * (list byte * bool)) : Z * (list byte * bool) :=
  let '(i, memory) := st in
  let base := offset + i * 16 in
  let memory := setUint32 base (element arrays 0 i) memory in
  let memory := setUint32 (base + 4) (element arrays 1 i) memory in
  let memory := setUint32 (base + 8) (element arrays 2 i) memory in
  let memory := setUint32 (base + 12) (element arrays 3 i) memory in
  (i + 1, memory).

(** The memory after the call, and whether the call has thrown. *)
Definition transpose4xN (arrays : list (list Z)) (n : Z) (memory : list byte)
    (offset : Z) : list byte * bool :=
  snd (JS.while (Z.to_nat n) (transpose4xN_cond n)
         (transpose4xN_body arrays offset) (0, (memory, false))).

(** [memory.getUint32(byteOffset, true)] *)
Definition getUint32 (memory : list byte) (byteOffset : Z) : option Z :=
  if out_of_view memory byteOffset then None
  else Some (load32 memory byteOffset).

Fixpoint put (arrays : list (list Z)) (a : nat) (array : list Z)
    : list (list Z) :=
  match arrays, a with
  | [], _ => []
  | _ :: rest, O => array :: rest
  | first :: rest, S a' => first :: put rest a' array
  end.

(** [arrays[a][i] = value]; the four arrays are four objects. *)
Definition assign (a : nat) (i : Z) (value : option Z)
    (st : list (list Z) * bool) : list (list Z) * bool :=
  let '(arrays, thrown) := st in
  if thrown then st
  else match nth_error arrays a, value with
       | Some array, Some value =>
           (put arrays a (JS.set32 array i value), false)
       | _, _ => (arrays, true)
       end.

Definition untranspose4xN_cond (n : Z) (st : Z * (list (list Z) * bool))
    : bool :=
  negb (snd (snd st)) && (fst st <? n).

Definition untranspose4xN_body (memory : list byte) (offset : Z)
    (st : Z * (list (list Z) * bool)) : Z * (list (list Z) * bool) :=
  let '(i, arrays) := st in
  let base := offset + i * 16 in
  let arrays := assign 0 i (getUint32 memory base) arrays in
  let arrays := assign 1 i (getUint32 memory (base + 4)) arrays in
  let arrays := assign 2 i (getUint32 memory (base + 8)) arrays in
  let arrays := assign 3 i (getUint32 memory (base + 12)) arrays in
  (i + 1, arrays).

(** The arrays after the call, and whether the call has thrown. *)
Definition untranspose4xN (memory : list byte) (offset n : Z)
    (arrays : list (list Z)) : list (list Z) * bool :=
  snd (JS.while (Z.to_nat n) (untranspose4xN_cond n)
         (untranspose4xN_body memory offset) (0, (arrays, false))).

(** *** Bytes of the memory *)

Lemma nth_error_upd8 l n v j :
  nth_error (upd8 l n v) j =
  if (j =? n)%nat && (n <? length l)%nat then Some v else nth_error l j.
Proof.
  revert n j; induction l as [|h t IH]; intros n j.
  - destruct n, j; simpl; rewrite ?andb_false_r; reflexivity.
  - destruct n as [|n], j as [|j]; simpl; try reflexivity.
    rewrite IH. reflexivity.
Qed.

Lemma byte_to_Z_mod v : byte_to_Z (Z_to_byte v) = v mod 256.
Proof.
  unfold byte_to_Z, Z_to_byte.
  change 255 with (Z.ones 8). rewrite Z.land_ones by lia.
  change (2 ^ 8) with 256.
  pose proof (Z.mod_pos_bound v 256 ltac:(lia)) as Hr.
  destruct (Byte.of_N (Z.to_N (v mod 256))) as [b|] eqn:E.
  - apply Byte.to_of_N in E. rewrite E. lia.
  - apply Byte.of_N_None_iff in E. lia.
Qed.

Lemma len8_set8 m i v : len8 (set8 m i v) = len8 m.
Proof.
  unfold len8, set8. destruct (i <? 0); [reflexivity|].
  rewrite length_upd8. reflexivity.
Qed.

Lemma get8_set8 m i v k :
  0 <= i < len8 m ->
  get8 (set8 m i v) k = if k =? i then v mod 256 else get8 m k.
Proof.
  intros Hi. unfold len8 in Hi. unfold get8, set8.
  replace (i <? 0) with false by (symmetry; apply Z.ltb_ge; lia).
  destruct (Z.ltb_spec k 0) as [Hk|Hk].
  - replace (k =? i) with false by (symmetry; apply Z.eqb_neq; lia).
    reflexivity.
  - rewrite nth_error_upd8.
    replace (Z.to_nat i <? length m)%nat with true
      by (symmetry; apply Nat.ltb_lt; lia).
    rewrite andb_true_r. destruct (Z.eqb_spec k i) as [->|Hne].
    + rewrite Nat.eqb_refl. apply byte_to_Z_mod.
    + replace (Z.to_nat k =? Z.to_nat i)%nat with false
        by (symmetry; apply Nat.eqb_neq; lia).
      reflexivity.
Qed.

Lemma len8_store32 m o u : len8 (store32 m o u) = len8 m.
Proof. unfold store32. rewrite !len8_set8. reflexivity. Qed.

Ltac decide_cmp :=
  repeat match goal with
         | |- context [?a <? ?b] =>
             first [ replace (a <? b) with true
                       by (symmetry; apply Z.ltb_lt; lia)
                   | replace (a <? b) with false
                       by (symmetry; apply Z.ltb_ge; lia) ]
         | |- context [?a <=? ?b] =>
             first [ replace (a <=? b) with true
                       by (symmetry; apply Z.leb_le; lia)
                   | replace (a <=? b) with false
                       by (symmetry; apply Z.leb_gt; lia) ]
         | |- context [?a =? ?b] =>
             first [ replace (a =? b) with true
                       by (symmetry; apply Z.eqb_eq; lia)
                   | replace (a =? b) with false
                       by (symmetry; apply Z.eqb_neq; lia) ]
         end.

(** A store changes its four bytes and no other. *)
Lemma get8_store32 m o u k :
  0 <= o -> o + 4 <= len8 m ->
  get8 (store32 m o u) k
  = if (o <=? k) && (k <? o + 4) then (u / 2 ^ (8 * (k - o))) mod 256
    else get8 m k.
Proof.
  intros Ho Hlen. unfold store32.
  rewrite !get8_set8 by (rewrite ?len8_set8; lia).
  rewrite !Z.shiftr_div_pow2 by lia.
  assert (Hk : k < o \/ k = o \/ k = o + 1 \/ k = o + 2 \/ k = o + 3
               \/ o + 4 <= k) by lia.
  destruct Hk as [Hk|[->|[->|[->|[->|Hk]]]]]; decide_cmp; cbn [andb];
    try reflexivity.
  - replace (o - o) with 0 by lia. change (2 ^ (8 * 0)) with 1.
    rewrite Z.div_1_r. reflexivity.
  - replace (o + 1 - o) with 1 by lia. reflexivity.
  - replace (o + 2 - o) with 2 by lia. reflexivity.
  - replace (o + 3 - o) with 3 by lia. reflexivity.
Qed.

Lemma in_view m o : 0 <= o -> o + 4 <= len8 m -> out_of_view m o = false.
Proof. intros Ho Hlen. unfold out_of_view. decide_cmp. reflexivity. Qed.

Lemma setUint32_in_view m o v :
  0 <= o -> o + 4 <= len8 m ->
  setUint32 o (Some v) (m, false) = (store32 m o (JS.ToUint32 v), false).
Proof. intros Ho Hlen. unfold setUint32. rewrite in_view by lia. reflexivity. Qed.

(** *** The transposed layout *)

Section Transposed.

Variables a0 a1 a2 a3 : list Z.
Variable offset : Z.
Variable memory0 : list byte.

Hypothesis offset_nonneg : 0 <= offset.

(** Word [j] of array [a], as a store converts it. *)
Definition word_at (j a : Z) : Z :=
JS.ToUint32 (JS.get (nth (Z.to_nat a) [a0; a1; a2; a3] []) j).

(** The byte at distance [r] from [offset]: sixteen bytes for every index,
  four for every array. *)
Definition byte_at (r : Z) : Z :=
(word_at (r / 16) ((r mod 16) / 4) / 2 ^ (8 * (r mod 4))) mod 256.

Lemma byte_at_word j a b :
0 <= j -> 0 <= a < 4 -> 0 <= b < 4 ->
byte_at (16 * j + 4 * a + b) = (word_at j a / 2 ^ (8 * b)) mod 256.
Proof.
intros Hj Ha Hb. unfold byte_at.
replace ((16 * j + 4 * a + b) / 16) with j
  by (Z.div_mod_to_equations; lia).
replace ((16 * j + 4 * a + b) mod 16 / 4) with a
  by (Z.div_mod_to_equations; lia).
replace ((16 * j + 4 * a + b) mod 4) with b
  by (Z.div_mod_to_equations; lia).
reflexivity.
Qed.

(** The memory after [i] iterations of [transpose4xN]. *)
Definition transposed (i : Z) (m : list byte) : Prop :=
len8 m = len8 memory0
/\ forall k, get8 m k
             = if (offset <=? k) && (k <? offset + 16 * i)
               then byte_at (k - offset) else get8 memory0 k.

Lemma transposed_step i m :
0 <= i -> offset + 16 * (i + 1) <= len8 memory0 -> transposed i m ->
exists m',
  transpose4xN_body [a0; a1; a2; a3] offset (i, (m, false))
  = (i + 1, (m', false))
  /\ transposed (i + 1) m'.
Proof.
intros Hi Hfit [Hlen Hbytes]. unfold transpose4xN_body.
cbn [element nth_error].
rewrite setUint32_in_view by lia.
rewrite setUint32_in_view by (rewrite ?len8_store32; lia).
rewrite setUint32_in_view by (rewrite ?len8_store32; lia).
rewrite setUint32_in_view by (rewrite ?len8_store32; lia).
eexists. split; [reflexivity|]. split.
- rewrite !len8_store32. exact Hlen.
- intros k.
  rewrite !get8_store32 by (rewrite ?len8_store32; lia).
  rewrite Hbytes.
  assert (Hk : k < offset \/ offset <= k < offset + 16 * i
               \/ (exists a b, 0 <= a < 4 /\ 0 <= b < 4
                               /\ k = offset + i * 16 + 4 * a + b)
               \/ offset + 16 * (i + 1) <= k).
  { destruct (Z_lt_le_dec k offset); [lia|].
    destruct (Z_lt_le_dec k (offset + 16 * i)); [lia|].
    destruct (Z_lt_le_dec k (offset + 16 * (i + 1))); [|lia].
    right. right. left.
    exists ((k - offset - i * 16) / 4), ((k - offset - i * 16) mod 4).
    Z.div_mod_to_equations. lia. }
  destruct Hk as [Hk|[Hk|[(a & b & Ha & Hb & ->)|Hk]]].
  + decide_cmp. reflexivity.
  + decide_cmp. reflexivity.
  + replace (offset + i * 16 + 4 * a + b - offset)
      with (16 * i + 4 * a + b) by lia.
    rewrite byte_at_word by lia. unfold word_at.
    assert (Hc : a = 0 \/ a = 1 \/ a = 2 \/ a = 3) by lia.
    destruct Hc as [->|[->|[->| ->]]]; decide_cmp; cbn [andb];
      cbn [Z.to_nat Pos.to_nat Pos.iter_op Nat.add nth];
      f_equal; f_equal; f_equal; lia.
  + decide_cmp. reflexivity.
Qed.

Definition transpose_inv (n : Z) (st : Z * (list byte * bool)) : Prop :=
let '(i, (m, thrown)) := st in
thrown = false /\ 0 <= i <= n /\ transposed i m.

Lemma transpose_loop n :
0 <= n -> offset + 16 * n <= len8 memory0 ->
exists m,
  transpose4xN [a0; a1; a2; a3] n memory0 offset = (m, false)
  /\ transposed n m.
Proof.
intros Hn Hfit. unfold transpose4xN.
destruct (while_total (transpose4xN_cond n)
            (transpose4xN_body [a0; a1; a2; a3] offset)
            (transpose_inv n) (fun st => Z.to_nat (n - fst st)))
  with (fuel := Z.to_nat n) (s := (0, (memory0, false)))
  as [Hinv Hstop].
- intros [i [m thrown]] (-> & Hi & Ht) Hc.
  unfold transpose4xN_cond in Hc. cbn [fst snd negb andb] in Hc.
  apply Z.ltb_lt in Hc.
  destruct (transposed_step i m) as (m' & -> & Ht'); [lia|nia|exact Ht|].
  cbn [fst transpose_inv]. repeat split; try lia; apply Ht'.
- cbn [transpose_inv]. split; [reflexivity|]. split; [lia|]. split.
  + reflexivity.
  + intros k.
    destruct (Z.leb_spec offset k), (Z.ltb_spec k (offset + 16 * 0));
      try reflexivity; lia.
- cbn [fst]. lia.
- destruct (JS.while _ _ _ _) as [i [m thrown]].
  destruct Hinv as (-> & Hi & Ht).
  unfold transpose4xN_cond in Hstop. cbn [fst snd negb andb] in Hstop.
  apply Z.ltb_ge in Hstop. replace i with n in Ht by lia.
  exists m. split; [reflexivity | exact Ht].
Qed.

(** Reading a word back. *)
Lemma getUint32_transposed n m j a :
transposed n m -> offset + 16 * n <= len8 memory0 ->
0 <= j < n -> 0 <= a < 4 ->
getUint32 m (offset + j * 16 + 4 * a) = Some (word_at j a).
Proof.
intros [Hlen Hbytes] Hfit Hj Ha. unfold getUint32.
rewrite in_view by lia. f_equal. unfold load32. rewrite !Hbytes.
decide_cmp. cbn [andb].
replace (offset + j * 16 + 4 * a - offset) with (16 * j + 4 * a + 0) by lia.
replace (offset + j * 16 + 4 * a + 1 - offset) with (16 * j + 4 * a + 1)
  by lia.
replace (offset + j * 16 + 4 * a + 2 - offset) with (16 * j + 4 * a + 2)
  by lia.
replace (offset + j * 16 + 4 * a + 3 - offset) with (16 * j + 4 * a + 3)
  by lia.
rewrite !byte_at_word by lia.
change (2 ^ (8 * 0)) with 1. rewrite Z.div_1_r.
change (8 * 1) with 8. change (8 * 2) with 16. change (8 * 3) with 24.
apply word_of_bytes. apply ToUint32_range.
Qed.

End Transposed.

(** *** Writing the words back *)

Lemma skipn_nth (l : list Z) (i : nat) :
  (i < length l)%nat -> skipn i l = nth i l 0 :: skipn (S i) l.
Proof.
  revert i; induction l as [|x l IH]; intros [|i] Hi; simpl in *;
    try lia; [reflexivity | apply IH; lia].
Qed.

Lemma firstn_snoc (l : list Z) (i : nat) :
  (i < length l)%nat -> firstn (S i) l = firstn i l ++ [nth i l 0].
Proof.
  revert i; induction l as [|x l IH]; intros [|i] Hi; simpl in *;
    try lia; [reflexivity | rewrite <- IH by lia; reflexivity].
Qed.

(** The array [a], with its words from index [i] on still those of [o]. *)
Definition filled (i : Z) (a o : list Z) : list Z :=
  firstn (Z.to_nat i) a ++ skipn (Z.to_nat i) o.

Lemma set32_filled i a o :
  0 <= i < Z.of_nat (length a) -> length o = length a -> Forall Ref.word a ->
  JS.set32 (filled i a o) i (JS.ToUint32 (JS.get a i)) = filled (i + 1) a o.
Proof.
  intros Hi Hlen Hall. unfold JS.set32, JS.set, JS.get, filled.
  replace (i <? 0) with false by (symmetry; apply Z.ltb_ge; lia).
  assert (Hw : Ref.word (nth (Z.to_nat i) a 0)).
  { rewrite Forall_forall in Hall. apply Hall, nth_In. lia. }
  rewrite !(ToUint32_small (nth (Z.to_nat i) a 0) Hw).
  rewrite (skipn_nth o) by lia.
  rewrite upd_at by (rewrite length_firstn; lia).
  replace (Z.to_nat (i + 1)) with (S (Z.to_nat i)) by lia.
  rewrite firstn_snoc by lia. rewrite <- app_assoc. reflexivity.
Qed.

Lemma filled_all a o :
  length o = length a -> filled (Z.of_nat (length a)) a o = a.
Proof.
  intros Hlen. unfold filled. rewrite Nat2Z.id, firstn_all.
  rewrite <- Hlen, skipn_all. apply app_nil_r.
Qed.

Lemma Forall_four {A : Type} (P : A -> Prop) (a b c d : A) :
  Forall P [a; b; c; d] -> P a /\ P b /\ P c /\ P d.
Proof.
  intros H. inversion H as [|? ? Ha H1]; subst.
  inversion H1 as [|? ? Hb H2]; subst.
  inversion H2 as [|? ? Hc H3]; subst.
  inversion H3 as [|? ? Hd _]; subst. auto.
Qed.

Section Untransposed.

Variables a0 a1 a2 a3 o0 o1 o2 o3 : list Z.
Variable offset n : Z.
Variable memory0 memory : list byte.

Hypothesis offset_nonneg : 0 <= offset.
Hypothesis fits : offset + 16 * n <= len8 memory0.
Hypothesis words : Forall (Forall Ref.word) [a0; a1; a2; a3].
Hypothesis length_arrays :
Forall (fun a => Z.of_nat (length a) = n) [a0; a1; a2; a3].
Hypothesis length_outputs :
Forall (fun o => Z.of_nat (length o) = n) [o0; o1; o2; o3].
Hypothesis memory_transposed : transposed a0 a1 a2 a3 offset memory0 n memory.

Definition untranspose_inv (st : Z * (list (list Z) * bool)) : Prop :=
let '(i, (arrays, thrown)) := st in
thrown = false /\ 0 <= i <= n
/\ arrays = [filled i a0 o0; filled i a1 o1; filled i a2 o2;
             filled i a3 o3].

Lemma untranspose_step st :
untranspose_inv st -> untranspose4xN_cond n st = true ->
untranspose_inv (untranspose4xN_body memory offset st)
/\ (Z.to_nat (n - fst (untranspose4xN_body memory offset st))
    < Z.to_nat (n - fst st))%nat.
Proof.
destruct st as [i [arrays thrown]]. intros (-> & Hi & ->) Hc.
unfold untranspose4xN_cond in Hc. cbn [fst snd negb andb] in Hc.
apply Z.ltb_lt in Hc.
destruct (Forall_four _ _ _ _ _ words) as (Hw0 & Hw1 & Hw2 & Hw3).
destruct (Forall_four _ _ _ _ _ length_arrays) as (Hl0 & Hl1 & Hl2 & Hl3).
destruct (Forall_four _ _ _ _ _ length_outputs)
  as (Ho0 & Ho1 & Ho2 & Ho3).
unfold untranspose4xN_body.
pose proof (getUint32_transposed a0 a1 a2 a3 offset memory0 offset_nonneg
              _ memory i 0 memory_transposed fits ltac:(lia) ltac:(lia))
  as G0.
pose proof (getUint32_transposed a0 a1 a2 a3 offset memory0 offset_nonneg
              _ memory i 1 memory_transposed fits ltac:(lia) ltac:(lia))
  as G1.
pose proof (getUint32_transposed a0 a1 a2 a3 offset memory0 offset_nonneg
              _ memory i 2 memory_transposed fits ltac:(lia) ltac:(lia))
  as G2.
pose proof (getUint32_transposed a0 a1 a2 a3 offset memory0 offset_nonneg
              _ memory i 3 memory_transposed fits ltac:(lia) ltac:(lia))
  as G3.
replace (offset + i * 16 + 4 * 0) with (offset + i * 16) in G0 by lia.
replace (offset + i * 16 + 4 * 1) with (offset + i * 16 + 4) in G1 by lia.
replace (offset + i * 16 + 4 * 2) with (offset + i * 16 + 8) in G2 by lia.
replace (offset + i * 16 + 4 * 3) with (offset + i * 16 + 12) in G3 by lia.
rewrite G0, G1, G2, G3. unfold word_at.
change (Z.to_nat 0) with 0%nat. change (Z.to_nat 1) with 1%nat.
change (Z.to_nat 2) with 2%nat. change (Z.to_nat 3) with 3%nat.
cbn [nth assign nth_error put fst].
rewrite !set32_filled by (assumption || lia).
split; [|lia]. cbn [untranspose_inv].
split; [reflexivity|]. split; [lia | reflexivity].
Qed.

Lemma untranspose_loop :
untranspose4xN memory offset n [o0; o1; o2; o3]
= ([a0; a1; a2; a3], false).
Proof.
unfold untranspose4xN.
destruct (Forall_four _ _ _ _ _ length_arrays) as (Hl0 & Hl1 & Hl2 & Hl3).
destruct (Forall_four _ _ _ _ _ length_outputs)
  as (Ho0 & Ho1 & Ho2 & Ho3).
destruct (while_total (untranspose4xN_cond n)
            (untranspose4xN_body memory offset)
            untranspose_inv (fun st => Z.to_nat (n - fst st))
            untranspose_step (Z.to_nat n) (0, ([o0; o1; o2; o3], false)))
  as [Hinv Hstop].
- cbn [untranspose_inv]. split; [reflexivity|]. split; [lia|].
  reflexivity.
- cbn [fst]. lia.
- destruct (JS.while _ _ _ _) as [i [arrays thrown]].
  destruct Hinv as (-> & Hi & ->).
  unfold untranspose4xN_cond in Hstop. cbn [fst snd negb andb] in Hstop.
  apply Z.ltb_ge in Hstop.
  replace i with n by lia. cbn [snd].
  rewrite <- Hl0 at 1. rewrite (filled_all a0) by lia.
  rewrite <- Hl1 at 1. rewrite (filled_all a1) by lia.
  rewrite <- Hl2 at 1. rewrite (filled_all a2) by lia.
  rewrite <- Hl3 at 1. rewrite (filled_all a3) by lia.
  reflexivity.
Qed.

End Untransposed.

(** *** The stores that throw *)

Lemma setUint32_thrown o v m t :
  len8 (fst (setUint32 o v (m, t))) = len8 m
  /\ (snd (setUint32 o v (m, t)) = false ->
      t = false /\ 0 <= o /\ o + 4 <= len8 m).
Proof.
  unfold setUint32. destruct t; [split; [reflexivity | discriminate]|].
  destruct v as [v|]; [|split; [reflexivity | discriminate]].
  unfold out_of_view.
  destruct (Z.ltb_spec o 0); [split; [reflexivity | discriminate]|].
  destruct (Z.ltb_spec (len8 m) (o + 4));
    [split; [reflexivity | discriminate]|].
  cbn [orb fst snd]. rewrite len8_store32. split; [reflexivity | lia].
Qed.

(** As long as nothing has thrown, the words written lie in the memory. *)
Definition in_bounds (offset n : Z) (memory : list byte)
    (st : Z * (list byte * bool)) : Prop :=
  let '(i, (m, thrown)) := st in
  len8 m = len8 memory
  /\ (thrown = false ->
      0 <= i <= n /\ (1 <= i -> 0 <= offset /\ offset + 16 * i <= len8 memory)).

Lemma in_bounds_step arrays offset n memory st :
  in_bounds offset n memory st -> transpose4xN_cond n st = true ->
  in_bounds offset n memory (transpose4xN_body arrays offset st)
  /\ (Z.to_nat (n - fst (transpose4xN_body arrays offset st))
      < Z.to_nat (n - fst st))%nat.
Proof.
  destruct st as [i [m thrown]]. intros [Hlen Hin] Hc.
  unfold transpose4xN_cond in Hc. cbn [fst snd] in Hc.
  apply andb_prop in Hc. destruct Hc as [Ht Hc].
  apply negb_true_iff in Ht. subst thrown. apply Z.ltb_lt in Hc.
  destruct (Hin eq_refl) as [Hi Hfit].
  unfold transpose4xN_body.
  pose proof (setUint32_thrown (offset + i * 16) (element arrays 0 i) m false)
    as S0.
  destruct (setUint32 (offset + i * 16) _ (m, false)) as [m1 t1].
  pose proof (setUint32_thrown (offset + i * 16 + 4) (element arrays 1 i) m1 t1)
    as S1.
  destruct (setUint32 (offset + i * 16 + 4) _ (m1, t1)) as [m2 t2].
  pose proof (setUint32_thrown (offset + i * 16 + 8) (element arrays 2 i) m2 t2)
    as S2.
  destruct (setUint32 (offset + i * 16 + 8) _ (m2, t2)) as [m3 t3].
  pose proof (setUint32_thrown (offset + i * 16 + 12) (element arrays 3 i) m3
                t3) as S3.
  destruct (setUint32 (offset + i * 16 + 12) _ (m3, t3)) as [m4 t4].
  cbn [fst snd] in *.
  destruct S0 as [L0 T0], S1 as [L1 T1], S2 as [L2 T2], S3 as [L3 T3].
  split; [|lia]. split; [congruence|].
  intros ->. destruct (T3 eq_refl) as (-> & _ & H3).
  destruct (T2 eq_refl) as (-> & _ & _).
  destruct (T1 eq_refl) as (-> & _ & _).
  destruct (T0 eq_refl) as (_ & H0 & _).
  split; [lia|]. intros _.
  assert (Hoff : 0 <= offset)
    by (destruct (Z.eq_dec i 0) as [->|Hne]; [lia | apply Hfit; lia]).
  split; [exact Hoff|]. lia.
Qed.

Lemma transpose4xN_in_bounds arrays n memory offset :
  1 <= n -> snd (transpose4xN arrays n memory offset) = false ->
  0 <= offset /\ offset + 16 * n <= len8 memory.
Proof.
  intros Hn. unfold transpose4xN.
  destruct (while_total (transpose4xN_cond n)
              (transpose4xN_body arrays offset)
              (in_bounds offset n memory) (fun st => Z.to_nat (n - fst st))
              (in_bounds_step arrays offset n memory)
              (Z.to_nat n) (0, (memory, false)))
    as [Hinv Hstop].
  - cbn [in_bounds]. split; [reflexivity|]. intros _. lia.
  - cbn [fst]. lia.
  - destruct (JS.while _ _ _ _) as [i [m thrown]]. cbn [snd].
    intros ->. destruct Hinv as [_ Hin]. destruct (Hin eq_refl) as [Hi Hfit].
    unfold transpose4xN_cond in Hstop. cbn [fst snd negb andb] in Hstop.
    apply Z.ltb_ge in Hstop. replace i with n in Hfit by lia.
    apply Hfit. lia.
Qed.


(** * Output lengths (claims C5, C6, C10) *)

(** An outcome that is a reported error. *)
Definition rejected {A : Type} (o : outcome A) : Prop := exists e, o = Throws e.

(** C6. For every input X and every output length L in [1, 64], hash(X, L)
    is the first L bytes of hash(X, 64). *)
Theorem hash_prefix_of_hash_64 (le : bool) (bo : Z) (X : list byte) (L : Z) :
  1 <= L <= 64 ->
  exists d64, hash le bo X 64 = Returns d64 /\
              hash le bo X L = Returns (firstn (Z.to_nat L) d64).
Proof.
  intros HL. rewrite !hash_cvToBytes, !cvToBytes_returns by lia.
  eexists; split; [reflexivity|]. f_equal.
  symmetry. apply digest_bytes_firstn. lia.
Qed.

Lemma hash_prefix_of_hash_64_witness :
  1 <= 20 <= 64 /\
  exists d64, hash true 0 [Byte.x61; Byte.x62; Byte.x63] 64 = Returns d64 /\
              hash true 0 [Byte.x61; Byte.x62; Byte.x63] 20 =
              Returns (firstn (Z.to_nat 20) d64).
Proof.
  split; [lia|].
  apply (hash_prefix_of_hash_64 true 0 [Byte.x61; Byte.x62; Byte.x63] 20). lia.
Defined.







(** * The end-to-end vectors (claim C1) *)

(** [generateInput] of [bench.ts]: [arr[i] = i % 251] for [i] below [len]. *)
Fixpoint generateInput_from (n : nat) (i : Z) : list byte :=
  match n with
  | O => []
  | S n' => Z_to_byte (i mod 251) :: generateInput_from n' (i + 1)
  end.

Definition generateInput (len : Z) : list byte :=
  generateInput_from (Z.to_nat len) 0.

(** af1349b9f5f9a1a6a0404dea36dcc9499bcb25c9adc112b7cc9a93cae41f3262 *)
Definition digest_0 : list byte :=
  [
   xaf; x13; x49; xb9; xf5; xf9; xa1; xa6;
   xa0; x40; x4d; xea; x36; xdc; xc9; x49;
   x9b; xcb; x25; xc9; xad; xc1; x12; xb7;
   xcc; x9a; x93; xca; xe4; x1f; x32; x62].

(** 2d3adedff11b61f14c886e35afa036736dcd87a74d27b5c1510225d0f592e213 *)
Definition digest_1 : list byte :=
  [
   x2d; x3a; xde; xdf; xf1; x1b; x61; xf1;
   x4c; x88; x6e; x35; xaf; xa0; x36; x73;
   x6d; xcd; x87; xa7; x4d; x27; xb5; xc1;
   x51; x02; x25; xd0; xf5; x92; xe2; x13].

(** 4eed7141ea4a5cd4b788606bd23f46e212af9cacebacdc7d1f4c6dc7f2511b98 *)
Definition digest_64 : list byte :=
  [
   x4e; xed; x71; x41; xea; x4a; x5c; xd4;
   xb7; x88; x60; x6b; xd2; x3f; x46; xe2;
   x12; xaf; x9c; xac; xeb; xac; xdc; x7d;
   x1f; x4c; x6d; xc7; xf2; x51; x1b; x98].

(** 42214739f095a406f3fc83deb889744ac00df831c10daa55189b5d121c855af7 *)
Definition digest_1024 : list byte :=
  [
   x42; x21; x47; x39; xf0; x95; xa4; x06;
   xf3; xfc; x83; xde; xb8; x89; x74; x4a;
   xc0; x0d; xf8; x31; xc1; x0d; xaa; x55;
   x18; x9b; x5d; x12; x1c; x85; x5a; xf7].

(** d00278ae47eb27b34faecf67b4fe263f82d5412916c1ffd97c8cb7fb814b8444 *)
Definition digest_1025 : list byte :=
  [
   xd0; x02; x78; xae; x47; xeb; x27; xb3;
   x4f; xae; xcf; x67; xb4; xfe; x26; x3f;
   x82; xd5; x41; x29; x16; xc1; xff; xd9;
   x7c; x8c; xb7; xfb; x81; x4b; x84; x44].

(** de1e5fa0be70df6d2be8fffd0e99ceaa8eb6e8c93a63f2d8d1c30ecb6b263dee: the digest the table lists for 65536 bytes. *)
Definition listed_digest_65536 : list byte :=
  [
   xde; x1e; x5f; xa0; xbe; x70; xdf; x6d;
   x2b; xe8; xff; xfd; x0e; x99; xce; xaa;
   x8e; xb6; xe8; xc9; x3a; x63; xf2; xd8;
   xd1; xc3; x0e; xcb; x6b; x26; x3d; xee].

(** 68d647e619a930e7b1082f74f334b0c65a315725569bdc123f0ee11881717bfe: the digest of the 65536 bytes. *)
Definition digest_65536 : list byte :=
  [
   x68; xd6; x47; xe6; x19; xa9; x30; xe7;
   xb1; x08; x2f; x74; xf3; x34; xb0; xc6;
   x5a; x31; x57; x25; x56; x9b; xdc; x12;
   x3f; x0e; xe1; x18; x81; x71; x7b; xfe].

Lemma hash_vector_small (le : bool) (bo : Z) :
  hash le bo (generateInput 0) 32 = Returns digest_0 /\
  hash le bo (generateInput 1) 32 = Returns digest_1 /\
  hash le bo (generateInput 64) 32 = Returns digest_64 /\
  hash le bo (generateInput 1024) 32 = Returns digest_1024 /\
  hash le bo (generateInput 1025) 32 = Returns digest_1025.
Proof.
  rewrite !(hash_host_independent le bo).
  repeat split; vm_compute; reflexivity.
Qed.



Lemma hash_vector_65536 (le : bool) (bo : Z) :
  hash le bo (generateInput 65536) 32 = Returns digest_65536.
Proof.
  unfold hash, hash_run.
  rewrite hash_root_multi by (vm_compute; reflexivity).
  vm_compute. reflexivity.
Qed.

(** C1 fails on the code at one row of the table: the digest of the 65536
    bytes is not the listed one. *)
Lemma hash_vector_65536_not_listed :
  hash true 0 (generateInput 65536) 32 = Returns digest_65536 /\
  digest_65536 <> listed_digest_65536.
Proof.
  split; [apply hash_vector_65536 | discriminate].
Qed.

(** C1, amended. For every length len in {0, 1, 64, 1024, 1025}, hash of the
    bytes [i mod 251 for i in 0..len] with output length 32 returns the
    digest the table lists for that length; for len = 65536 it returns
    68d647e619a930e7b1082f74f334b0c65a315725569bdc123f0ee11881717bfe. *)
Theorem hash_test_vectors (le : bool) (bo : Z) :
  hash le bo (generateInput 0) 32 = Returns digest_0 /\
  hash le bo (generateInput 1) 32 = Returns digest_1 /\
  hash le bo (generateInput 64) 32 = Returns digest_64 /\
  hash le bo (generateInput 1024) 32 = Returns digest_1024 /\
  hash le bo (generateInput 1025) 32 = Returns digest_1025 /\
  hash le bo (generateInput 65536) 32 = Returns digest_65536.
Proof.
  destruct (hash_vector_small le bo) as (H0 & H1 & H64 & H1024 & H1025).
  repeat split; try assumption. apply hash_vector_65536.
Qed.


(** * Where the code departs from the specification (claims C3, C4, C9) *)

(** ** C3: the ROOT flag in [keyedHash] *)

(** A key of 32 zero bytes and an input of two chunks of zero bytes. *)
Definition zero_key : list byte := repeat x00 32.
Definition two_chunks : list byte := repeat x00 2048.

(** C3, at a failing input. keyedHash of a two-chunk input returns a digest
    after 33 compressions of which none carries ROOT: the last one is the
    parent compression of the eager merge that follows the final chunk,
    with flags KEYED_HASH | PARENT.  hash of the same input makes 33
    compressions too, and exactly the last one carries ROOT. *)
Theorem keyedHash_power_of_two_chunks_has_no_root :
  (exists d, keyedHash zero_key two_chunks 32 = Returns d) /\
  length (snd (keyedHash_run zero_key two_chunks 32)) = 33%nat /\
  root_count (snd (keyedHash_run zero_key two_chunks 32)) = 0%nat /\
  option_map call_flags (last_call (snd (keyedHash_run zero_key two_chunks 32))) =
    Some (JS.or KEYED_HASH PARENT) /\
  map (has_flag ROOT) (snd (hash_run true 0 two_chunks 32)) =
    repeat false 32 ++ [true].
Proof.
  split; [eexists; vm_compute; reflexivity|].
  repeat split; vm_compute; reflexivity.
Qed.

(** ** C4: long contexts in [deriveKey] *)

(** The UTF-8 bytes of a context of 1025 letters a. *)
Definition long_context : list byte := repeat x61 1025.

(** C4, at a failing input. For a context of 1025 bytes deriveKey compresses
    17 blocks in one chain, all with counter 0 and none as a parent, and the
    context CV it gets is not the root CV of the two-chunk tree that hashing
    these bytes in DERIVE_KEY_CONTEXT mode builds. *)
Theorem deriveKey_long_context_is_one_chunk (le : bool) (bo : Z) :
  fst (deriveKey_contextCv long_context) =
    [2529768263; 2092270548; 2058904120; 2828638855;
     1021567730; 3106485332; 1823543786; 953647050] /\
  root_cv (hash_root le bo DERIVE_KEY_CONTEXT long_context) =
    [970370010; 3409257724; 2426435661; 2117963271;
     51325084; 454300479; 1649850067; 2137760387] /\
  length (snd (deriveKey_contextCv long_context)) = 17%nat /\
  forallb (fun c => (call_counter c =? 0) && negb (has_flag PARENT c))
    (snd (deriveKey_contextCv long_context)) = true /\
  map call_counter (snd (hash_root le bo DERIVE_KEY_CONTEXT long_context)) =
    repeat 0 16 ++ [1; 0].
Proof.
  rewrite (hash_root_multi le bo) by (vm_compute; reflexivity).
  repeat split; vm_compute; reflexivity.
Qed.

(** ** C9: [hashWasmSimd] before [initWasmSimd] *)

(** ed7c5df9f9b849c0c7a59e25133961f7928ef82543fdf0a5a5cdc74f82f7d57b *)
Definition uninitialized_simd_digest_1025 : list byte :=
  [
   xed; x7c; x5d; xf9; xf9; xb8; x49; xc0;
   xc7; xa5; x9e; x25; x13; x39; x61; xf7;
   x92; x8e; xf8; x25; x43; xfd; xf0; xa5;
   xa5; xcd; xc7; x4f; x82; xf7; xd5; x7b].

(** C9, at a failing input. While compress4x is null, hashWasmSimd takes
    its single-chunk path for an input of 1025 bytes too, and its digest
    differs from the one hash returns. *)
Theorem hashWasmSimd_uninitialized_differs_from_hash (le : bool) (bo : Z) :
  hashWasmSimd false (generateInput 1025) 32 =
    Returns uninitialized_simd_digest_1025 /\
  hash le bo (generateInput 1025) 32 = Returns digest_1025 /\
  uninitialized_simd_digest_1025 <> digest_1025.
Proof.
  split; [vm_compute; reflexivity|].
  split; [apply hash_vector_small | discriminate].
Qed.


(** * The key of [keyedHash] (claim C7) *)



(** * The subtree stack of [hash] (claim C8) *)

Section HashStack.

Variable IS_LITTLE_ENDIAN : bool.
Variable byteOffset : Z.

(** The state [(c, cvStack, calls)] of the [for] loop of [hash] after [n]
  iterations; the stack is kept with its top first. *)
Definition hash_chunks_loop (input : list byte) (n : nat)
  : Z * list (list Z) * list call :=
chunks_loop (hash_chunk IS_LITTLE_ENDIAN byteOffset 0 input)
  (fun left right => mergeParents left right 0 false)
  true (JS.ceil_div (len8 input) CHUNK_LEN) n.

(** The CV of the complete subtree [(h, s)] of the input: [2^h] chunks
  from chunk [s], merged pairwise by non-root parent compressions. *)
Definition hash_subtree (input : list byte) (e : nat * Z) : list Z :=
subtree (hash_chunk IS_LITTLE_ENDIAN byteOffset 0 input)
  (fun left right => mergeParents left right 0 false) (fst e) (snd e).

(** [hash] on more than one chunk runs this loop to its end, then the
  final merges. *)
Lemma hash_root_runs_loop (input : list byte) :
CHUNK_LEN < len8 input ->
hash_root IS_LITTLE_ENDIAN byteOffset 0 input
= let '(_, cvStack, calls) :=
    hash_chunks_loop input
      (Z.to_nat (JS.ceil_div (len8 input) CHUNK_LEN)) in
  let '(cvStack, calls) :=
    final_merges (fun left right isRoot => mergeParents left right 0 isRoot)
      (cvStack, calls) in
  (bottom cvStack, calls).
Proof.
intros H. unfold hash_root.
replace (len8 input <=? CHUNK_LEN) with false
  by (symmetry; apply Z.leb_gt; exact H).
reflexivity.
Qed.

Lemma hash_chunks_loop_prefix (input : list byte) (n : nat) :
Z.of_nat n <= JS.ceil_div (len8 input) CHUNK_LEN ->
hash_chunks_loop input (Z.to_nat (JS.ceil_div (len8 input) CHUNK_LEN))
= JS.while (Z.to_nat (JS.ceil_div (len8 input) CHUNK_LEN) - n)
    (chunks_cond (JS.ceil_div (len8 input) CHUNK_LEN))
    (chunks_body (hash_chunk IS_LITTLE_ENDIAN byteOffset 0 input)
       (fun left right => mergeParents left right 0 false)
       true (JS.ceil_div (len8 input) CHUNK_LEN))
    (hash_chunks_loop input n).
Proof. apply chunks_loop_prefix. Qed.

Lemma numChunks_int32 (input : list byte) :
len8 input < 2 ^ 41 -> JS.ceil_div (len8 input) CHUNK_LEN <= 2 ^ 31.
Proof.
intros H. unfold JS.ceil_div, CHUNK_LEN.
assert (Hlt : (len8 input + 1024 - 1) / 1024 < 2 ^ 31 + 1)
  by (apply Z.div_lt_upper_bound; lia).
lia.
Qed.

(** C8: in the multi-chunk loop of [hash], after [N] complete chunks, the
  last of them not the final chunk of the input, the stack holds the
  CVs of complete subtrees whose heights are exactly the set bits of
  [N], one each, strictly decreasing from the bottom of the stack to
  its top (the list has the top first); the subtree of height [h]
  covers the [2^h] chunks from chunk [2^(h+1) * (N / 2^(h+1))]; so the
  stack has at most 64 entries.  The input is shorter than 2^41 bytes,
  the range in which the chunk count fits the 32-bit operators of the
  merge loop. *)
Theorem hash_stack_mirrors_chunk_count (input : list byte) (N : nat) :
len8 input < 2 ^ 41 ->
1 <= Z.of_nat N < JS.ceil_div (len8 input) CHUNK_LEN ->
exists (entries : list (nat * Z)) (cvStack : list (list Z))
       (calls : list call),
  hash_chunks_loop input N = (Z.of_nat N, cvStack, calls)
  /\ cvStack = map (hash_subtree input) entries
  /\ (forall h : nat,
        In h (map fst entries) <-> Z.testbit (Z.of_nat N) (Z.of_nat h) = true)
  /\ StronglySorted lt (map fst entries)
  /\ (forall h s, In (h, s) entries ->
        s = 2 ^ (Z.of_nat h + 1) * (Z.of_nat N / 2 ^ (Z.of_nat h + 1)))
  /\ (length cvStack <= 64)%nat.
Proof.
intros Hlen HN.
pose proof (numChunks_int32 input Hlen) as Hmax.
destruct (chunks_loop_tiling (hash_chunk IS_LITTLE_ENDIAN byteOffset 0 input)
            (fun left right => mergeParents left right 0 false) true
            (JS.ceil_div (len8 input) CHUNK_LEN) N)
  as (entries & calls & Hst & Ht); [lia | exact Hmax |].
exists entries, (map (hash_subtree input) entries), calls.
split; [exact Hst|]. split; [reflexivity|].
split; [apply tiling_bits; exact Ht|].
split; [apply tiling_sorted with (Z.of_nat N); exact Ht|].
split; [intros h s Hin; apply tiling_start with entries; assumption|].
rewrite length_map.
apply Nat.le_trans with 31%nat; [|lia].
apply tiling_length with (Z.of_nat N); [exact Ht|].
change (Z.of_nat 31) with 31. lia.
Qed.

End HashStack.

Lemma hash_stack_mirrors_chunk_count_witness :
  len8 (repeat x00 3000) < 2 ^ 41 /\
  exists (entries : list (nat * Z)) (cvStack : list (list Z))
         (calls : list call),
    hash_chunks_loop true 0 (repeat x00 3000) 2 = (2, cvStack, calls)
    /\ cvStack = map (hash_subtree true 0 (repeat x00 3000)) entries
    /\ (forall h : nat,
          In h (map fst entries) <-> Z.testbit 2 (Z.of_nat h) = true)
    /\ StronglySorted lt (map fst entries)
    /\ (forall h s, In (h, s) entries ->
          s = 2 ^ (Z.of_nat h + 1) * (2 / 2 ^ (Z.of_nat h + 1)))
    /\ (length cvStack <= 64)%nat.
Proof.
  split; [vm_compute; reflexivity|].
  apply (hash_stack_mirrors_chunk_count true 0 (repeat x00 3000) 2).
  - vm_compute; reflexivity.
  - split; [vm_compute; discriminate | vm_compute; reflexivity].
Defined.


(** * Further properties of [hash] and of the batched path *)

(** X1: in every run of [hash], on one chunk or on many, exactly one
    compression has the ROOT flag among its flags, and it is the last
    compression of the run. *)
Theorem hash_one_root_compression_last (le : bool) (bo : Z)
    (input : list byte) (outputLen : Z) :
  root_count (snd (hash_run le bo input outputLen)) = 1%nat /\
  option_map (has_flag ROOT) (last_call (snd (hash_run le bo input outputLen)))
  = Some true.
Proof.
  assert (Hlog : snd (hash_run le bo input outputLen)
                 = snd (hash_root le bo 0 input)).
  { unfold hash_run, finish.
    destruct (hash_root le bo 0 input) as [[cv|] calls]; reflexivity. }
  rewrite Hlog. apply root_last_count, hash_root_last.
Qed.


(** X3: the digest of [hash] does not depend on the byte order of the
    host nor on the position of the input in its buffer, the two things
    the fast block read looks at. *)
Theorem hash_same_on_every_host (le1 le2 : bool) (bo1 bo2 : Z)
    (input : list byte) (outputLen : Z) :
  hash le1 bo1 input outputLen = hash le2 bo2 input outputLen.
Proof.
  rewrite (hash_host_independent le1 bo1), (hash_host_independent le2 bo2).
  reflexivity.
Qed.

(** X4: the single-threaded [hash] of [blake3-workers.ts], which reads
    every block with [readBlock], returns what [hash] of [blake3.ts]
    returns, after the same compressions in the same order. *)
Theorem workers_hash_is_hash (le : bool) (bo : Z)
    (input : list byte) (outputLen : Z) :
  Workers.hash input outputLen = hash le bo input outputLen /\
  snd (Workers.hash_run input outputLen) = snd (hash_run le bo input outputLen).
Proof.
  unfold Workers.hash, Workers.hash_run, hash, hash_run.
  rewrite (workers_hash_root le bo). split; reflexivity.
Qed.



(** X6: the synchronous [hash] of [index.ts] returns what [hash] of
    [blake3.ts] returns, whichever backend is asked for or selected and
    whatever has been initialized. *)
Theorem index_hash_is_hashJS (le : bool) (bo : Z) (s : Index.modules)
    (input : list byte) (outputLen : Z) (backend : Index.Backend) :
  Index.hash le bo s input outputLen backend = hash le bo input outputLen.
Proof.
  unfold Index.hash.
  destruct (match backend with
            | Index.AUTO => Index.selectBackend s (len8 input)
            | _ => backend
            end).
  - reflexivity.
  - destruct (Index.wasmInitialized s && Index.isWasmSimdAvailable s) eqn:E.
    + apply hashWasm_hashJS, E.
    + apply hashWorkersSync_hashJS.
  - apply hashWorkersSync_hashJS.
  - reflexivity.
Qed.



(** X8: after [initWorkers(count)] with [count >= 1] the pool holds
    exactly [count] workers and [getWorkerCount()] returns [count],
    whatever calls of [initWorkers] and [terminateWorkers] came before;
    after [terminateWorkers] it holds none. *)
Theorem initWorkers_leaves_count (hardwareConcurrency : option Z) (count : Z)
    (p : Workers.pool) :
  pool_reachable p -> 1 <= count ->
  Z.of_nat (length (Workers.workers
                      (Workers.initWorkers hardwareConcurrency (Some count) p)))
  = count /\
  Workers.getWorkerCount (Workers.initWorkers hardwareConcurrency (Some count) p)
  = count /\
  Workers.workers (Workers.terminateWorkers p) = [] /\
  Workers.getWorkerCount (Workers.terminateWorkers p) = 0.
Proof.
  intros Hreach Hcount. split; [|split; [|split; reflexivity]].
  - unfold Workers.initWorkers.
    destruct (Z.of_nat (length (Workers.workers p)) =? count) eqn:E.
    + apply Z.eqb_eq, E.
    + pose proof (created_workers count) as Hlen.
      destruct (JS.while _ _ _ _) as [i created].
      cbn [snd Workers.workers] in *. lia.
  - unfold Workers.getWorkerCount, Workers.initWorkers.
    destruct (Z.of_nat (length (Workers.workers p)) =? count) eqn:E.
    + apply Z.eqb_eq in E.
      destruct (pool_reachable_inv p Hreach) as [H|[H _]]; [lia|].
      rewrite H in E. cbn [length] in E. lia.
    + destruct (JS.while _ _ _ _) as [i created]. reflexivity.
Qed.

Lemma initWorkers_leaves_count_witness :
  pool_reachable (Workers.initWorkers (Some 8) None Workers.no_pool) /\
  Workers.getWorkerCount
    (Workers.initWorkers None (Some 3)
       (Workers.initWorkers (Some 8) None Workers.no_pool)) = 3.
Proof.
  split; [apply reach_init, reach_start|].
  apply (initWorkers_leaves_count None 3
           (Workers.initWorkers (Some 8) None Workers.no_pool)).
  - apply reach_init, reach_start.
  - lia.
Defined.

(** X9: the 32 bytes [cvToBytes] writes for a CV of eight 32-bit words
    read back, by the little-endian key load of [keyedHash], as the same
    eight words. *)
Theorem cvToBytes_keyWords_round_trip (cv : list Z) :
  length cv = 8%nat -> Forall Ref.word cv ->
  exists bytes,
    cvToBytes cv 32 = Returns bytes /\ len8 bytes = 32 /\
    keyWords_of bytes = cv.
Proof.
  intros Hlen Hall. exists (digest_bytes cv 32).
  split; [apply (cvToBytes_returns cv 32); lia|].
  split; [unfold len8; rewrite length_digest_bytes; reflexivity|].
  rewrite keyWords_little_endian. apply le_words8_digest_bytes; assumption.
Qed.

Lemma cvToBytes_keyWords_round_trip_witness :
  length IV = 8%nat /\
  exists bytes,
    cvToBytes IV 32 = Returns bytes /\ len8 bytes = 32 /\
    keyWords_of bytes = IV.
Proof.
  split; [reflexivity|].
  apply (cvToBytes_keyWords_round_trip IV); [reflexivity|].
  unfold IV. repeat (constructor; [unfold Ref.word; lia|]). constructor.
Defined.

(** X10: for a context of at most 1024 bytes, the context CV of
    [deriveKey] is the root CV that the chunk and tree engine of [hash]
    gives for these bytes when run with the flag DERIVE_KEY_CONTEXT, and
    it is reached by the same compressions. *)
Theorem deriveKey_short_context_is_root (le : bool) (bo : Z)
    (contextBytes : list byte) :
  len8 contextBytes <= CHUNK_LEN ->
  fst (deriveKey_contextCv contextBytes)
  = root_cv (hash_root le bo DERIVE_KEY_CONTEXT contextBytes) /\
  snd (deriveKey_contextCv contextBytes)
  = snd (hash_root le bo DERIVE_KEY_CONTEXT contextBytes).
Proof.
  intros H. rewrite (hash_root_single le bo DERIVE_KEY_CONTEXT contextBytes H).
  unfold deriveKey_contextCv, root_cv.
  destruct (block_loop _ _ _ _ _ _ _) as [cv calls]. split; reflexivity.
Qed.

Lemma deriveKey_short_context_is_root_witness :
  len8 [x61; x62; x63] <= CHUNK_LEN /\
  fst (deriveKey_contextCv [x61; x62; x63])
  = root_cv (hash_root true 0 DERIVE_KEY_CONTEXT [x61; x62; x63]).
Proof.
  split; [vm_compute; discriminate|].
  apply (deriveKey_short_context_is_root true 0 [x61; x62; x63]).
  vm_compute; discriminate.
Defined.

(** X11: under a key of 32 bytes, a run of [keyedHash] has exactly one
    compression with the ROOT flag, its last one, unless the input has
    2, 4, 8, ... chunks: for a number of chunks that is a power of two
    and at least 2, no compression of the run has the ROOT flag.  (For
    inputs shorter than 2^40 bytes.) *)
Theorem keyedHash_root_unless_power_of_two (key input : list byte)
    (outputLen : Z) :
  len8 key = 32 -> len8 input < 2 ^ 40 ->
  ((exists k : nat, (1 <= k)%nat /\
      JS.ceil_div (len8 input) CHUNK_LEN = 2 ^ Z.of_nat k) ->
   root_count (snd (keyedHash_run key input outputLen)) = 0%nat)
  /\ (~ (exists k : nat, (1 <= k)%nat /\
           JS.ceil_div (len8 input) CHUNK_LEN = 2 ^ Z.of_nat k) ->
      root_count (snd (keyedHash_run key input outputLen)) = 1%nat /\
      option_map (has_flag ROOT)
        (last_call (snd (keyedHash_run key input outputLen))) = Some true).
Proof.
  intros Hkey Hmax.
  assert (Hlog : snd (keyedHash_run key input outputLen)
                 = snd (keyedHash_root (keyWords_of key) input)).
  { unfold keyedHash_run. rewrite Hkey. cbn [Z.eqb Pos.eqb negb]. unfold finish.
    destruct (keyedHash_root (keyWords_of key) input) as [[cv|] calls];
      reflexivity. }
  rewrite Hlog.
  destruct (keyedHash_root_flag (keyWords_of key) input Hmax) as [Hpow Hnot].
  split.
  - intros H. apply plain_count, Hpow, H.
  - intros H. apply root_last_count, Hnot, H.
Qed.

Lemma keyedHash_root_unless_power_of_two_witness :
  len8 zero_key = 32 /\
  len8 (repeat x00 3000) < 2 ^ 40 /\
  (~ (exists k : nat, (1 <= k)%nat /\
        JS.ceil_div (len8 (repeat x00 3000)) CHUNK_LEN = 2 ^ Z.of_nat k) ->
   root_count (snd (keyedHash_run zero_key (repeat x00 3000) 32)) = 1%nat /\
   option_map (has_flag ROOT)
     (last_call (snd (keyedHash_run zero_key (repeat x00 3000) 32)))
   = Some true).
Proof.
  split; [reflexivity|]. split; [vm_compute; reflexivity|].
  apply (keyedHash_root_unless_power_of_two zero_key (repeat x00 3000) 32).
  - reflexivity.
  - vm_compute; reflexivity.
Defined.

(** X12: for a block of [len <= 64] bytes at [offset >= 0], [readBlock]
    fills the buffer with the sixteen little-endian words of the bytes
    [offset .. offset + len - 1] of the input, with zero for every byte
    past the end of the block or of the input: no byte at [offset + len]
    or after has a part in the result. *)
Theorem readBlock_zero_pads (input : list byte) (offset len : Z) :
  0 <= offset -> 0 <= len <= 64 ->
  readBlock input offset len
  = map (fun j => clipped_word input (offset + len) (offset + 4 * Z.of_nat j))
      (seq 0 16).
Proof.
  intros Ho Hlen. unfold readBlock.
  set (end_ := Z.min (offset + len) (len8 input)).
  destruct (readBlock_words input offset end_ (Z.to_nat len))
    as (k & Hk & Hin & Hout & ->); [unfold end_; lia | unfold end_; lia |].
  assert (Hsplit : seq 0 16 = seq 0 k ++ seq k (16 - k)).
  { rewrite <- seq_app. f_equal. lia. }
  assert (Hhead : map (fun j => clipped_word input (offset + len)
                                  (offset + 4 * Z.of_nat j)) (seq 0 k)
                  = map (fun j => packed_word input (offset + 4 * Z.of_nat j))
                      (seq 0 k)).
  { apply map_ext_in. intros j Hj. apply in_seq in Hj.
    rewrite <- clipped_word_min. fold end_.
    apply clipped_word_packed. lia. }
  rewrite Hsplit, map_app, Hhead.
  destruct (offset + 4 * Z.of_nat k <? end_) eqn:E.
  - apply Z.ltb_lt in E.
    assert (Hk16 : (k < 16)%nat) by (unfold end_ in *; lia).
    pose proof (readBlock_tail input end_ (offset + 4 * Z.of_nat k)
                  ltac:(lia)) as Htail.
    destruct (JS.while 4 _ _ _) as [[word shift] i']. cbn [fst] in Htail.
    unfold JS.set32, JS.set.
    replace (Z.of_nat k <? 0) with false by (symmetry; apply Z.ltb_ge; lia).
    rewrite Nat2Z.id.
    replace (16 - k)%nat with (S (16 - S k)) by lia. cbn [repeat seq map].
    rewrite upd_at by (rewrite length_map, length_seq; reflexivity).
    f_equal. f_equal.
    + rewrite Htail. apply clipped_word_min.
    + symmetry. apply map_zero. intros j Hj.
      rewrite <- clipped_word_min. fold end_. apply clipped_word_zero.
      fold end_. rewrite Z.min_l by (unfold end_; lia). lia.
  - apply Z.ltb_ge in E. f_equal. symmetry. apply map_zero. intros j Hj.
    rewrite <- clipped_word_min. fold end_. apply clipped_word_zero.
    fold end_. rewrite Z.min_l by (unfold end_; lia). lia.
Qed.

Lemma readBlock_zero_pads_witness :
  0 <= 1 /\
  readBlock [x01; x02; x03; x04; x05; x06; x07] 1 5
  = map (fun j => clipped_word [x01; x02; x03; x04; x05; x06; x07] (1 + 5)
                    (1 + 4 * Z.of_nat j)) (seq 0 16).
Proof.
  split; [lia|].
  apply (readBlock_zero_pads [x01; x02; x03; x04; x05; x06; x07] 1 5); lia.
Defined.


(** X14: [leb128(n)] is the unsigned LEB128 encoding of [n] taken as a
    number of 32 bits: decoding its bytes, seven bits each with the low
    ones first, gives [n >>> 0]; every byte but the last has bit 7 set
    and the last has not; there are one to five bytes. *)
Theorem leb128_round_trip (n : Z) :
  unleb128 (leb128 n) = JS.ToUint32 n /\ delimited (leb128 n)
  /\ (1 <= length (leb128 n) <= 5)%nat.
Proof.
  unfold leb128. rewrite leb128_body_spec.
  pose proof (ToUint32_range n) as Hu. set (u := JS.ToUint32 n) in *.
  pose proof (Z.mod_pos_bound u 128 ltac:(lia)) as Hr.
  pose proof (Z.div_mod u 128 ltac:(lia)) as Hdm.
  set (b := u mod 128 + (if u / 128 =? 0 then 0 else 128)).
  destruct (leb128_loop 4 (u / 128) ([] ++ [b]))
    as (tail & Hrun & Hval & Hnil & Hdel & Hlen).
  { split; [apply Z.div_pos; lia|].
    apply Z.div_lt_upper_bound; [lia|].
    change (128 ^ Z.of_nat 4) with 268435456.
    change (2 ^ 32) with 4294967296 in Hu. lia. }
  { apply Z.div_lt_upper_bound; lia. }
  rewrite Hrun. cbn [snd app].
  assert (Hb : Z.land b 127 = u mod 128).
  { rewrite land_127. unfold b. destruct (u / 128 =? 0).
    - rewrite Z.add_0_r. apply Z.mod_mod. lia.
    - replace (u mod 128 + 128) with (u mod 128 + 1 * 128) by lia.
      rewrite Z.mod_add by lia. apply Z.mod_mod. lia. }
  split; [cbn [unleb128]; rewrite Hb, Hval; lia|].
  split; [|simpl; lia].
  unfold b. destruct (Z.eqb_spec (u / 128) 0) as [Hz|Hz].
  - rewrite (Hnil Hz). simpl. lia.
  - assert (Hpos : 0 < u / 128)
      by (pose proof (Z.div_pos u 128 ltac:(lia) ltac:(lia)); lia).
    specialize (Hdel Hpos).
    destruct tail as [|t0 tail']; [simpl in Hdel; contradiction|].
    split; [lia | exact Hdel].
Qed.

(** X15: [sleb128(n)] is the signed LEB128 encoding of [n] taken as a
    signed number of 32 bits: decoding its bytes with bit 6 of the last
    one as the sign gives [n | 0]; every byte but the last has bit 7 set
    and the last has not; there are one to five bytes. *)
Theorem sleb128_round_trip (n : Z) :
  unsleb128 (sleb128 n) = JS.ToInt32 n /\ delimited (sleb128 n)
  /\ (1 <= length (sleb128 n) <= 5)%nat.
Proof.
  unfold sleb128.
  assert (Hfirst : sleb128_body (n, true, [])
                   = sleb128_body (JS.ToInt32 n, true, [])).
  { unfold sleb128_body, JS.and, JS.sar. rewrite !ToInt32_idem. reflexivity. }
  rewrite while_step by reflexivity. rewrite Hfirst.
  rewrite <- (while_step sleb128_cond sleb128_body 4 (JS.ToInt32 n, true, []))
    by reflexivity.
  pose proof (ToInt32_range n) as Hr.
  destruct (sleb128_loop 4 (JS.ToInt32 n) [])
    as (tail & n' & Hrun & Hval & Hdel & Hlen).
  { change (128 ^ Z.of_nat 4) with 268435456.
    change (2 ^ 31) with 2147483648 in Hr. lia. }
  { exact Hr. }
  rewrite Hrun. cbn [snd app].
  split; [exact Hval|]. split; [exact Hdel|].
  split; [|exact Hlen].
  destruct tail; [simpl in Hdel; contradiction | simpl; lia].
Qed.

(** X16: a run of [hash] on an input of [n] bytes makes
    [max(1, ceil(n / 64)) + max(1, ceil(n / 1024)) - 1] calls of
    [compress]: one for each block of each chunk and one for each parent
    node, whatever output length is asked for. *)
Theorem hash_compression_count (le : bool) (bo : Z) (input : list byte)
    (outputLen : Z) :
  Z.of_nat (length (snd (hash_run le bo input outputLen)))
  = Z.max 1 (JS.ceil_div (len8 input) BLOCK_LEN)
    + Z.max 1 (JS.ceil_div (len8 input) CHUNK_LEN) - 1.
Proof.
  assert (Hlog : snd (hash_run le bo input outputLen)
                 = snd (hash_root le bo 0 input)).
  { unfold hash_run, finish.
    destruct (hash_root le bo 0 input) as [[cv|] calls]; reflexivity. }
  rewrite Hlog. apply hash_root_count.
Qed.

(** X17: [toHex] writes two characters for every byte, and reading them
    back as hexadecimal digits [0-9a-f], the high digit first, gives the
    bytes again. *)
Theorem toHex_round_trip (arr : list byte) :
  fromHex (toHex arr) = Some arr
  /\ length (toHex arr) = (2 * length arr)%nat.
Proof.
  induction arr as [|b arr [IH IHlen]]; [split; reflexivity|].
  destruct (toHex_byte b) as (hi & lo & h & l & Hs & Hh & Hl & Hb).
  unfold toHex in *. cbn [map concat]. rewrite Hs. cbn [app].
  split.
  - cbn [fromHex]. rewrite Hh, Hl, IH, Hb. reflexivity.
  - cbn [length]. rewrite IHlen. lia.
Qed.

(** X18: [transpose4xN] followed by [untranspose4xN] is a round trip.  For
    four arrays of [n] 32-bit words and a region of [16 * n] bytes at
    [offset] inside the memory, [transpose4xN] does not throw, changes no
    byte outside the region, and leaves word [j] of array [a] at
    [offset + 16 * j + 4 * a], the low byte first; [untranspose4xN] of
    that region into four arrays of [n] words gives the four arrays
    again. *)
Theorem transpose_untranspose_round_trip (a0 a1 a2 a3 o0 o1 o2 o3 : list Z)
    (n offset : Z) (memory : list byte) :
  Forall (Forall Ref.word) [a0; a1; a2; a3] ->
  Forall (fun a => Z.of_nat (length a) = n) [a0; a1; a2; a3] ->
  Forall (fun o => Z.of_nat (length o) = n) [o0; o1; o2; o3] ->
  0 <= offset -> offset + 16 * n <= len8 memory ->
  exists memory',
    transpose4xN [a0; a1; a2; a3] n memory offset = (memory', false)
    /\ len8 memory' = len8 memory
    /\ (forall k, k < offset \/ offset + 16 * n <= k ->
          get8 memory' k = get8 memory k)
    /\ (forall j a, 0 <= j < n -> 0 <= a < 4 ->
          getUint32 memory' (offset + j * 16 + 4 * a)
          = Some (nth (Z.to_nat j) (nth (Z.to_nat a) [a0; a1; a2; a3] []) 0))
    /\ untranspose4xN memory' offset n [o0; o1; o2; o3]
       = ([a0; a1; a2; a3], false).
Proof.
  intros Hw Hla Hlo Hoff Hfit.
  destruct (Forall_four _ _ _ _ _ Hla) as (Hl0 & Hl1 & Hl2 & Hl3).
  destruct (transpose_loop a0 a1 a2 a3 offset memory Hoff n)
    as (m & Hrun & Ht); [lia | exact Hfit |].
  exists m. split; [exact Hrun|]. split; [apply Ht|]. split; [|split].
  - intros k Hk. destruct Ht as [_ Hbytes]. rewrite Hbytes.
    destruct (Z.leb_spec offset k), (Z.ltb_spec k (offset + 16 * n));
      try reflexivity; lia.
  - intros j a Hj Ha.
    rewrite (getUint32_transposed a0 a1 a2 a3 offset memory Hoff n m j a)
      by assumption.
    f_equal. unfold word_at, JS.get.
    replace (j <? 0) with false by (symmetry; apply Z.ltb_ge; lia).
    apply ToUint32_small.
    assert (Hall : Forall Ref.word (nth (Z.to_nat a) [a0; a1; a2; a3] [])).
    { rewrite Forall_forall in Hw. apply Hw, nth_In. simpl. lia. }
    assert (Hlen : Z.of_nat (length (nth (Z.to_nat a) [a0; a1; a2; a3] []))
                   = n).
    { rewrite Forall_forall in Hla. apply Hla, nth_In. simpl. lia. }
    rewrite Forall_forall in Hall. apply Hall, nth_In. lia.
  - apply (untranspose_loop a0 a1 a2 a3 o0 o1 o2 o3 offset n memory m);
      assumption.
Qed.

Lemma transpose_untranspose_round_trip_witness :
  exists memory',
    transpose4xN [[1; 2]; [3; 4]; [5; 6]; [4294967295; 8]] 2
      (repeat x00 40) 4 = (memory', false)
    /\ len8 memory' = len8 (repeat x00 40)
    /\ (forall k, k < 4 \/ 4 + 16 * 2 <= k ->
          get8 memory' k = get8 (repeat x00 40) k)
    /\ (forall j a, 0 <= j < 2 -> 0 <= a < 4 ->
          getUint32 memory' (4 + j * 16 + 4 * a)
          = Some (nth (Z.to_nat j)
                    (nth (Z.to_nat a)
                       [[1; 2]; [3; 4]; [5; 6]; [4294967295; 8]] []) 0))
    /\ untranspose4xN memory' 4 2 [[0; 0]; [0; 0]; [0; 0]; [0; 0]]
       = ([[1; 2]; [3; 4]; [5; 6]; [4294967295; 8]], false).
Proof.
  apply (transpose_untranspose_round_trip
           [1; 2] [3; 4] [5; 6] [4294967295; 8] [0; 0] [0; 0] [0; 0] [0; 0]
           2 4 (repeat x00 40)).
  - repeat (constructor; [repeat (constructor; [unfold Ref.word; lia|]);
                          constructor|]).
    constructor.
  - repeat (constructor; [reflexivity|]). constructor.
  - repeat (constructor; [reflexivity|]). constructor.
  - lia.
  - vm_compute. discriminate.
Defined.

(** X19: with four arrays given and [n >= 1], [transpose4xN] throws exactly
    when the region of [16 * n] bytes at [offset] is not inside the
    memory: the offset is negative or the region ends past the last
    byte. *)
Theorem transpose4xN_throws_out_of_bounds (a0 a1 a2 a3 : list Z)
    (n offset : Z) (memory : list byte) :
  1 <= n ->
  (snd (transpose4xN [a0; a1; a2; a3] n memory offset) = true
   <-> offset < 0 \/ len8 memory < offset + 16 * n).
Proof.
  intros Hn. split.
  - intros Hthrown.
    destruct (Z_lt_le_dec offset 0) as [Hneg|Hoff]; [left; exact Hneg|].
    destruct (Z_lt_le_dec (len8 memory) (offset + 16 * n)) as [Hout|Hfit];
      [right; exact Hout|].
    destruct (transpose_loop a0 a1 a2 a3 offset memory Hoff n)
      as (m & Hrun & _); [lia | exact Hfit |].
    rewrite Hrun in Hthrown. discriminate.
  - intros Hout.
    destruct (snd (transpose4xN [a0; a1; a2; a3] n memory offset)) eqn:E;
      [reflexivity|].
    apply transpose4xN_in_bounds in E; [lia | exact Hn].
Qed.

Lemma transpose4xN_throws_out_of_bounds_witness :
  1 <= 1 /\
  (snd (transpose4xN [[1]; [2]; [3]; [4]] 1 (repeat x00 15) 0) = true
   <-> 0 < 0 \/ len8 (repeat x00 15) < 0 + 16 * 1).
Proof.
  split; [lia|].
  apply (transpose4xN_throws_out_of_bounds [1] [2] [3] [4] 1 0
           (repeat x00 15)).
  lia.
Defined.

(** X20: with an empty pool, [hashWorkers] takes its single-threaded path
    on every input and returns what [hashWasmSimd] returns while
    [compress4x] is null: the digest of the whole input compressed as one
    chain of blocks.  For an input of 1025 bytes this is not the digest
    [hash] returns, so a worker is needed for inputs of more than one
    chunk. *)
Theorem hashWorkers_empty_pool_is_single_chain (le : bool) (bo : Z) :
  (forall input outputLen,
     Workers.hashWorkers 0 input outputLen
     = hashWasmSimd false input outputLen) /\
  (exists input,
     CHUNK_LEN < len8 input /\
     Workers.hashWorkers 0 input 32 <> hash le bo input 32).
Proof.
  split.
  - intros input outputLen.
    unfold Workers.hashWorkers, Workers.hashWorkers_run, hashWasmSimd,
      hashWasmSimd_run, Workers.hashWorkers_root, hashWasmSimd_root.
    cbn [Z.eqb negb]. rewrite !orb_true_r.
    destruct (Workers.processChunk input 0 (len8 input) 0 0) as [cv calls0].
    destruct (block_loop _ _ _ _ _ _ _) as [finalCv calls]. reflexivity.
  - exists (generateInput 1025). split; [vm_compute; reflexivity|].
    assert (H : Workers.hashWorkers 0 (generateInput 1025) 32
                = Returns uninitialized_simd_digest_1025)
      by (vm_compute; reflexivity).
    destruct (hash_vector_small le bo) as (_ & _ & _ & _ & H').
    rewrite H, H'.
    discriminate.
Qed.

